(** * cudamapper: batch pipeline of the overlap and alignment driver

    A shallow embedding of the driver of the cudamapper executable
    (run_alignment_batch, align_overlaps, process_one_device_batch,
    process_one_batch, writer_thread_function, worker_thread_function and
    main), followed by the properties checked on it.

    Conventions.
    - int32_t and size_t values are integers of [Z]; every narrowing the
      source performs is written out with [to_int32] / [to_size_t].
    - `float` is IEEE-754 binary32, taken from the parametric specification
      of the standard library ([SpecFloat], precision 24, emax 128), with
      round-to-nearest-even.
    - std::vector is a [list]; writes by index use stdpp's list insert.
    - Threads are program counters; one step of a thread is one atomic
      region of the source (a critical section, or code touching only data
      no other thread touches meanwhile).  Executions are lists of labels
      saying which thread moves next.
    - Calls into the CUDA runtime are taken to succeed; the one exception
      the driver itself raises is the runtime_error of run_alignment_batch.
      An exception that leaves a thread function ends the process
      (std::terminate).
    - The matcher, overlapper, aligner, parsers and the PAF printer are
      parameters ([Collaborators]); the two thread-safe containers, whose
      header is not among the sources, follow the specification. *)

From Stdlib Require Import ZArith List String Lia Bool.
From Stdlib Require Import SpecFloat.
From stdpp Require Import base list.

Local Open Scope Z_scope.

(** ** Fixed-width integers *)

Module Int32.
Definition modulus : Z := 2 ^ 32.
Definition max_signed : Z := 2 ^ 31 - 1.
Definition min_signed : Z := - 2 ^ 31.

(** static_cast<int32_t>(x): reduction modulo 2^32 into the signed range. *)
Definition to_int32 (x : Z) : Z := (x + 2 ^ 31) mod modulus - 2 ^ 31.

Definition in_range (x : Z) : Prop := min_signed <= x <= max_signed.

End Int32.

Module SizeT.
Definition modulus : Z := 2 ^ 64.
Definition in_range (x : Z) : Prop := 0 <= x < modulus.
Definition to_size_t (x : Z) : Z := x mod modulus.
End SizeT.

(** ** Single-precision floats *)

Module Float32.
Definition prec : Z := 24.
Definition emax : Z := 128.

Definition float : Type := spec_float.

(** Conversion of an integer to float (round to nearest even). *)
Definition of_Z (n : Z) : float := binary_normalize prec emax n 0 false.

Definition mul : float -> float -> float := SFmul prec emax.
Definition div : float -> float -> float := SFdiv prec emax.

(** Conversion of a float to an unsigned 64-bit integer: the fractional
    part is discarded.  The conversion is undefined ([None]) when the
    truncated value does not fit, in particular for infinities and NaN. *)
Definition to_size_t (x : float) : option Z :=
  match x with
  | S754_zero _ => Some 0
  | S754_finite s m e =>
      let a := match e with
               | Zneg p => Z.shiftr (Zpos m) (Zpos p)
               | _ => Z.shiftl (Zpos m) e
               end in
      let v := if s then - a else a in
      if (0 <=? v) && (v <? SizeT.modulus) then Some v else None
  | S754_infinity _ | S754_nan => None
  end.

(** The literal 0.03f: the float nearest to 3/100, 16106127 * 2^-29. *)
Definition lit_0_03 : float := S754_finite false 16106127 (-29).

End Float32.

(** ** Data model *)

Record IndexDescriptor := mkIndexDescriptor {
  first_read : Z;
  number_of_reads : Z
}.

Record IndexBatch := mkIndexBatch {
  query_indices : list IndexDescriptor;
  target_indices : list IndexDescriptor
}.

Record BatchOfIndices := mkBatchOfIndices {
  host_batch : IndexBatch;
  device_batches : list IndexBatch
}.

Inductive RelativeStrand := Forward | Reverse.

Record Overlap := mkOverlap {
  query_read_id_ : Z;
  target_read_id_ : Z;
  query_start_position_in_read_ : Z;
  query_end_position_in_read_ : Z;
  target_start_position_in_read_ : Z;
  target_end_position_in_read_ : Z;
  relative_strand : RelativeStrand;
  num_residues_ : Z
}.

(** OverlapsAndCigars - packs overlaps and cigars together. *)
Record OverlapsAndCigars := mkOverlapsAndCigars {
  overlaps : list Overlap;
  cigars : list string
}.

Record FastaSequence := mkFastaSequence {
  name : string;
  seq : string
}.

(** io::FastaParser, seen through get_sequence_by_id. *)
Definition FastaParser : Type := Z -> FastaSequence.

(** cudaaligner::StatusType as the driver observes it: success or not. *)
Inductive StatusType := success | failure (code : Z).

(** The part of ApplicationParameters the driver reads. *)
Record ApplicationParameters := mkApplicationParameters {
  all_to_all : bool;
  alignment_engines : Z;
  num_devices : Z;
  kmer_size : Z;
  query_parser : FastaParser;
  target_parser : FastaParser
}.

(** External collaborators (matcher, overlapper, aligner, PAF printer).
    Their internals are outside the driver; it only relies on their
    results, which are therefore parameters of the model. *)
Record Collaborators := mkCollaborators {
  (** Matcher::create_matcher on the two cached indices followed by
      OverlapperTriggered::get_overlaps on its anchors. *)
  get_overlaps : IndexDescriptor -> IndexDescriptor -> list Overlap;
  (** Aligner::add_alignment (query region, target region, reverse flag). *)
  add_alignment : string -> string -> bool -> StatusType;
  (** Alignment::convert_to_cigar of the alignment of the two regions. *)
  convert_to_cigar : string -> string -> bool -> string;
  (** Overlapper::post_process_overlaps (in-place merge). *)
  post_process_overlaps : list Overlap -> list Overlap;
  (** print_paf (overlaps, cigars, query parser, target parser, kmer size);
      the text it emits. *)
  print_paf : list Overlap -> list string -> FastaParser -> FastaParser -> Z -> list string
}.

(** get_size<int32_t>(v) *)
Definition get_size {A} (v : list A) : Z := Z.of_nat (length v).

(** ** The CUDA runtime as the driver sees it *)

(** Calls into the CUDA runtime and the device-side libraries.
    [aligner_work] stands for add_alignment, align_all, sync_alignments,
    get_alignments and reset on one claimed range; [matcher_and_overlapper]
    for the device work of Matcher and OverlapperTriggered on one pair. *)
Inductive cuda_call :=
| cudaSetDevice (device_id : Z)
| cudaGetDevice
| cudaStreamCreate
| cudaStreamDestroy
| cudaStreamSynchronize
| cudaMemGetInfo
| create_aligner (max_query_size max_target_size batch_size device_id : Z)
| aligner_work (idx_start idx_end : Z)
| matcher_and_overlapper.

(** The current device is a per-thread setting of the CUDA runtime; a host
    thread that never called cudaSetDevice runs on device 0. *)
Definition default_device : Z := 0.

Definition is_set_device (c : cuda_call) : bool :=
  match c with cudaSetDevice _ => true | _ => false end.

(** Calls that allocate device memory or run work on the current device. *)
Definition is_device_call (c : cuda_call) : bool :=
  match c with
  | cudaSetDevice _ | cudaGetDevice => false
  | _ => true
  end.

(** A thread is pinned to [d] when its first call that touches a device is
    preceded by cudaSetDevice(d). *)
Fixpoint pinned_before_device_calls (d : Z) (calls : list cuda_call) : bool :=
  match calls with
  | [] => true
  | cudaSetDevice d' :: _ => d' =? d
  | c :: rest => negb (is_device_call c) && pinned_before_device_calls d rest
  end.

(** ** Alignment sub-stage: align_overlaps and run_alignment_batch *)

Module Alignment.

(** Values the environment supplies to one call of align_overlaps:
    the free device memory reported by cudaMemGetInfo, and the value an
    out-of-range float to size_t conversion happens to produce. *)
Record oracle := mkOracle {
  free_memory : Z;
  undefined_value : Z
}.

Definition query_overlap_size (o : Overlap) : Z :=
  Int32.to_int32 (query_end_position_in_read_ o - query_start_position_in_read_ o).

Definition target_overlap_size (o : Overlap) : Z :=
  Int32.to_int32 (target_end_position_in_read_ o - target_start_position_in_read_ o).

(** The first loop of align_overlaps. *)
Definition max_sizes (ovs : list Overlap) : Z * Z :=
  fold_left
    (fun (acc : Z * Z) (o : Overlap) =>
       let max_query_size := fst acc in
       let max_target_size := snd acc in
       (if query_overlap_size o >? max_query_size
        then query_overlap_size o else max_query_size,
        if target_overlap_size o >? max_target_size
        then target_overlap_size o else max_target_size))
    ovs (0, 0).

Definition memory_per_alignment (max_query_size max_target_size : Z) : Float32.float :=
  Float32.mul (Float32.mul Float32.lit_0_03 (Float32.of_Z max_query_size))
              (Float32.of_Z max_target_size).

(** (static_cast<float>(free) * 85 / 100) / memory_per_alignment *)
Definition max_alignments_float (free max_query_size max_target_size : Z) : Float32.float :=
  Float32.div
    (Float32.div (Float32.mul (Float32.of_Z free) (Float32.of_Z 85)) (Float32.of_Z 100))
    (memory_per_alignment max_query_size max_target_size).

Definition max_alignments (o : oracle) (max_query_size max_target_size : Z) : Z :=
  match Float32.to_size_t
          (max_alignments_float (free_memory o) max_query_size max_target_size) with
  | Some v => v
  | None => SizeT.to_size_t (undefined_value o)
  end.

(** std::min(get_size<int32_t>(overlaps), static_cast<int32_t>(max_alignments))
      / num_alignment_engines
    for num_alignment_engines >= 1, the only values with which
    process_one_device_batch calls align_overlaps.  The int32 division of
    the source traps for a divisor 0 (and for INT_MIN / -1), where Z.quot
    has a value: what is stated about a call of align_overlaps that
    completes takes num_alignment_engines >= 1. *)
Definition batch_size_of (o : oracle) (ovs : list Overlap) (num_alignment_engines : Z) : Z :=
  let '(max_query_size, max_target_size) := max_sizes ovs in
  Z.quot (Z.min (get_size ovs)
                (Int32.to_int32 (max_alignments o max_query_size max_target_size)))
         num_alignment_engines.

(** One alignment handed to the engine. *)
Record alignment := mkAlignment {
  al_query : string;
  al_target : string;
  al_reverse : bool
}.

Inductive engine_pc :=
| EngineEntry                          (* thread created, nothing run yet *)
| EngineClaim                          (* head of the while loop *)
| EngineHolding (idx_start idx_end : Z) (* range claimed, lock released *)
| EngineReturned
| EngineThrew (status : StatusType).

Record engine := mkEngine {
  pc : engine_pc;
  device_id : Z;
  calls : list cuda_call
}.

(** What the engines of one align_overlaps call share: the cursor
    overlap_idx (guarded by overlap_idx_mtx) and the cigar vector.
    [claimed] records who took which range, in the order of the
    critical sections. *)
Record state := mkState {
  overlap_idx : Z;
  cigar : list string;
  engines : list engine;
  claimed : list (nat * (Z * Z))
}.

Section RunAlignmentBatch.
Context (C : Collaborators).
Context (ovs : list Overlap).
Context (query_parser' target_parser' : FastaParser).
Context (max_query_size max_target_size batch_size : Z).

(** &seq[start] together with the length passed next to it. *)
Definition region (s : string) (start len : Z) : string :=
  substring (Z.to_nat start) (Z.to_nat len) s.

Definition alignment_of (o : Overlap) : alignment :=
  let query := query_parser' (query_read_id_ o) in
  let target := target_parser' (target_read_id_ o) in
  {| al_query := region (seq query) (query_start_position_in_read_ o) (query_overlap_size o);
     al_target := region (seq target) (target_start_position_in_read_ o) (target_overlap_size o);
     al_reverse := match relative_strand o with Reverse => true | Forward => false end |}.

Definition cigar_of (a : alignment) : string :=
  convert_to_cigar C (al_query a) (al_target a) (al_reverse a).

(** overlaps[idx] for idx_start <= idx < idx_end.  Whenever the loop body
    runs for a batch_size >= 0 the indices lie within the vector (a held
    range satisfies 0 <= idx_start <= idx_end <= size).  For a negative
    batch_size the cursor leaves the vector and the source reads
    overlaps[idx] at a negative idx, which is undefined; take and drop
    give in-bounds elements there, so what is stated about a call that
    completes takes batch_size >= 1. *)
Definition slice (idx_start idx_end : Z) : list Overlap :=
  take (Z.to_nat (idx_end - idx_start)) (drop (Z.to_nat idx_start) ovs).

(** The submission loop; [batch] is what the engine already holds. *)
Fixpoint add_alignments (todo : list Overlap) (batch : list alignment)
  : StatusType * list alignment :=
  match todo with
  | [] => (success, batch)
  | o :: rest =>
      let a := alignment_of o in
      match add_alignment C (al_query a) (al_target a) (al_reverse a) with
      | success => add_alignments rest (batch ++ [a])
      | failure c => (failure c, batch)
      end
  end.

(** cigar[idx_start + i] = alignments[i]->convert_to_cigar(), for ranges
    inside the vector (see [slice]); the source writes out of bounds for a
    negative index, where Z.to_nat gives entry 0. *)
Fixpoint store_cigars (idx : Z) (alignments : list alignment) (cigar : list string)
  : list string :=
  match alignments with
  | [] => cigar
  | a :: rest => store_cigars (idx + 1) rest (<[Z.to_nat idx := cigar_of a]> cigar)
  end.

(** The critical section at the head of the loop. *)
Definition claim_range (overlap_idx : Z) : option (Z * Z) :=
  if overlap_idx =? get_size ovs then None
  else
    let idx_start := overlap_idx in
    let idx_end := Z.min (Int32.to_int32 (idx_start + batch_size)) (get_size ovs) in
    Some (idx_start, idx_end).

Definition set_pc (e : engine) (p : engine_pc) : engine :=
  {| pc := p; device_id := device_id e; calls := calls e |}.

Definition log_call (e : engine) (c : cuda_call) : engine :=
  {| pc := pc e; device_id := device_id e; calls := calls e ++ [c] |}.

(** One atomic step of engine [k]; [None] when it has terminated. *)
Definition engine_step (k : nat) (e : engine) (st : state) : option (engine * state) :=
  match pc e with
  | EngineEntry =>
      (* cudaGetDevice yields the current device of this fresh thread *)
      let dev := default_device in
      Some ({| pc := EngineClaim;
               device_id := dev;
               calls := [cudaGetDevice; cudaStreamCreate;
                         create_aligner max_query_size max_target_size batch_size dev] |},
            st)
  | EngineClaim =>
      match claim_range (overlap_idx st) with
      | None => Some (log_call (set_pc e EngineReturned) cudaStreamDestroy, st)
      | Some (idx_start, idx_end) =>
          Some (set_pc e (EngineHolding idx_start idx_end),
                {| overlap_idx := idx_end;
                   cigar := cigar st;
                   engines := engines st;
                   claimed := claimed st ++ [(k, (idx_start, idx_end))] |})
      end
  | EngineHolding idx_start idx_end =>
      match add_alignments (slice idx_start idx_end) [] with
      | (success, alignments) =>
          Some (log_call (set_pc e EngineClaim) (aligner_work idx_start idx_end),
                {| overlap_idx := overlap_idx st;
                   cigar := store_cigars idx_start alignments (cigar st);
                   engines := engines st;
                   claimed := claimed st |})
      | (failure c, _) => Some (set_pc e (EngineThrew (failure c)), st)
      end
  | EngineReturned | EngineThrew _ => None
  end.

Definition step (k : nat) (st : state) : option state :=
  match engines st !! k with
  | None => None
  | Some e =>
      match engine_step k e st with
      | None => None
      | Some (e', st') =>
          Some {| overlap_idx := overlap_idx st';
                  cigar := cigar st';
                  engines := <[k := e']> (engines st');
                  claimed := claimed st' |}
      end
  end.

(** Run a schedule; a label naming a terminated engine is ignored. *)
Definition run (sched : list nat) (st : state) : state :=
  fold_left (fun s k => match step k s with Some s' => s' | None => s end) sched st.

Definition fresh_engine : engine :=
  {| pc := EngineEntry; device_id := default_device; calls := [] |}.

Definition init (num_alignment_engines : Z) (cigar : list string) : state :=
  {| overlap_idx := 0;
     cigar := cigar;
     engines := replicate (Z.to_nat num_alignment_engines) fresh_engine;
     claimed := [] |}.

Definition terminated (e : engine) : bool :=
  match pc e with EngineReturned | EngineThrew _ => true | _ => false end.

Fixpoint first_thrown (es : list engine) : option StatusType :=
  match es with
  | [] => None
  | e :: rest =>
      match pc e with
      | EngineThrew s => Some s
      | _ => first_thrown rest
      end
  end.

(** *** Notions used to state what the engines achieve *)

(** The sizes for which no 32-bit addition of the claiming code wraps. *)
Definition sound_sizes : Prop :=
  1 <= batch_size <= Int32.max_signed /\ get_size ovs <= 2 ^ 30.

(** Number of steps a schedule really performs. *)
Fixpoint steps_taken (sched : list nat) (st : state) : nat :=
  match sched with
  | [] => 0
  | k :: rest =>
      match step k st with
      | Some st' => S (steps_taken rest st')
      | None => steps_taken rest st
      end
  end.

(** [tiling a rs c]: the ranges [rs] are non-empty, at most batch_size long,
    and laid end to end from [a] to [c]. *)
Inductive tiling : Z -> list (Z * Z) -> Z -> Prop :=
| tiling_nil a : tiling a [] a
| tiling_cons a b rs c :
    a < b -> b - a <= batch_size -> tiling b rs c -> tiling a ((a, b) :: rs) c.

(** Ranges of [rs] that contain index [i]. *)
Definition covering (i : Z) (rs : list (Z * Z)) : list (Z * Z) :=
  List.filter (fun r => (fst r <=? i) && (i <? snd r)) rs.

(** Entry [i] of the cigar vector holds the cigar of the alignment of
    overlap [i]. *)
Definition written (cg : list string) (i : nat) : Prop :=
  exists o, ovs !! i = Some o /\ cg !! i = Some (cigar_of (alignment_of o)).

(** Index [i] is still owed by an engine: one that holds a range with [i],
    or one that threw. *)
Definition pending (es : list engine) (i : nat) : Prop :=
  (exists k e s t, es !! k = Some e /\ pc e = EngineHolding s t /\ s <= Z.of_nat i < t) \/
  (exists k e c, es !! k = Some e /\ pc e = EngineThrew c).

(** The vector the caller gets back when every engine returned. *)
Definition aligned_cigars : list string :=
  map (fun o => cigar_of (alignment_of o)) ovs.

End RunAlignmentBatch.

(** How a call of align_overlaps ends, read off the state of its engines
    once the futures are collected (f.get() in launch order; the futures
    of std::async wait for their threads on destruction). *)
Inductive outcome :=
| Returned (cigar : list string)
| Threw (status : StatusType)
| Running.

Definition outcome_of (st : state) : outcome :=
  if forallb terminated (engines st) then
    match first_thrown (engines st) with
    | Some s => Threw s
    | None => Returned (cigar st)
    end
  else Running.

(** align_overlaps under the engine schedule [sched]: the sizes, then the
    engines launched on the shared cursor and run; the result is the state
    in which the schedule leaves them. *)
Definition align_overlaps (C : Collaborators) (o : oracle) (ovs : list Overlap)
           (qp tp : FastaParser) (num_alignment_engines : Z) (cigar : list string)
           (sched : list nat) : state :=
  let batch_size := batch_size_of o ovs num_alignment_engines in
  let '(max_query_size, max_target_size) := max_sizes ovs in
  run C ovs qp tp max_query_size max_target_size batch_size sched
      (init num_alignment_engines cigar).

End Alignment.

(** ** The sizing formula in the words of the specification *)

Module SizingSpec.
Import Alignment.

(** Maximum of [f] over the overlaps, 0 for the empty list. *)
Definition spec_max (f : Overlap -> Z) (ovs : list Overlap) : Z :=
  match ovs with
  | [] => 0
  | o :: rest => fold_left (fun m o' => Z.max m (f o')) rest (f o)
  end.

Definition query_len (o : Overlap) : Z :=
  query_end_position_in_read_ o - query_start_position_in_read_ o.

Definition target_len (o : Overlap) : Z :=
  target_end_position_in_read_ o - target_start_position_in_read_ o.

(** floor (0.85 * free / (k * max_query_len * max_target_len)) for the
    rational constant k = k_num / k_den. *)
Definition spec_max_alignments (k_num k_den free max_query_len max_target_len : Z) : Z :=
  (85 * free * k_den) / (100 * (k_num * max_query_len * max_target_len)).

(** min (total_overlaps, floor (...)) / num_engines, floor division. *)
Definition spec_batch_size (k_num k_den free : Z) (ovs : list Overlap) (num_engines : Z) : Z :=
  Z.min (get_size ovs)
        (spec_max_alignments k_num k_den free
           (spec_max query_len ovs) (spec_max target_len ovs))
  / num_engines.

(** 0.85 * free >= k * max_query_len * max_target_len *)
Definition memory_suffices (k_num k_den free max_query_len max_target_len : Z) : Prop :=
  85 * free * k_den >= 100 * (k_num * max_query_len * max_target_len).

(** Positions of an overlap are offsets with start <= end that fit the
    signed 32-bit lengths the driver computes. *)
Definition well_formed (o : Overlap) : Prop :=
  0 <= query_len o <= Int32.max_signed /\ 0 <= target_len o <= Int32.max_signed.
End SizingSpec.

(** ** The two thread-safe containers *)

(** Modelled from the spec: ThreadsafeProducerConsumer (declared in
    claragenomics/utils/threadsafe_containers.hpp, which is not part of the
    sources at hand).  add_new_element enqueues and never blocks;
    get_next_element blocks until an element is available or the "no more
    elements" signal has been posted, and then returns empty, a terminal
    condition; signal_pushed_last_element posts that signal. *)
Module ThreadsafeProducerConsumer.
(** Modelled from the spec: the state of a ThreadsafeProducerConsumer, the
    queued elements and whether "no more elements" has been posted. *)
Record queue (A : Type) := mkQueue {
  data : list A;
  no_more_elements : bool
}.
Arguments mkQueue {A}.
Arguments data {A}.
Arguments no_more_elements {A}.

(** Modelled from the spec: a freshly constructed ThreadsafeProducerConsumer. *)
Definition empty {A} : queue A := mkQueue [] false.

(** Modelled from the spec: ThreadsafeProducerConsumer::add_new_element,
    which enqueues at the back and never blocks the producer. *)
Definition add_new_element {A} (x : A) (q : queue A) : queue A :=
  mkQueue (data q ++ [x]) (no_more_elements q).

(** Modelled from the spec:
    ThreadsafeProducerConsumer::signal_pushed_last_element, which posts the
    "no more elements" signal. *)
Definition signal_pushed_last_element {A} (q : queue A) : queue A :=
  mkQueue (data q) true.

(** What a call of get_next_element does in a given state of the queue:
    it stays blocked, or returns an element, or returns empty. *)
Inductive get_result (A : Type) :=
| Blocked
| Element (x : A) (q' : queue A)
| NoMoreElements.
Arguments Blocked {A}.
Arguments Element {A}.
Arguments NoMoreElements {A}.

(** Modelled from the spec: ThreadsafeProducerConsumer::get_next_element,
    which returns the front element if there is one, returns empty if
    there is none and the signal has been posted, and blocks otherwise. *)
Definition get_next_element {A} (q : queue A) : get_result A :=
  match data q with
  | x :: rest => Element x (mkQueue rest (no_more_elements q))
  | [] => if no_more_elements q then NoMoreElements else Blocked
  end.

(** What the consumer sees of one call. *)
Inductive observation (A : Type) :=
| Received (x : A)
| ReceivedEmpty
| StillBlocked.
Arguments Received {A}.
Arguments ReceivedEmpty {A}.
Arguments StillBlocked {A}.

(** [consume k q]: what up to [k] successive calls of get_next_element by
    the single consumer show.  The consumer stops at the terminal empty
    result, and cannot go on past a call that blocks. *)
Fixpoint consume {A} (k : nat) (q : queue A) : list (observation A) :=
  match k with
  | O => []
  | S k' =>
      match get_next_element q with
      | Blocked => [StillBlocked]
      | NoMoreElements => [ReceivedEmpty]
      | Element x q' => Received x :: consume k' q'
      end
  end.

(** The producer pushes the elements of [xs] in order. *)
Definition push_all {A} (xs : list A) (q : queue A) : queue A :=
  fold_left (fun q x => add_new_element x q) xs q.
End ThreadsafeProducerConsumer.

(** Modelled from the spec: ThreadsafeDataProvider (same missing header),
    the global supply of batches.  get_next_element hands out the next
    batch, each batch to one caller only, and returns empty once the supply
    is exhausted. *)
Module ThreadsafeDataProvider.
(** Modelled from the spec: ThreadsafeDataProvider::get_next_element on the
    elements not yet handed out. *)
Definition get_next_element {A} (provider : list A) : option A * list A :=
  match provider with
  | [] => (None, [])
  | x :: rest => (Some x, rest)
  end.
End ThreadsafeDataProvider.

(** ** The per-device pipeline: worker, writer and main *)

Module Pipeline.
Import ThreadsafeProducerConsumer.

(** The pairs process_one_device_batch matches, overlaps and aligns, in the
    order of its two nested loops. *)
Definition process_one_device_batch_pairs (all_to_all : bool) (device_batch : IndexBatch)
  : list (IndexDescriptor * IndexDescriptor) :=
  flat_map
    (fun query_index_descriptor =>
       flat_map
         (fun target_index_descriptor =>
            if negb all_to_all
               || (first_read target_index_descriptor >=? first_read query_index_descriptor)
            then [(query_index_descriptor, target_index_descriptor)]
            else [])
         (target_indices device_batch))
    (query_indices device_batch).

(** process_one_batch: the device batches one by one. *)
Definition process_one_batch_pairs (all_to_all : bool) (batch : BatchOfIndices)
  : list (IndexDescriptor * IndexDescriptor) :=
  flat_map (process_one_device_batch_pairs all_to_all) (device_batches batch).

Inductive thread := MainThread | WorkerThread | WriterThread.

(** What is observed about one device, in the order it happens. *)
Inductive event :=
| Call (who : thread) (c : cuda_call)
| SpawnedWorker
| SpawnedWriter
| TookBatch (batch : BatchOfIndices)
| BatchesExhausted
| EngineThread (k : nat) (calls : list cuda_call)
| Pushed (descriptors : IndexDescriptor * IndexDescriptor) (x : OverlapsAndCigars)
| Signalled
| Wrote (x : OverlapsAndCigars) (text : list string)
| WriterSawEnd
| JoinedWriter
| JoinedWorker.

Inductive worker_pc :=
| WorkerEntry
| WorkerPop                     (* batches_of_indices.get_next_element() *)
| WorkerProcessing (todo : list (IndexDescriptor * IndexDescriptor))
| WorkerSignal
| WorkerJoin
| WorkerSync
| WorkerReturned
| WorkerTerminated (status : StatusType) (* exception left the thread function *)
| WorkerUndefined.              (* front() of an empty device_batches *)

Inductive writer_pc :=
| WriterNotStarted
| WriterEntry
| WriterWaiting                 (* in get_next_element() *)
| WriterReturned.

Record device := mkDevice {
  worker : worker_pc;
  writer : writer_pc;
  overlaps_and_cigars_to_write : queue OverlapsAndCigars;
  trace : list event
}.

Inductive main_pc :=
| MainSpawning (device_id : nat)
| MainJoining (device_id : nat)
| MainReturned.

Record system := mkSystem {
  batches_of_indices : list BatchOfIndices;
  main : main_pc;
  devices : list device;
  output : list (list string);   (* the shared sink, guarded by output_mutex *)
  aborted : bool                 (* std::terminate has been called *)
}.

(** Who moves next; a worker step that aligns also fixes what the
    environment contributes to that call of align_overlaps. *)
Inductive label :=
| LMain
| LWorker (d : nat) (o : Alignment.oracle) (sched : list nat)
| LWriter (d : nat).

Section Steps.
Context (C : Collaborators) (application_parameters : ApplicationParameters).

Definition emit (dev : device) (evs : list event) : device :=
  {| worker := worker dev; writer := writer dev;
     overlaps_and_cigars_to_write := overlaps_and_cigars_to_write dev;
     trace := trace dev ++ evs |}.

Definition set_worker (dev : device) (p : worker_pc) : device :=
  {| worker := p; writer := writer dev;
     overlaps_and_cigars_to_write := overlaps_and_cigars_to_write dev;
     trace := trace dev |}.

Definition set_writer (dev : device) (p : writer_pc) : device :=
  {| worker := worker dev; writer := p;
     overlaps_and_cigars_to_write := overlaps_and_cigars_to_write dev;
     trace := trace dev |}.

Definition set_queue (dev : device) (q : queue OverlapsAndCigars) : device :=
  {| worker := worker dev; writer := writer dev;
     overlaps_and_cigars_to_write := q;
     trace := trace dev |}.

(** The engine threads of one align_overlaps call, as events. *)
Definition engine_events (es : list Alignment.engine) : list event :=
  imap (fun k e => EngineThread k (Alignment.calls e)) es.

(** The body of the loops of process_one_device_batch for one pair.
    Returns the events, and the element pushed or the status thrown;
    [None] while the engines of align_overlaps have not all finished. *)
Definition process_pair (o : Alignment.oracle) (sched : list nat)
           (descriptors : IndexDescriptor * IndexDescriptor)
  : option (list event * (OverlapsAndCigars + StatusType)) :=
  let overlaps := get_overlaps C (fst descriptors) (snd descriptors) in
  if alignment_engines application_parameters >? 0 then
    let cigar := replicate (length overlaps) EmptyString in
    let final :=
      Alignment.align_overlaps C o overlaps (query_parser application_parameters)
                               (target_parser application_parameters)
                               (alignment_engines application_parameters) cigar sched in
    let evs := [Call WorkerThread matcher_and_overlapper; Call WorkerThread cudaMemGetInfo]
                 ++ engine_events (Alignment.engines final) in
    match Alignment.outcome_of final with
    | Alignment.Returned cigar' => Some (evs, inl (mkOverlapsAndCigars overlaps cigar'))
    | Alignment.Threw s => Some (evs, inr s)
    | Alignment.Running => None
    end
  else
    Some ([Call WorkerThread matcher_and_overlapper], inl (mkOverlapsAndCigars overlaps [])).

(** One step of worker_thread_function for device [d]. *)
Definition worker_step (d : nat) (o : Alignment.oracle) (sched : list nat)
           (dev : device) (batches : list BatchOfIndices)
  : option (device * list BatchOfIndices) :=
  match worker dev with
  | WorkerEntry =>
      Some (emit (set_writer (set_worker dev WorkerPop) WriterEntry)
                 [Call WorkerThread (cudaSetDevice (Z.of_nat d)); SpawnedWriter],
            batches)
  | WorkerPop =>
      match ThreadsafeDataProvider.get_next_element batches with
      | (None, batches') =>
          Some (emit (set_worker dev WorkerSignal) [BatchesExhausted], batches')
      | (Some batch, batches') =>
          match device_batches batch with
          | [] => Some (emit (set_worker dev WorkerUndefined) [TookBatch batch], batches')
          | _ :: _ =>
              Some (emit (set_worker dev
                            (WorkerProcessing
                               (process_one_batch_pairs (all_to_all application_parameters) batch)))
                         [TookBatch batch],
                    batches')
          end
      end
  | WorkerProcessing [] => Some (set_worker dev WorkerPop, batches)
  | WorkerProcessing (descriptors :: todo) =>
      match process_pair o sched descriptors with
      | None => None
      | Some (evs, inl x) =>
          Some (emit (set_queue (set_worker dev (WorkerProcessing todo))
                                (add_new_element x (overlaps_and_cigars_to_write dev)))
                     (evs ++ [Pushed descriptors x]),
                batches)
      | Some (evs, inr s) =>
          Some (emit (set_worker dev (WorkerTerminated s)) evs, batches)
      end
  | WorkerSignal =>
      Some (emit (set_queue (set_worker dev WorkerJoin)
                            (signal_pushed_last_element (overlaps_and_cigars_to_write dev)))
                 [Signalled],
            batches)
  | WorkerJoin =>
      match writer dev with
      | WriterReturned => Some (emit (set_worker dev WorkerSync) [JoinedWriter], batches)
      | _ => None
      end
  | WorkerSync =>
      Some (emit (set_worker dev WorkerReturned) [Call WorkerThread cudaStreamSynchronize],
            batches)
  | WorkerReturned | WorkerTerminated _ | WorkerUndefined => None
  end.

(** What the writer emits for one element of the queue. *)
Definition written_text (x : OverlapsAndCigars) : list string :=
  print_paf C (post_process_overlaps C (overlaps x)) (cigars x)
            (query_parser application_parameters)
            (query_parser application_parameters)
            (kmer_size application_parameters).

(** A [Wrote] event carries the text the writer prints for its element. *)
Definition wrote_as_printed (ev : event) : Prop :=
  match ev with
  | Wrote x text => text = written_text x
  | _ => True
  end.

(** One step of writer_thread_function for device [d]. *)
Definition writer_step (d : nat) (dev : device) (out : list (list string))
  : option (device * list (list string)) :=
  match writer dev with
  | WriterNotStarted | WriterReturned => None
  | WriterEntry =>
      Some (emit (set_writer dev WriterWaiting)
                 [Call WriterThread (cudaSetDevice (Z.of_nat d))], out)
  | WriterWaiting =>
      match get_next_element (overlaps_and_cigars_to_write dev) with
      | Blocked => None
      | Element x q' =>
          Some (emit (set_queue dev q') [Wrote x (written_text x)], out ++ [written_text x])
      | NoMoreElements => Some (emit (set_writer dev WriterReturned) [WriterSawEnd], out)
      end
  end.

Definition new_device (d : nat) : device :=
  {| worker := WorkerEntry;
     writer := WriterNotStarted;
     overlaps_and_cigars_to_write := empty;
     trace := [Call MainThread (cudaSetDevice (Z.of_nat d));
               Call MainThread cudaStreamCreate;
               SpawnedWorker] |}.

Definition is_terminated (p : worker_pc) : bool :=
  match p with WorkerTerminated _ => true | _ => false end.

(** One step of main, for num_devices >= 0.  For a negative num_devices
    the source throws std::length_error when it constructs
    std::vector<cudaStream_t> cuda_streams(num_devices), before the first
    loop test; that construction is no step here, so what is stated about
    main returning takes num_devices >= 0. *)
Definition main_step (s : system) : option system :=
  match main s with
  | MainSpawning d =>
      if Z.of_nat d <? num_devices application_parameters then
        Some {| batches_of_indices := batches_of_indices s;
                main := MainSpawning (S d);
                devices := devices s ++ [new_device d];
                output := output s;
                aborted := aborted s |}
      else
        Some {| batches_of_indices := batches_of_indices s;
                main := MainJoining 0;
                devices := devices s;
                output := output s;
                aborted := aborted s |}
  | MainJoining d =>
      if Z.of_nat d <? num_devices application_parameters then
        match devices s !! d with
        | Some dev =>
            match worker dev with
            | WorkerReturned =>
                Some {| batches_of_indices := batches_of_indices s;
                        main := MainJoining (S d);
                        devices :=
                          <[d := emit dev [Call MainThread (cudaSetDevice (Z.of_nat d));
                                           JoinedWorker;
                                           Call MainThread cudaStreamDestroy]]> (devices s);
                        output := output s;
                        aborted := aborted s |}
            | _ => None
            end
        | None => None
        end
      else
        Some {| batches_of_indices := batches_of_indices s;
                main := MainReturned;
                devices := devices s;
                output := output s;
                aborted := aborted s |}
  | MainReturned => None
  end.

(** One step of the whole process.  An exception that leaves a thread
    function ends the process (std::terminate): nothing moves afterwards. *)
Definition step (l : label) (s : system) : option system :=
  if aborted s then None
  else
    match l with
    | LMain => main_step s
    | LWorker d o sched =>
        match devices s !! d with
        | None => None
        | Some dev =>
            match worker_step d o sched dev (batches_of_indices s) with
            | None => None
            | Some (dev', batches') =>
                Some {| batches_of_indices := batches';
                        main := main s;
                        devices := <[d := dev']> (devices s);
                        output := output s;
                        aborted := is_terminated (worker dev') |}
            end
        end
    | LWriter d =>
        match devices s !! d with
        | None => None
        | Some dev =>
            match writer_step d dev (output s) with
            | None => None
            | Some (dev', out') =>
                Some {| batches_of_indices := batches_of_indices s;
                        main := main s;
                        devices := <[d := dev']> (devices s);
                        output := out';
                        aborted := aborted s |}
            end
        end
    end.

(** Run an execution; a label whose thread cannot move is skipped. *)
Definition run (ls : list label) (s : system) : system :=
  fold_left (fun s l => match step l s with Some s' => s' | None => s end) ls s.

Definition initial (batches : list BatchOfIndices) : system :=
  {| batches_of_indices := batches;
     main := MainSpawning 0;
     devices := [];
     output := [];
     aborted := false |}.
End Steps.

(** Calls issued by thread [who], in order. *)
Definition calls_of (who : thread) (tr : list event) : list cuda_call :=
  flat_map (fun ev =>
              match ev with
              | Call w c =>
                  match who, w with
                  | MainThread, MainThread | WorkerThread, WorkerThread
                  | WriterThread, WriterThread => [c]
                  | _, _ => []
                  end
              | _ => []
              end) tr.

(** Elements pushed to the queue, in order. *)
Definition pushed_of (tr : list event) : list OverlapsAndCigars :=
  flat_map (fun ev => match ev with Pushed _ x => [x] | _ => [] end) tr.

(** Pairs for which an element was pushed, in order. *)
Definition pairs_of (tr : list event) : list (IndexDescriptor * IndexDescriptor) :=
  flat_map (fun ev => match ev with Pushed p _ => [p] | _ => [] end) tr.

(** Batches the worker took from the global supply, in order. *)
Definition taken_of (tr : list event) : list BatchOfIndices :=
  flat_map (fun ev => match ev with TookBatch b => [b] | _ => [] end) tr.

(** Elements the writer received and wrote, in order. *)
Definition wrote_of (tr : list event) : list OverlapsAndCigars :=
  flat_map (fun ev => match ev with Wrote x _ => [x] | _ => [] end) tr.

(** The call sequences of the engine threads the worker launched. *)
Definition engine_threads_of (tr : list event) : list (list cuda_call) :=
  flat_map (fun ev => match ev with EngineThread _ calls => [calls] | _ => [] end) tr.

Definition is_signalled (ev : event) : bool :=
  match ev with Signalled => true | _ => false end.

(** signal_pushed_last_element has been called. *)
Definition signal_sent (tr : list event) : bool := existsb is_signalled tr.

(** The worker has posted the signal. *)
Definition has_signalled (p : worker_pc) : bool :=
  match p with
  | WorkerJoin | WorkerSync | WorkerReturned => true
  | _ => false
  end.

(** [precedes a b tr]: every occurrence of [b] in [tr] comes after an
    occurrence of [a]. *)
Definition precedes (a b : event) (tr : list event) : Prop :=
  forall pre post, tr = pre ++ b :: post -> In a pre.

End Pipeline.

(** ** Concrete inputs *)

Module Examples.
Import Alignment Pipeline.

(** An overlap of reads 0 and 1 starting at offset 0 of both. *)
Definition ov (query_len target_len : Z) : Overlap :=
  mkOverlap 0 1 0 query_len 0 target_len Forward 10.

Definition queries : FastaParser :=
  fun _ => mkFastaSequence "query_read" "ACGTACGTACGT".

Definition targets : FastaParser :=
  fun _ => mkFastaSequence "target_read" "TTGTACGTACCA".

(** One name per side and overlap: enough of a printer to see which parser
    each side was looked up in. *)
Definition print_names (ovs : list Overlap) (cigars : list string)
           (qp tp : FastaParser) (kmer_size : Z) : list string :=
  map (fun o => (name (qp (query_read_id_ o)) ++ " " ++ name (tp (target_read_id_ o)))%string)
      ovs.

(** Collaborators whose aligner accepts everything. *)
Definition accepting : Collaborators :=
  {| get_overlaps := fun _ _ => [ov 3 4; ov 2 2];
     add_alignment := fun _ _ _ => success;
     convert_to_cigar := fun q t _ => (q ++ "/" ++ t)%string;
     post_process_overlaps := fun l => l;
     print_paf := print_names |}.

(** Collaborators whose aligner rejects every submission. *)
Definition rejecting : Collaborators :=
  {| get_overlaps := fun _ _ => [ov 3 4; ov 2 2];
     add_alignment := fun _ _ _ => failure 3;
     convert_to_cigar := fun q t _ => (q ++ "/" ++ t)%string;
     post_process_overlaps := fun l => l;
     print_paf := print_names |}.

(** Two devices, one alignment engine, queries against other targets. *)
Definition parameters : ApplicationParameters :=
  {| all_to_all := false;
     alignment_engines := 1;
     num_devices := 2;
     kmer_size := 15;
     query_parser := queries;
     target_parser := targets |}.

Definition first_index : IndexDescriptor := mkIndexDescriptor 0 10.
Definition second_index : IndexDescriptor := mkIndexDescriptor 10 10.
Definition third_index : IndexDescriptor := mkIndexDescriptor 20 5.

Definition one_pair_batch : BatchOfIndices :=
  mkBatchOfIndices (mkIndexBatch [first_index] [second_index])
                   [mkIndexBatch [first_index] [second_index]].

Definition plenty : oracle := mkOracle 8000 0.

Definition worker1 : label := LWorker 1 plenty [0; 0; 0; 0; 0]%nat.
Definition worker0 : label := LWorker 0 plenty [0; 0; 0; 0; 0]%nat.

(** Both workers are spawned; the worker of device 1 takes the only batch
    and processes its pair, the writers run, everything is joined. *)
Definition full_execution : list label :=
  [LMain; LMain; LMain;
   worker1; worker1; worker1; worker1; worker1; worker1;
   LWriter 1; LWriter 1; LWriter 1;
   worker1; worker1;
   worker0; worker0; worker0; LWriter 0; LWriter 0; worker0; worker0;
   LMain; LMain; LMain].

(** The same start; the writer of device 1 is waiting in get_next_element
    when the worker reaches the pair. *)
Definition failing_execution : list label :=
  [LMain; LMain; LMain; worker1; LWriter 1; worker1; worker1].
End Examples.

(** ** Quantities observed on the engines and on the traces *)

Module Observations.
Import Alignment.

(** Alignments an engine has in its aligner: the length of the range it
    holds. *)
Definition held (e : engine) : Z :=
  match pc e with
  | EngineHolding idx_start idx_end => idx_end - idx_start
  | _ => 0
  end.

Definition total_held (es : list engine) : Z :=
  fold_right (fun e a => held e + a) 0 es.

(** The range the critical section yields at cursor [fst r], without
    wrap-around. *)
Definition exact_range (size batch_size : Z) (r : Z * Z) : Prop :=
  snd r = Z.min (fst r + batch_size) size.

Definition is_stream_create (c : cuda_call) : bool :=
  match c with cudaStreamCreate => true | _ => false end.

Definition is_stream_destroy (c : cuda_call) : bool :=
  match c with cudaStreamDestroy => true | _ => false end.

(** How often a call satisfying [f] occurs. *)
Definition count_calls (f : cuda_call -> bool) (calls : list cuda_call) : nat :=
  length (List.filter f calls).

(** The streams of an engine thread: none before it starts, one created
    and not destroyed while it runs or after it threw, one created and
    destroyed once it returned. *)
Definition stream_lifecycle (e : engine) : Prop :=
  match pc e with
  | EngineEntry => calls e = []
  | EngineReturned =>
      count_calls is_stream_create (calls e) = 1%nat /\
      count_calls is_stream_destroy (calls e) = 1%nat /\
      last (calls e) = Some cudaStreamDestroy
  | _ =>
      count_calls is_stream_create (calls e) = 1%nat /\
      count_calls is_stream_destroy (calls e) = 0%nat
  end.

(** The events of a device that follow the first signal of its worker. *)
Fixpoint after_signal (tr : list Pipeline.event) : option (list Pipeline.event) :=
  match tr with
  | [] => None
  | Pipeline.Signalled :: rest => Some rest
  | _ :: rest => after_signal rest
  end.

(** Batches taken, and elements written, by all devices. *)
Definition all_taken (devs : list Pipeline.device) : list BatchOfIndices :=
  flat_map (fun dev => Pipeline.taken_of (Pipeline.trace dev)) devs.

Definition all_pairs (devs : list Pipeline.device)
  : list (IndexDescriptor * IndexDescriptor) :=
  flat_map (fun dev => Pipeline.pairs_of (Pipeline.trace dev)) devs.

Definition all_pushed (devs : list Pipeline.device) : list OverlapsAndCigars :=
  flat_map (fun dev => Pipeline.pushed_of (Pipeline.trace dev)) devs.

Definition all_wrote (devs : list Pipeline.device) : list OverlapsAndCigars :=
  flat_map (fun dev => Pipeline.wrote_of (Pipeline.trace dev)) devs.



End Observations.

(** ** Properties of the number representations *)

Lemma to_int32_id x : Int32.in_range x -> Int32.to_int32 x = x.
Proof.
  unfold Int32.in_range, Int32.to_int32, Int32.modulus, Int32.min_signed, Int32.max_signed.
  intros H. rewrite Z.mod_small; lia.
Qed.

Lemma to_int32_range x : Int32.in_range (Int32.to_int32 x).
Proof.
  unfold Int32.in_range, Int32.to_int32, Int32.modulus, Int32.min_signed, Int32.max_signed.
  pose proof (Z.mod_pos_bound (x + 2 ^ 31) (2 ^ 32)). lia.
Qed.

(** 0.03f is the float nearest to 3/100. *)
Lemma lit_0_03_nearest :
  Float32.lit_0_03 = Float32.div (Float32.of_Z 3) (Float32.of_Z 100).
Proof. vm_compute. reflexivity. Qed.

Lemma to_size_t_nonneg (x : Float32.float) (v : Z) :
  Float32.to_size_t x = Some v -> 0 <= v.
Proof.
  unfold Float32.to_size_t. destruct x as [s|s| |s m e]; try discriminate.
  - intros H. injection H as <-. lia.
  - match goal with |- context [if ?c then _ else _] => destruct c eqn:E end; [|discriminate].
    intros H. injection H as <-. apply andb_true_iff in E as [E _]. lia.
Qed.

(** ** Properties of the sizing *)

Section SizingFacts.
Import Alignment SizingSpec.

Lemma max_sizes_fold (f g : Overlap -> Z) (ovs : list Overlap) (a b : Z) :
  fold_left
    (fun (acc : Z * Z) (o : Overlap) =>
       (if f o >? fst acc then f o else fst acc,
        if g o >? snd acc then g o else snd acc))
    ovs (a, b)
  = (fold_left (fun m o => Z.max m (f o)) ovs a,
     fold_left (fun m o => Z.max m (g o)) ovs b).
Proof.
  revert a b. induction ovs as [|o ovs IH]; intros a b; simpl; [reflexivity|].
  rewrite <- IH. f_equal. f_equal.
  - destruct (Z.gtb_spec (f o) a); lia.
  - destruct (Z.gtb_spec (g o) b); lia.
Qed.

Lemma fold_max_ge (f : Overlap -> Z) (ovs : list Overlap) (a : Z) :
  a <= fold_left (fun m o => Z.max m (f o)) ovs a.
Proof.
  revert a. induction ovs as [|o ovs IH]; intros a; simpl; [lia|].
  specialize (IH (Z.max a (f o))). lia.
Qed.

Lemma fold_max_absorb (f : Overlap -> Z) (ovs : list Overlap) (a b : Z) :
  a <= b ->
  fold_left (fun m o => Z.max m (f o)) ovs (Z.max a b)
  = fold_left (fun m o => Z.max m (f o)) ovs b.
Proof. intros H. rewrite Z.max_r by lia. reflexivity. Qed.

Lemma sizes_of_well_formed (o : Overlap) :
  well_formed o ->
  query_overlap_size o = query_len o /\ target_overlap_size o = target_len o.
Proof.
  intros [Hq Ht]. unfold query_overlap_size, target_overlap_size.
  split; apply to_int32_id; unfold Int32.in_range, Int32.min_signed;
    fold (query_len o); fold (target_len o); lia.
Qed.

Lemma fold_max_ext (f g : Overlap -> Z) (ovs : list Overlap) (a : Z) :
  Forall (fun o => f o = g o) ovs ->
  fold_left (fun m o => Z.max m (f o)) ovs a
  = fold_left (fun m o => Z.max m (g o)) ovs a.
Proof.
  intros H. revert a. induction H as [|o ovs Ho _ IH]; intros a; simpl; [reflexivity|].
  rewrite Ho. apply IH.
Qed.

(** The loop of align_overlaps computes the two maxima. *)
Lemma max_sizes_spec (ovs : list Overlap) :
  Forall well_formed ovs ->
  max_sizes ovs = (spec_max query_len ovs, spec_max target_len ovs).
Proof.
  intros Hwf. unfold max_sizes.
  rewrite (max_sizes_fold query_overlap_size target_overlap_size).
  assert (Hq : Forall (fun o => query_overlap_size o = query_len o) ovs).
  { eapply Forall_impl; [exact Hwf|]. intros o Ho. apply sizes_of_well_formed, Ho. }
  assert (Ht : Forall (fun o => target_overlap_size o = target_len o) ovs).
  { eapply Forall_impl; [exact Hwf|]. intros o Ho. apply sizes_of_well_formed, Ho. }
  rewrite (fold_max_ext _ _ _ _ Hq), (fold_max_ext _ _ _ _ Ht).
  destruct Hwf as [|o ovs [Ho1 Ho2] _]; [reflexivity|].
  simpl. rewrite !fold_max_absorb by lia. reflexivity.
Qed.

Lemma batch_size_unfold (o : oracle) (ovs : list Overlap) (e : Z) :
  batch_size_of o ovs e
  = Z.quot (Z.min (get_size ovs)
                  (Int32.to_int32 (max_alignments o (fst (max_sizes ovs)) (snd (max_sizes ovs)))))
           e.
Proof. unfold batch_size_of. destruct (max_sizes ovs); reflexivity. Qed.

(** Truncating division by a positive divisor yields at least 1 exactly
    when the dividend reaches the divisor, and 0 exactly on (-e, e). *)
Lemma quot_ge_1_iff (m e : Z) : 0 < e -> (1 <= Z.quot m e <-> e <= m).
Proof.
  intros He. split; intros H.
  - destruct (Z.lt_ge_cases m 0) as [Hm|Hm].
    + pose proof (Z.quot_opp_l m e ltac:(lia)) as Ho.
      assert (0 <= Z.quot (- m) e) by (apply Z.quot_pos; lia). lia.
    + pose proof (Z.quot_small m e). destruct (Z.lt_ge_cases m e); [|lia].
      rewrite Z.quot_small in H by lia. lia.
  - rewrite Z.quot_div_nonneg by lia.
    apply Z.div_le_lower_bound; lia.
Qed.

Lemma quot_eq_0_iff (m e : Z) : 0 < e -> (Z.quot m e = 0 <-> - e < m < e).
Proof.
  intros He. rewrite Z.quot_small_iff by lia.
  split; intros H; lia.
Qed.
End SizingFacts.

(** ** Properties of the engines of one align_overlaps call *)

Section RunAlignmentBatchFacts.
Import Alignment.

Context (C : Collaborators).
Context (ovs : list Overlap).
Context (qp tp : FastaParser).
Context (max_query_size max_target_size batch_size : Z).

Abbreviation step := (Alignment.step C ovs qp tp max_query_size max_target_size batch_size).
Abbreviation run := (Alignment.run C ovs qp tp max_query_size max_target_size batch_size).
Abbreviation claim_range := (Alignment.claim_range ovs batch_size).
Abbreviation add_alignments := (Alignment.add_alignments C qp tp).
Abbreviation alignment_of := (Alignment.alignment_of qp tp).
Abbreviation store_cigars := (Alignment.store_cigars C).
Abbreviation slice := (Alignment.slice ovs).
Abbreviation n := (get_size ovs).
Abbreviation sound_sizes := (Alignment.sound_sizes ovs batch_size).
Abbreviation steps_taken :=
  (Alignment.steps_taken C ovs qp tp max_query_size max_target_size batch_size).
Abbreviation tiling := (Alignment.tiling batch_size).
Abbreviation written := (Alignment.written C ovs qp tp).
Abbreviation aligned_cigars := (Alignment.aligned_cigars C ovs qp tp).

(** Case analysis of one step, by the program counter of the engine. *)
Ltac step_inv H :=
  let e := fresh "e" in
  let He := fresh "He" in
  let Hpc := fresh "Hpc" in
  unfold Alignment.step in H;
  destruct (engines _ !! _) as [e|] eqn:He; [|discriminate H];
  unfold Alignment.engine_step in H;
  destruct (pc e) as [| |held_start held_end| |thrown] eqn:Hpc;
  [ | destruct (Alignment.claim_range _ _ _) as [[? ?]|] eqn:Hclaim
    | destruct (Alignment.add_alignments _ _ _ _ _) as [[|?] ?] eqn:Hadd
    | discriminate H | discriminate H ];
  simpl in H; injection H as <-; simpl in *.

Lemma run_snoc (sched : list nat) (k : nat) (st : state) :
  run (sched ++ [k]) st
  = match step k (run sched st) with Some s' => s' | None => run sched st end.
Proof. unfold Alignment.run. rewrite fold_left_app. reflexivity. Qed.

Lemma run_app (s1 s2 : list nat) (st : state) :
  run (s1 ++ s2) st = run s2 (run s1 st).
Proof. unfold Alignment.run. apply fold_left_app. Qed.

(** Invariants of the step function hold after every schedule. *)
Lemma run_invariant (P : state -> Prop) :
  (forall k st st', P st -> step k st = Some st' -> P st') ->
  forall sched st, P st -> P (run sched st).
Proof.
  intros Hstep sched. induction sched as [|k sched IH]; intros st Hst; simpl; [exact Hst|].
  apply IH. destruct (step k st) as [st'|] eqn:E; [eauto|exact Hst].
Qed.

Lemma claim_range_none (idx : Z) : claim_range idx = None <-> idx = n.
Proof.
  unfold Alignment.claim_range. destruct (Z.eqb_spec idx n); split; intros H;
    try reflexivity; try discriminate; try contradiction; auto.
Qed.

Lemma claim_range_some (idx s t : Z) :
  claim_range idx = Some (s, t) ->
  idx <> n /\ s = idx /\ t = Z.min (Int32.to_int32 (idx + batch_size)) n.
Proof.
  unfold Alignment.claim_range. destruct (Z.eqb_spec idx n); [discriminate|].
  intros H. inversion H; subst. repeat split; congruence.
Qed.

Lemma engines_length_step k st st' :
  step k st = Some st' -> length (engines st') = length (engines st).
Proof. intros H. step_inv H; apply length_insert. Qed.

Lemma engines_length_run sched st : length (engines (run sched st)) = length (engines st).
Proof.
  apply (run_invariant (fun s => length (engines s) = length (engines st))); [|reflexivity].
  intros k s s' Hs Hk. rewrite <- Hs. eapply engines_length_step; eauto.
Qed.

(** A live engine can always move: there is no blocking besides the lock. *)
Lemma step_enabled k st e :
  engines st !! k = Some e -> terminated e = false -> step k st <> None.
Proof.
  intros He Ht. unfold Alignment.step, Alignment.engine_step. rewrite He.
  unfold terminated in Ht.
  destruct (pc e); try discriminate Ht.
  - discriminate.
  - destruct (Alignment.claim_range _ _ _) as [[? ?]|]; discriminate.
  - destruct (Alignment.add_alignments _ _ _ _ _) as [[|?] ?]; discriminate.
Qed.

(** *** batch_size = 0 on a non-empty overlap list *)

Definition spinning (st : state) : Prop :=
  overlap_idx st = 0 /\
  Forall (fun c => snd c = (0, 0)) (claimed st) /\
  Forall (fun e => pc e = EngineEntry \/ pc e = EngineClaim \/ pc e = EngineHolding 0 0)
         (engines st).

Lemma spinning_step k st st' :
  batch_size = 0 -> ovs <> [] -> spinning st -> step k st = Some st' -> spinning st'.
Proof.
  intros Hb Hne (Hidx & Hcl & Hes) H.
  assert (Hn : 0 < n) by (unfold get_size; destruct ovs; [contradiction|simpl; lia]).
  step_inv H.
  - repeat split; auto. apply Forall_insert; auto.
  - apply claim_range_some in Hclaim as (_ & -> & ->).
    rewrite Hidx.
    assert (E : Z.min (Int32.to_int32 (0 + batch_size)) n = 0).
    { rewrite Hb. simpl (0 + 0). rewrite to_int32_id by (unfold Int32.in_range, Int32.min_signed, Int32.max_signed; lia). lia. }
    rewrite E. repeat split; simpl.
    + apply Forall_app. split; [exact Hcl|]. constructor; [reflexivity|constructor].
    + apply Forall_insert; auto.
  - apply claim_range_none in Hclaim. lia.
  - repeat split; auto. apply Forall_insert; auto.
  - exfalso.
    pose proof (Forall_lookup_1 _ _ _ _ Hes He) as [Hp|[Hp|Hp]]; rewrite Hpc in Hp;
      try discriminate.
    inversion Hp; subst. unfold Alignment.slice in Hadd. simpl in Hadd. discriminate.
Qed.

Lemma spinning_init num_alignment_engines cigar0 :
  spinning (init num_alignment_engines cigar0).
Proof.
  repeat split; simpl; auto. apply Forall_forall. intros e He.
  apply elem_of_replicate in He as [-> _]. left. reflexivity.
Qed.

Lemma spinning_run num_alignment_engines cigar0 sched :
  batch_size = 0 -> ovs <> [] ->
  spinning (run sched (init num_alignment_engines cigar0)).
Proof.
  intros Hb Hne. apply run_invariant; [|apply spinning_init].
  intros k st st'. apply spinning_step; assumption.
Qed.

Lemma spinning_not_terminated st :
  spinning st -> Forall (fun e => terminated e = false) (engines st).
Proof.
  intros (_ & _ & H). eapply Forall_impl; [exact H|].
  intros e [Hp|[Hp|Hp]]; unfold terminated; rewrite Hp; reflexivity.
Qed.

Lemma forallb_false_of_Forall {A} (f : A -> bool) (l : list A) :
  l <> [] -> Forall (fun x => f x = false) l -> forallb f l = false.
Proof.
  intros Hne H. destruct H as [|x l Hx _]; [contradiction|]. simpl. rewrite Hx. reflexivity.
Qed.

(** With batch_size = 0 the call never completes, whatever the schedule. *)
Lemma spinning_outcome num_alignment_engines cigar0 sched :
  batch_size = 0 -> ovs <> [] -> 0 < num_alignment_engines ->
  outcome_of (run sched (init num_alignment_engines cigar0)) = Running.
Proof.
  intros Hb Hne He. unfold outcome_of.
  rewrite forallb_false_of_Forall; [reflexivity| |].
  - intros E. apply (f_equal length) in E. rewrite engines_length_run in E.
    simpl in E. rewrite length_replicate in E. simpl in E. lia.
  - apply spinning_not_terminated, spinning_run; assumption.
Qed.

(** *** batch_size >= 1 *)

Definition cursor_ok (st : state) : Prop :=
  0 <= overlap_idx st <= n /\
  (overlap_idx st = 0 \/ overlap_idx st = n \/ batch_size <= overlap_idx st).

Lemma claim_advances (idx s t : Z) :
  sound_sizes ->
  0 <= idx <= n -> (idx = 0 \/ idx = n \/ batch_size <= idx) ->
  claim_range idx = Some (s, t) ->
  s = idx /\ idx < t <= n /\ t - idx <= batch_size /\ (t = n \/ batch_size <= t).
Proof.
  intros [Hb Hn] Hr Hc H. apply claim_range_some in H as (Hne & -> & ->).
  assert (E : Int32.to_int32 (idx + batch_size) = idx + batch_size).
  { apply to_int32_id. unfold Int32.in_range, Int32.min_signed, Int32.max_signed in *.
    lia. }
  rewrite E. destruct Hb as [Hb _]. clear E Hn.
  assert (idx < n) by lia. lia.
Qed.

Lemma cursor_ok_step k st st' :
  sound_sizes -> cursor_ok st -> step k st = Some st' -> cursor_ok st'.
Proof.
  intros Hs [Hr Hc] H. step_inv H; try (split; assumption).
  destruct (claim_advances _ _ _ Hs Hr Hc Hclaim) as (-> & ? & ? & ?).
  split; simpl; lia.
Qed.

Definition weight (e : engine) : Z :=
  match pc e with
  | EngineEntry => 2
  | EngineClaim => 1
  | EngineHolding _ _ => 2
  | EngineReturned | EngineThrew _ => 0
  end.

Definition total_weight (es : list engine) : Z :=
  fold_right (fun e a => weight e + a) 0 es.

(** Twice the unclaimed part of the list plus what each engine still has to
    do before it next reaches the lock. *)
Definition measure (st : state) : Z :=
  2 * (n - overlap_idx st) + total_weight (engines st).

Lemma total_weight_nonneg es : 0 <= total_weight es.
Proof.
  induction es as [|e es IH]; simpl; [lia|].
  unfold weight at 1. destruct (pc e); lia.
Qed.

Lemma total_weight_insert es k e e' :
  es !! k = Some e ->
  total_weight (<[k := e']> es) = total_weight es - weight e + weight e'.
Proof.
  revert k. induction es as [|x es IH]; intros [|k] H; simpl in *; try discriminate.
  - injection H as ->. lia.
  - rewrite (IH _ H). lia.
Qed.

Lemma total_weight_replicate m e : total_weight (replicate m e) = Z.of_nat m * weight e.
Proof. induction m as [|m IH]; simpl replicate; simpl total_weight; [lia|]. rewrite IH. lia. Qed.

(** Every step strictly decreases the measure. *)
Lemma measure_step k st st' :
  sound_sizes -> cursor_ok st -> step k st = Some st' ->
  0 <= measure st' < measure st.
Proof.
  intros Hs [Hr Hc] H.
  assert (Hnn : forall s, 0 <= overlap_idx s <= n -> 0 <= measure s).
  { intros s Hs'. unfold measure. pose proof (total_weight_nonneg (engines s)). lia. }
  pose proof (cursor_ok_step _ _ _ Hs (conj Hr Hc) H) as [Hr' _].
  split; [apply Hnn, Hr'|]. clear Hr' Hnn.
  step_inv H; unfold measure; simpl;
    rewrite (total_weight_insert _ _ _ _ He); unfold weight; simpl; rewrite ?Hpc.
  all: try lia.
  destruct (claim_advances _ _ _ Hs Hr Hc Hclaim) as (-> & ? & ? & ?). lia.
Qed.

Lemma steps_bounded sched st :
  sound_sizes -> cursor_ok st -> Z.of_nat (steps_taken sched st) <= measure st.
Proof.
  intros Hs. revert st. induction sched as [|k sched IH]; intros st Hc; simpl.
  - pose proof (total_weight_nonneg (engines st)). destruct Hc as [? _]. unfold measure. lia.
  - destruct (step k st) as [st'|] eqn:E; [|apply IH, Hc].
    pose proof (measure_step _ _ _ Hs Hc E).
    pose proof (IH st' (cursor_ok_step _ _ _ Hs Hc E)). lia.
Qed.

Lemma forallb_false_lookup {A} (f : A -> bool) (l : list A) :
  forallb f l = false -> exists k x, l !! k = Some x /\ f x = false.
Proof.
  induction l as [|a l IH]; simpl; [discriminate|].
  destruct (f a) eqn:E; simpl.
  - intros H. destruct (IH H) as (k & x & Hk & Hx). exists (S k), x. auto.
  - intros _. exists 0%nat, a. auto.
Qed.

(** From every state all engines can be brought to termination. *)
Lemma completes_from (m : nat) :
  sound_sizes ->
  forall st, cursor_ok st -> measure st <= Z.of_nat m ->
  exists sched, forallb terminated (engines (run sched st)) = true.
Proof.
  intros Hs. induction m as [|m IH]; intros st Hc Hm.
  - destruct (forallb terminated (engines st)) eqn:E; [exists []; exact E|].
    apply forallb_false_lookup in E as (k & e & Hk & He).
    pose proof (step_enabled _ _ _ Hk He) as Hen.
    destruct (step k st) as [st'|] eqn:Est; [|contradiction].
    pose proof (measure_step _ _ _ Hs Hc Est). lia.
  - destruct (forallb terminated (engines st)) eqn:E; [exists []; exact E|].
    apply forallb_false_lookup in E as (k & e & Hk & He).
    pose proof (step_enabled _ _ _ Hk He) as Hen.
    destruct (step k st) as [st'|] eqn:Est; [|contradiction].
    pose proof (measure_step _ _ _ Hs Hc Est).
    destruct (IH st' (cursor_ok_step _ _ _ Hs Hc Est) ltac:(lia)) as [sched Hsched].
    exists (k :: sched). simpl. rewrite Est. exact Hsched.
Qed.

Lemma cursor_ok_init num_alignment_engines cigar0 :
  0 <= n -> cursor_ok (init num_alignment_engines cigar0).
Proof. intros H. split; simpl; [lia|auto]. Qed.

Lemma n_nonneg : 0 <= n.
Proof. unfold get_size. lia. Qed.

Lemma cursor_ok_run num_alignment_engines cigar0 sched :
  sound_sizes -> cursor_ok (run sched (init num_alignment_engines cigar0)).
Proof.
  intros Hs. apply run_invariant; [|apply cursor_ok_init, n_nonneg].
  intros k st st'. apply cursor_ok_step, Hs.
Qed.

Lemma measure_init num_alignment_engines cigar0 :
  0 <= num_alignment_engines ->
  measure (init num_alignment_engines cigar0) = 2 * n + 2 * num_alignment_engines.
Proof.
  intros H. unfold measure, init. simpl. rewrite total_weight_replicate.
  unfold weight. simpl. lia.
Qed.

(** *** What the claims cover and what the cigar vector holds *)

Lemma tiling_snoc a rs b c :
  tiling a rs b -> b < c -> c - b <= batch_size -> tiling a (rs ++ [(b, c)]) c.
Proof.
  induction 1 as [a|a b rs c' H1 H2 _ IH]; intros Hlt Hle; simpl.
  - constructor; [assumption|assumption|constructor].
  - constructor; auto.
Qed.

Lemma tiling_le a rs c : tiling a rs c -> a <= c.
Proof. induction 1; lia. Qed.

Lemma tiling_covering_outside a rs c i :
  tiling a rs c -> i < a -> covering i rs = [].
Proof.
  induction 1 as [a|a b rs c H1 H2 _ IH]; intros Hi; simpl; [reflexivity|].
  destruct (Z.leb_spec a i); [lia|]. simpl. apply IH. lia.
Qed.

(** Each index of [a, c) lies in exactly one range, no other index in any. *)
Lemma tiling_covering a rs c i :
  tiling a rs c ->
  length (covering i rs) = if (a <=? i) && (i <? c) then 1%nat else 0%nat.
Proof.
  induction 1 as [a|a b rs c H1 H2 Ht IH]; simpl.
  - destruct (Z.leb_spec a i), (Z.ltb_spec i a); simpl; try reflexivity; lia.
  - pose proof (tiling_le _ _ _ Ht).
    destruct (Z.leb_spec a i), (Z.ltb_spec i b); simpl.
    + rewrite (tiling_covering_outside _ _ _ _ Ht) by lia.
      destruct (Z.ltb_spec i c); [reflexivity|lia].
    + rewrite IH. destruct (Z.leb_spec b i); [|lia]. reflexivity.
    + rewrite IH. destruct (Z.leb_spec b i); [lia|]. reflexivity.
    + rewrite IH. destruct (Z.leb_spec b i); [lia|]. reflexivity.
Qed.

Lemma add_alignments_success todo batch als :
  add_alignments todo batch = (success, als) -> als = batch ++ map alignment_of todo.
Proof.
  revert batch. induction todo as [|o todo IH]; intros batch H; simpl in *.
  - injection H as <-. rewrite app_nil_r. reflexivity.
  - destruct (add_alignment C _ _ _); [|discriminate].
    rewrite (IH _ H), <- app_assoc. reflexivity.
Qed.

Lemma add_alignments_failure todo batch c als :
  add_alignments todo batch = (failure c, als) ->
  exists o, In o todo /\
    add_alignment C (al_query (alignment_of o)) (al_target (alignment_of o))
                  (al_reverse (alignment_of o)) = failure c.
Proof.
  revert batch. induction todo as [|o todo IH]; intros batch H; simpl in *; [discriminate|].
  destruct (add_alignment C _ _ _) eqn:E.
  - destruct (IH _ H) as (o' & Ho' & E'). exists o'. auto.
  - injection H as -> _. exists o. auto.
Qed.

Lemma store_cigars_length idx als cg : length (store_cigars idx als cg) = length cg.
Proof.
  revert idx cg. induction als as [|a als IH]; intros idx cg; simpl; [reflexivity|].
  rewrite IH. apply length_insert.
Qed.

Lemma store_cigars_other idx als cg (i : nat) :
  0 <= idx -> (i < Z.to_nat idx \/ Z.to_nat idx + length als <= i)%nat ->
  store_cigars idx als cg !! i = cg !! i.
Proof.
  revert idx cg. induction als as [|a als IH]; intros idx cg Hidx Hi; simpl; [reflexivity|].
  rewrite IH by (simpl in Hi; lia).
  apply list_lookup_insert_ne. simpl in Hi. lia.
Qed.

Lemma store_cigars_at idx als cg (j : nat) a :
  0 <= idx -> (Z.to_nat idx + length als <= length cg)%nat ->
  als !! j = Some a ->
  store_cigars idx als cg !! (Z.to_nat idx + j)%nat = Some (cigar_of C a).
Proof.
  revert idx cg j. induction als as [|x als IH]; intros idx cg j Hidx Hlen Hj; [discriminate|].
  simpl in *. destruct j as [|j]; simpl in Hj.
  - injection Hj as ->. rewrite store_cigars_other by lia.
    rewrite Nat.add_0_r. apply list_lookup_insert_eq. lia.
  - replace (Z.to_nat idx + S j)%nat with (Z.to_nat (idx + 1) + j)%nat by lia.
    apply IH; [lia| |exact Hj]. rewrite length_insert. lia.
Qed.

Lemma slice_length s t : 0 <= s -> s <= t -> t <= n -> length (slice s t) = Z.to_nat (t - s).
Proof.
  intros H1 H2 H3. unfold Alignment.slice, get_size in *.
  rewrite length_take, length_drop. lia.
Qed.

Lemma slice_lookup s t (j : nat) :
  0 <= s -> (j < Z.to_nat (t - s))%nat -> slice s t !! j = ovs !! (Z.to_nat s + j)%nat.
Proof.
  intros H1 H2. unfold Alignment.slice. rewrite lookup_take_lt by lia.
  apply lookup_drop.
Qed.

Lemma slice_In s t o : In o (slice s t) -> In o ovs.
Proof.
  unfold Alignment.slice. intros H.
  apply list_elem_of_In in H. apply list_elem_of_In.
  eapply subseteq_drop, subseteq_take, H.
Qed.

Lemma lookup_insert_cases (es : list engine) (k k' : nat) (e' x : engine) :
  <[k := e']> es !! k' = Some x ->
  (k' = k /\ x = e') \/ (k' <> k /\ es !! k' = Some x).
Proof.
  intros H. destruct (decide (k' = k)) as [->|Hne].
  - left. split; [reflexivity|].
    pose proof (lookup_lt_Some _ _ _ H) as Hlt. rewrite length_insert in Hlt.
    rewrite list_lookup_insert_eq in H by exact Hlt. congruence.
  - right. rewrite list_lookup_insert_ne in H by congruence. auto.
Qed.

Lemma pending_insert_idle es k e e' i :
  es !! k = Some e -> (pc e = EngineEntry \/ pc e = EngineClaim) ->
  pending es i -> pending (<[k := e']> es) i.
Proof.
  intros He Hpc [(k0 & e0 & s & t & H0 & Hp & Hi)|(k0 & e0 & c & H0 & Hp)];
    (assert (k0 <> k) by (intros ->; rewrite He in H0; injection H0 as <-;
                          destruct Hpc as [Hpc|Hpc]; rewrite Hpc in Hp; discriminate));
    [left; exists k0, e0, s, t|right; exists k0, e0, c];
    rewrite list_lookup_insert_ne by congruence; auto.
Qed.

Lemma pending_insert_threw es k e e' c i :
  es !! k = Some e -> pc e' = EngineThrew c -> pending (<[k := e']> es) i.
Proof.
  intros He Hp. right. exists k, e', c. split; [|exact Hp].
  apply list_lookup_insert_eq. eapply lookup_lt_Some, He.
Qed.

Lemma pending_insert_holding es k e e' s t i :
  es !! k = Some e -> pc e' = EngineHolding s t -> s <= Z.of_nat i < t ->
  pending (<[k := e']> es) i.
Proof.
  intros He Hp Hi. left. exists k, e', s, t. split; [|auto].
  apply list_lookup_insert_eq. eapply lookup_lt_Some, He.
Qed.

Lemma pending_release es k e e' s t i :
  es !! k = Some e -> pc e = EngineHolding s t -> pending es i ->
  s <= Z.of_nat i < t \/ pending (<[k := e']> es) i.
Proof.
  intros He Hpc [(k0 & e0 & s0 & t0 & H0 & Hp & Hi)|(k0 & e0 & c & H0 & Hp)].
  - destruct (decide (k0 = k)) as [->|Hne].
    + rewrite He in H0. injection H0 as <-. rewrite Hpc in Hp. injection Hp as <- <-. auto.
    + right. left. exists k0, e0, s0, t0. rewrite list_lookup_insert_ne by congruence. auto.
  - assert (k0 <> k) by (intros ->; rewrite He in H0; injection H0 as <-;
                         rewrite Hpc in Hp; discriminate).
    right. right. exists k0, e0, c. rewrite list_lookup_insert_ne by congruence. auto.
Qed.

Record inv (st : state) : Prop := mk_inv {
  inv_cursor : cursor_ok st;
  inv_tiling : tiling 0 (map snd (claimed st)) (overlap_idx st);
  inv_cigar_len : length (cigar st) = length ovs;
  inv_returned : forall k e,
    engines st !! k = Some e -> pc e = EngineReturned -> overlap_idx st = n;
  inv_holding : forall k e s t,
    engines st !! k = Some e -> pc e = EngineHolding s t ->
    0 <= s /\ s < t /\ t <= overlap_idx st;
  inv_written : forall i : nat,
    Z.of_nat i < overlap_idx st -> written (cigar st) i \/ pending (engines st) i
}.

Lemma inv_init num_alignment_engines cigar0 :
  length cigar0 = length ovs -> inv (init num_alignment_engines cigar0).
Proof.
  intros Hlen. split; simpl.
  - apply cursor_ok_init, n_nonneg.
  - constructor.
  - exact Hlen.
  - intros k e He Hp. apply lookup_replicate in He as [-> _]. discriminate.
  - intros k e s t He Hp. apply lookup_replicate in He as [-> _]. discriminate.
  - intros i Hi. lia.
Qed.

Lemma written_store s t cg (i : nat) :
  0 <= s -> s < t -> t <= n -> length cg = length ovs ->
  s <= Z.of_nat i < t ->
  written (store_cigars s (map alignment_of (slice s t)) cg) i.
Proof.
  intros H1 H2 H3 Hlen Hi.
  assert (Hj : (Z.to_nat s + (i - Z.to_nat s) = i)%nat) by lia.
  assert (Hlt : (i < length ovs)%nat) by (unfold get_size in H3; lia).
  destruct (lookup_lt_is_Some_2 ovs i Hlt) as [o Ho].
  exists o. split; [exact Ho|].
  rewrite <- Hj at 1. apply store_cigars_at; [lia| |].
  - rewrite length_map, slice_length by lia. unfold get_size in H3. lia.
  - rewrite list_lookup_fmap, slice_lookup by lia. rewrite Hj, Ho. reflexivity.
Qed.

Lemma written_kept s t cg (i : nat) :
  0 <= s -> s < t -> t <= n -> length cg = length ovs ->
  written cg i -> written (store_cigars s (map alignment_of (slice s t)) cg) i.
Proof.
  intros H1 H2 H3 Hlen Hw.
  destruct (Z.le_gt_cases s (Z.of_nat i)) as [Hle|Hlt];
    [destruct (Z.lt_ge_cases (Z.of_nat i) t) as [Hin|Hout]|].
  - apply written_store; auto.
  - destruct Hw as (o & Ho & Hc). exists o. split; [exact Ho|].
    rewrite store_cigars_other; [exact Hc|lia|].
    right. rewrite length_map, slice_length by lia. lia.
  - destruct Hw as (o & Ho & Hc). exists o. split; [exact Ho|].
    rewrite store_cigars_other; [exact Hc|lia|]. left. lia.
Qed.

Lemma inv_step k st st' :
  sound_sizes -> inv st -> step k st = Some st' -> inv st'.
Proof.
  intros Hs [Hcur Htil Hlen Hret Hhold Hwr] H.
  pose proof (cursor_ok_step _ _ _ Hs Hcur H) as Hcur'.
  destruct Hcur as [Hr Hc].
  step_inv H.
  - (* entry *)
    split; simpl; auto.
    + intros k' x Hx Hp. apply lookup_insert_cases in Hx as [[-> ->]|[_ Hx]]; [discriminate|eauto].
    + intros k' x s t Hx Hp. apply lookup_insert_cases in Hx as [[-> ->]|[_ Hx]]; [discriminate|eauto].
    + intros i Hi. destruct (Hwr i Hi) as [Hw|Hp]; [left; exact Hw|right].
      eapply pending_insert_idle; eauto.
  - (* claim of a range *)
    destruct (claim_advances _ _ _ Hs Hr Hc Hclaim) as (-> & Ht & Hsz & _).
    split; simpl; auto.
    + rewrite map_app. simpl. apply tiling_snoc; [exact Htil|lia|lia].
    + intros k' x Hx Hp. apply lookup_insert_cases in Hx as [[-> ->]|[_ Hx]]; [discriminate|].
      specialize (Hret _ _ Hx Hp). apply claim_range_some in Hclaim as [Hne _]. contradiction.
    + intros k' x s t Hx Hp. apply lookup_insert_cases in Hx as [[-> ->]|[_ Hx]].
      * simpl in Hp. injection Hp as <- <-. lia.
      * specialize (Hhold _ _ _ _ Hx Hp). lia.
    + intros i Hi. destruct (Z.lt_ge_cases (Z.of_nat i) (overlap_idx st)) as [Hlt|Hge].
      * destruct (Hwr i Hlt) as [Hw|Hp]; [left; exact Hw|right].
        eapply pending_insert_idle; eauto.
      * right. eapply pending_insert_holding; eauto; simpl; lia.
  - (* the list is exhausted *)
    apply claim_range_none in Hclaim.
    split; simpl; auto.
    + intros k' x s t Hx Hp. apply lookup_insert_cases in Hx as [[-> ->]|[_ Hx]]; [discriminate|eauto].
    + intros i Hi. destruct (Hwr i Hi) as [Hw|Hp]; [left; exact Hw|right].
      eapply pending_insert_idle; eauto.
  - (* a range aligned and stored *)
    apply add_alignments_success in Hadd. simpl in Hadd. subst l.
    destruct (Hhold _ _ _ _ He Hpc) as (Hs0 & Hst & Hti).
    split; simpl; auto.
    + rewrite store_cigars_length. exact Hlen.
    + intros k' x Hx Hp. apply lookup_insert_cases in Hx as [[-> ->]|[_ Hx]]; [discriminate|eauto].
    + intros k' x s t Hx Hp. apply lookup_insert_cases in Hx as [[-> ->]|[_ Hx]]; [discriminate|eauto].
    + intros i Hi. destruct (Hwr i Hi) as [Hw|Hp].
      * left. apply written_kept; auto; lia.
      * destruct (pending_release _ _ _
                    (log_call (set_pc e EngineClaim) (aligner_work held_start held_end)) _ _ _ He Hpc Hp)
          as [Hin|Hp'].
        -- left. apply written_store; auto; lia.
        -- right. exact Hp'.
  - (* a submission failed *)
    split; simpl; auto.
    + intros k' x Hx Hp. apply lookup_insert_cases in Hx as [[-> ->]|[_ Hx]]; [discriminate|eauto].
    + intros k' x s t Hx Hp. apply lookup_insert_cases in Hx as [[-> ->]|[_ Hx]]; [discriminate|eauto].
    + intros i Hi. right. eapply pending_insert_threw; eauto.
Qed.

Lemma inv_run num_alignment_engines cigar0 sched :
  sound_sizes -> length cigar0 = length ovs ->
  inv (run sched (init num_alignment_engines cigar0)).
Proof.
  intros Hs Hlen. apply run_invariant; [|apply inv_init, Hlen].
  intros k st st'. apply inv_step, Hs.
Qed.

Lemma all_returned es :
  forallb terminated es = true -> first_thrown es = None ->
  forall k e, es !! k = Some e -> pc e = EngineReturned.
Proof.
  induction es as [|x es IH]; intros Ht Hf k e He; [discriminate|].
  simpl in Ht, Hf. apply andb_true_iff in Ht as [Hx Ht].
  unfold terminated in Hx.
  destruct k as [|k]; simpl in He.
  - injection He as <-. destruct (pc x); try discriminate. reflexivity.
  - destruct (pc x); try discriminate; eapply IH; eauto.
Qed.

Lemma first_thrown_lookup es s :
  first_thrown es = Some s -> exists k e, es !! k = Some e /\ pc e = EngineThrew s.
Proof.
  induction es as [|x es IH]; simpl; [discriminate|].
  destruct (pc x) eqn:E;
    try (intros H; destruct (IH H) as (k & e & He & Hp); exists (S k), e; auto).
  intros H. injection H as <-. exists 0%nat, x. auto.
Qed.

Lemma returned_outcome st c :
  inv st -> engines st <> [] -> outcome_of st = Returned c ->
  overlap_idx st = n /\ c = aligned_cigars.
Proof.
  intros [Hcur Htil Hlen Hret Hhold Hwr] Hne H. unfold outcome_of in H.
  destruct (forallb terminated (engines st)) eqn:Ht; [|discriminate].
  destruct (first_thrown (engines st)) eqn:Hf; [discriminate|].
  injection H as <-.
  pose proof (all_returned _ Ht Hf) as Hall.
  assert (Hn : overlap_idx st = n).
  { destruct (engines st) as [|e es] eqn:E; [contradiction|].
    apply (Hret 0%nat e); [reflexivity|]. apply (Hall 0%nat). reflexivity. }
  split; [exact Hn|].
  apply list_eq. intros i. unfold aligned_cigars. rewrite list_lookup_fmap.
  destruct (Nat.lt_ge_cases i (length ovs)) as [Hi|Hi].
  - destruct (Hwr i) as [(o & Ho & Hc)|Hp].
    + rewrite Hn. unfold get_size. lia.
    + rewrite Hc, Ho. reflexivity.
    + exfalso. destruct Hp as [(k & e & s & t & He & Hp & _)|(k & e & c & He & Hp)];
        rewrite (Hall _ _ He) in Hp; discriminate.
  - rewrite (lookup_ge_None_2 ovs i) by lia.
    rewrite (lookup_ge_None_2 (cigar st) i) by lia. reflexivity.
Qed.

(** The only status an engine ever throws is one add_alignment returned
    for an overlap of the list. *)
Definition thrown_by_submission (st : state) : Prop :=
  forall k e s, engines st !! k = Some e -> pc e = EngineThrew s ->
    s <> success /\
    exists o, In o ovs /\
      add_alignment C (al_query (alignment_of o)) (al_target (alignment_of o))
                    (al_reverse (alignment_of o)) = s.

Lemma thrown_by_submission_step k st st' :
  thrown_by_submission st -> step k st = Some st' -> thrown_by_submission st'.
Proof.
  intros Hinv H. step_inv H; intros k' x s Hx Hp;
    apply lookup_insert_cases in Hx as [[-> ->]|[_ Hx]]; try discriminate; eauto.
  simpl in Hp. injection Hp as <-. split; [discriminate|].
  apply add_alignments_failure in Hadd as (o & Ho & E).
  exists o. split; [eapply slice_In, Ho|exact E].
Qed.

Lemma thrown_by_submission_run num_alignment_engines cigar0 sched :
  thrown_by_submission (run sched (init num_alignment_engines cigar0)).
Proof.
  apply run_invariant; [intros k st st'; apply thrown_by_submission_step|].
  intros k e s He Hp. apply lookup_replicate in He as [-> _]. discriminate.
Qed.

(** *** The calls of an engine thread *)

Definition engine_calls_ok (e : engine) : Prop :=
  match pc e with
  | EngineEntry => calls e = []
  | _ =>
      exists rest,
        calls e = cudaGetDevice :: cudaStreamCreate
                    :: create_aligner max_query_size max_target_size batch_size default_device
                    :: rest /\
        existsb is_set_device rest = false
  end.

Lemma engine_calls_ok_step k st st' :
  Forall engine_calls_ok (engines st) -> step k st = Some st' ->
  Forall engine_calls_ok (engines st').
Proof.
  intros Hall H.
  assert (Hk : forall e, engines st !! k = Some e -> engine_calls_ok e)
    by (intros e He; eapply Forall_lookup_1; eauto).
  step_inv H; apply Forall_insert; try exact Hall; specialize (Hk _ eq_refl);
    unfold engine_calls_ok in *; rewrite Hpc in Hk; simpl.
  - exists []. auto.
  - exact Hk.
  - destruct Hk as (rest & -> & Hr). exists (rest ++ [cudaStreamDestroy]).
    split; [reflexivity|]. rewrite existsb_app, Hr. reflexivity.
  - destruct Hk as (rest & -> & Hr). exists (rest ++ [aligner_work held_start held_end]).
    split; [reflexivity|]. rewrite existsb_app, Hr. reflexivity.
  - exact Hk.
Qed.

Lemma engine_calls_run num_alignment_engines cigar0 sched :
  Forall engine_calls_ok (engines (run sched (init num_alignment_engines cigar0))).
Proof.
  apply (run_invariant (fun st => Forall engine_calls_ok (engines st))).
  - intros k st st'. apply engine_calls_ok_step.
  - apply Forall_forall. intros e He. apply elem_of_replicate in He as [-> _]. reflexivity.
Qed.

(** An engine thread that has started is pinned to no device. *)
Lemma engine_not_pinned (e : engine) (d : Z) :
  engine_calls_ok e ->
  pc e = EngineEntry \/
  (existsb is_set_device (calls e) = false /\
   pinned_before_device_calls d (calls e) = false).
Proof.
  unfold engine_calls_ok. destruct (pc e); auto;
    intros (rest & -> & Hr); right; simpl; rewrite Hr; auto.
Qed.
End RunAlignmentBatchFacts.

(** ** Properties of the pipeline *)

Section PipelineFacts.
Import ThreadsafeProducerConsumer Pipeline.

Context (C : Collaborators) (P : ApplicationParameters).

Abbreviation worker_step := (Pipeline.worker_step C P).
Abbreviation writer_step := (Pipeline.writer_step C P).
Abbreviation main_step := (Pipeline.main_step P).
Abbreviation sys_step := (Pipeline.step C P).
Abbreviation sys_run := (Pipeline.run C P).
Abbreviation batch_pairs := (process_one_batch_pairs (all_to_all P)).
Abbreviation wrote_as_printed := (Pipeline.wrote_as_printed C P).

(** Events of a worker step that only record device work. *)
Definition silent (ev : event) : bool :=
  match ev with
  | Call WorkerThread matcher_and_overlapper
  | Call WorkerThread cudaMemGetInfo
  | EngineThread _ _ => true
  | _ => false
  end.

Lemma imap_silent (g : nat -> Alignment.engine -> event) es :
  (forall k e, silent (g k e) = true) -> forallb silent (imap g es) = true.
Proof.
  revert g. induction es as [|e es IH]; intros g Hg; [reflexivity|].
  simpl. rewrite Hg. apply IH. intros k e'. apply Hg.
Qed.

Lemma engine_events_silent es : forallb silent (engine_events es) = true.
Proof. apply imap_silent. reflexivity. Qed.

Lemma process_pair_silent o sched p evs r :
  process_pair C P o sched p = Some (evs, r) -> forallb silent evs = true.
Proof.
  unfold process_pair. destruct (alignment_engines P >? 0).
  - destruct (Alignment.outcome_of _); intros H; inversion H; subst; simpl;
      apply engine_events_silent.
  - intros H. inversion H. reflexivity.
Qed.

Lemma flat_map_silent {A} (f : event -> list A) evs :
  (forall ev, silent ev = true -> f ev = []) ->
  forallb silent evs = true -> flat_map f evs = [].
Proof.
  intros Hf. induction evs as [|ev evs IH]; simpl; [reflexivity|].
  intros H. apply andb_true_iff in H as [H1 H2]. rewrite (Hf _ H1), IH by exact H2. reflexivity.
Qed.

Lemma silent_not_In ev evs :
  silent ev = false -> forallb silent evs = true -> ~ In ev evs.
Proof.
  intros Hev H Hin. rewrite forallb_forall in H. rewrite (H _ Hin) in Hev. discriminate.
Qed.

Lemma signal_sent_app tr evs : signal_sent (tr ++ evs) = signal_sent tr || signal_sent evs.
Proof. apply existsb_app. Qed.

Lemma signal_sent_silent evs : forallb silent evs = true -> signal_sent evs = false.
Proof.
  induction evs as [|ev evs IH]; simpl; [reflexivity|].
  intros H. apply andb_true_iff in H as [H1 H2]. rewrite (IH H2).
  destruct ev; try discriminate; reflexivity.
Qed.

Lemma signal_sent_In tr : signal_sent tr = true <-> In Signalled tr.
Proof.
  unfold signal_sent. rewrite existsb_exists. split.
  - intros (ev & Hin & Hev). destruct ev; try discriminate. exact Hin.
  - intros H. exists Signalled. auto.
Qed.

Lemma app_eq_cons_split {A} (tr evs pre post : list A) (b : A) :
  tr ++ evs = pre ++ b :: post ->
  (exists post', tr = pre ++ b :: post') \/
  (exists pre', pre = tr ++ pre' /\ evs = pre' ++ b :: post).
Proof.
  revert pre. induction tr as [|x tr IH]; intros pre H; simpl in *.
  - right. exists pre. auto.
  - destruct pre as [|y pre]; simpl in H.
    + left. injection H as -> H. exists tr. reflexivity.
    + injection H as -> H. destruct (IH _ H) as [[post' ->]|(pre' & -> & ->)].
      * left. exists post'. reflexivity.
      * right. exists pre'. auto.
Qed.

Lemma precedes_nil a b : precedes a b [].
Proof. intros pre post H. destruct pre; discriminate. Qed.

Lemma precedes_app_absent a b tr evs :
  precedes a b tr -> ~ In b evs -> precedes a b (tr ++ evs).
Proof.
  intros Hp Hn pre post H. apply app_eq_cons_split in H as [[post' ->]|(pre' & -> & ->)].
  - eapply Hp. reflexivity.
  - exfalso. apply Hn. apply in_or_app. right. left. reflexivity.
Qed.

Lemma precedes_app_after a b tr evs :
  precedes a b tr -> In a tr -> precedes a b (tr ++ evs).
Proof.
  intros Hp Ha pre post H. apply app_eq_cons_split in H as [[post' ->]|(pre' & -> & ->)].
  - eapply Hp. reflexivity.
  - apply in_or_app. left. exact Ha.
Qed.


Lemma sys_run_invariant (Q : system -> Prop) :
  (forall l s s', Q s -> sys_step l s = Some s' -> Q s') ->
  forall ls s, Q s -> Q (sys_run ls s).
Proof.
  intros Hstep ls. induction ls as [|l ls IH]; intros s Hs; simpl; [exact Hs|].
  apply IH. destruct (sys_step l s) as [s'|] eqn:E; [eauto|exact Hs].
Qed.

(** The supply of batches only shrinks; once empty it stays empty. *)
Lemma worker_step_batches d o sched dev bs dev' bs' :
  worker_step d o sched dev bs = Some (dev', bs') -> bs = [] -> bs' = [].
Proof.
  unfold Pipeline.worker_step. intros H ->.
  destruct (worker dev) as [| |[|p todo]| | | | | |]; simpl in H;
    try (injection H as _ <-; reflexivity); try discriminate.
  - destruct (process_pair C P o sched p) as [[evs [x|s]]|];
      try discriminate; injection H as _ <-; reflexivity.
  - destruct (writer dev); try discriminate; injection H as _ <-; reflexivity.
Qed.

(** Lifting of a per-device invariant to every reachable state. *)
Lemma devices_invariant (Q : list BatchOfIndices -> device -> Prop) :
  (forall bs d, Q bs (new_device d)) ->
  (forall bs bs' dev, Q bs dev -> (bs = [] -> bs' = []) -> Q bs' dev) ->
  (forall d o sched dev bs dev' bs',
      Q bs dev -> worker_step d o sched dev bs = Some (dev', bs') -> Q bs' dev') ->
  (forall d dev bs out dev' out',
      Q bs dev -> writer_step d dev out = Some (dev', out') -> Q bs dev') ->
  (forall d dev bs,
      Q bs dev -> worker dev = WorkerReturned ->
      Q bs (emit dev [Call MainThread (cudaSetDevice (Z.of_nat d));
                      JoinedWorker;
                      Call MainThread cudaStreamDestroy])) ->
  forall ls batches,
    Forall (Q (batches_of_indices (sys_run ls (initial batches))))
           (devices (sys_run ls (initial batches))).
Proof.
  intros Hnew Hmono Hworker Hwriter Hmain ls batches.
  apply (sys_run_invariant (fun s => Forall (Q (batches_of_indices s)) (devices s)));
    [|constructor].
  clear ls batches. intros l s s' Hs H. unfold Pipeline.step in H.
  destruct (aborted s); [discriminate|].
  destruct l as [|d o sched|d].
  - unfold Pipeline.main_step in H. destruct (main s) as [d|d|]; [| |discriminate].
    + destruct (Z.of_nat d <? num_devices P); injection H as <-; simpl; auto.
      apply Forall_app. split; [exact Hs|]. constructor; [apply Hnew|constructor].
    + destruct (Z.of_nat d <? num_devices P); [|injection H as <-; exact Hs].
      destruct (devices s !! d) as [dev|] eqn:Hd; [|discriminate].
      destruct (worker dev) eqn:Hw; try discriminate.
      injection H as <-. simpl. apply Forall_insert; [exact Hs|].
      apply Hmain; [|exact Hw]. eapply Forall_lookup_1; eauto.
  - destruct (devices s !! d) as [dev|] eqn:Hd; [|discriminate].
    destruct (worker_step d o sched dev (batches_of_indices s)) as [[dev' bs']|] eqn:Hw;
      [|discriminate].
    injection H as <-. simpl.
    apply Forall_insert.
    + eapply Forall_impl; [exact Hs|]. intros x Hx. apply (Hmono _ _ _ Hx).
      eapply worker_step_batches, Hw.
    + eapply Hworker; [|exact Hw]. eapply Forall_lookup_1; eauto.
  - destruct (devices s !! d) as [dev|] eqn:Hd; [|discriminate].
    destruct (writer_step d dev (output s)) as [[dev' out']|] eqn:Hw; [|discriminate].
    injection H as <-. simpl.
    apply Forall_insert; [exact Hs|].
    eapply Hwriter; [|exact Hw]. eapply Forall_lookup_1; eauto.
Qed.


Lemma precedes_absent a b tr : ~ In b tr -> precedes a b tr.
Proof. intros H. apply (precedes_app_absent a b [] tr); [apply precedes_nil|exact H]. Qed.

Lemma pairs_of_silent evs : forallb silent evs = true -> pairs_of evs = [].
Proof.
  apply flat_map_silent. intros ev H. destruct ev; try discriminate; reflexivity.
Qed.

Lemma pushed_of_silent evs : forallb silent evs = true -> pushed_of evs = [].
Proof.
  apply flat_map_silent. intros ev H. destruct ev; try discriminate; reflexivity.
Qed.

Lemma taken_of_silent evs : forallb silent evs = true -> taken_of evs = [].
Proof.
  apply flat_map_silent. intros ev H. destruct ev; try discriminate; reflexivity.
Qed.

Lemma wrote_of_silent evs : forallb silent evs = true -> wrote_of evs = [].
Proof.
  apply flat_map_silent. intros ev H. destruct ev; try discriminate; reflexivity.
Qed.

Lemma pairs_of_app t1 t2 : pairs_of (t1 ++ t2) = pairs_of t1 ++ pairs_of t2.
Proof. apply flat_map_app. Qed.
Lemma pushed_of_app t1 t2 : pushed_of (t1 ++ t2) = pushed_of t1 ++ pushed_of t2.
Proof. apply flat_map_app. Qed.
Lemma taken_of_app t1 t2 : taken_of (t1 ++ t2) = taken_of t1 ++ taken_of t2.
Proof. apply flat_map_app. Qed.
Lemma wrote_of_app t1 t2 : wrote_of (t1 ++ t2) = wrote_of t1 ++ wrote_of t2.
Proof. apply flat_map_app. Qed.

(** Where the worker stands with respect to its loop. *)
Definition past_loop (p : worker_pc) : bool :=
  match p with
  | WorkerSignal | WorkerJoin | WorkerSync | WorkerReturned => true
  | _ => false
  end.

Definition has_joined (p : worker_pc) : bool :=
  match p with
  | WorkerSync | WorkerReturned => true
  | _ => false
  end.

Definition todo_of (p : worker_pc) : list (IndexDescriptor * IndexDescriptor) :=
  match p with
  | WorkerProcessing todo => todo
  | _ => []
  end.

Definition stream_sync : event := Call WorkerThread cudaStreamSynchronize.
Definition stream_destroy : event := Call MainThread cudaStreamDestroy.

(** What holds of a device in every reachable state, given the batches
    still in the global supply. *)
Record device_inv (bs : list BatchOfIndices) (dev : device) : Prop := mk_device_inv {
  di_exhausted :
    past_loop (worker dev) = true -> bs = [] /\ In BatchesExhausted (trace dev);
  di_pairs :
    is_terminated (worker dev) = false ->
    pairs_of (trace dev) ++ todo_of (worker dev)
    = flat_map batch_pairs (taken_of (trace dev));
  di_signal : signal_sent (trace dev) = has_signalled (worker dev);
  di_flag : no_more_elements (overlaps_and_cigars_to_write dev) = signal_sent (trace dev);
  di_fifo :
    wrote_of (trace dev) ++ data (overlaps_and_cigars_to_write dev) = pushed_of (trace dev);
  di_writer_done :
    writer dev = WriterReturned ->
    data (overlaps_and_cigars_to_write dev) = [] /\
    has_signalled (worker dev) = true /\
    In WriterSawEnd (trace dev);
  di_joined :
    has_joined (worker dev) = true ->
    In JoinedWriter (trace dev) /\ writer dev = WriterReturned;
  di_p0 : precedes BatchesExhausted Signalled (trace dev);
  di_p1 : precedes Signalled JoinedWriter (trace dev);
  di_p2 : precedes JoinedWriter stream_sync (trace dev);
  di_p3 : precedes JoinedWriter stream_destroy (trace dev);
  di_p4 : precedes WriterSawEnd JoinedWriter (trace dev)
}.

Lemma device_inv_new bs d : device_inv bs (new_device d).
Proof.
  split; simpl; try discriminate; try reflexivity;
    apply precedes_absent; simpl; intros [H|[H|[H|[]]]]; discriminate.
Qed.

Lemma device_inv_mono bs bs' dev :
  device_inv bs dev -> (bs = [] -> bs' = []) -> device_inv bs' dev.
Proof.
  intros [] Hb. split; auto.
  intros H. destruct (di_exhausted0 H) as [-> ?]. auto.
Qed.

Ltac absent :=
  simpl; intros Hin;
  repeat (destruct Hin as [Hin|Hin]; [discriminate Hin|]); try contradiction.

Ltac trace_app :=
  rewrite ?pairs_of_app, ?pushed_of_app, ?taken_of_app, ?wrote_of_app, ?signal_sent_app;
  simpl; rewrite ?app_nil_r, ?orb_false_r, ?orb_true_r.

Ltac in_trace := apply in_or_app; simpl; auto.

(** Obligations that only carry a fact over to the extended trace. *)
Ltac use_premise Hyp Hp K :=
  assert (K := Hyp); first [specialize (K Hp) | specialize (K eq_refl)].

Ltac carry :=
  first
    [ solve [auto]
    | solve [discriminate]
    | solve [apply precedes_app_absent; [assumption|absent]]
    | solve [let Hp := fresh in let K := fresh in
             intros Hp;
             match goal with
             | Hwd : _ -> _ = [] /\ _ /\ In WriterSawEnd _ |- _ = [] /\ _ =>
                 use_premise Hwd Hp K;
                 destruct K as (? & Hf & ?);
                 first [discriminate Hf | repeat split; auto; in_trace]
             end]
    | solve [let Hp := fresh in let K := fresh in
             intros Hp;
             match goal with
             | Hex : _ -> _ = [] /\ In BatchesExhausted _ |- _ = [] /\ _ =>
                 use_premise Hex Hp K;
                 destruct K as [? ?]; split; [assumption|in_trace]
             end]
    | solve [let Hp := fresh in let K := fresh in
             intros Hp;
             match goal with
             | Hj : _ -> In JoinedWriter _ /\ _ |- In JoinedWriter _ /\ _ =>
                 use_premise Hj Hp K;
                 destruct K as [? ?];
                 first [discriminate | congruence | split; [in_trace|assumption]]
             end] ].

Lemma device_inv_worker d o sched dev bs dev' bs' :
  device_inv bs dev -> worker_step d o sched dev bs = Some (dev', bs') ->
  device_inv bs' dev'.
Proof.
  intros [Hex Hpairs Hsig Hflag Hfifo Hwd Hj P0 P1 P2 P3 P4] H.
  unfold Pipeline.worker_step in H.
  destruct (worker dev) as [| |[|p todo]| | | | | |] eqn:Hpc; simpl in *;
    try discriminate H; rewrite ?app_nil_r in Hpairs.
  - (* entry *)
    injection H as <- <-. split; simpl; trace_app; try carry.
  - (* pop *)
    destruct bs as [|b bs0]; simpl in H.
    + injection H as <- <-. split; simpl; trace_app; try carry.
      intros _. split; [reflexivity|in_trace].
    + destruct (device_batches b) eqn:Hdb; injection H as <- <-;
        split; simpl; trace_app; try carry.
      * intros _. rewrite flat_map_app. simpl. rewrite app_nil_r.
        rewrite (Hpairs eq_refl).
        (* an empty device_batches contributes no pair *)
        unfold process_one_batch_pairs. rewrite Hdb. simpl. rewrite app_nil_r. reflexivity.
      * intros _. rewrite flat_map_app. simpl. rewrite app_nil_r.
        rewrite (Hpairs eq_refl). reflexivity.
  - (* end of a batch *)
    injection H as <- <-. split; simpl; rewrite ?app_nil_r; try carry.
  - (* one pair *)
    destruct (process_pair C P o sched p) as [[evs [x|s]]|] eqn:Hpp; [| |discriminate];
      pose proof (process_pair_silent _ _ _ _ _ Hpp) as Hsil;
      injection H as <- <-; split; simpl; trace_app;
      rewrite ?(pairs_of_silent _ Hsil), ?(pushed_of_silent _ Hsil),
              ?(taken_of_silent _ Hsil), ?(wrote_of_silent _ Hsil),
              ?(signal_sent_silent _ Hsil);
      simpl; rewrite ?app_nil_r, ?orb_false_r; try carry.
    all: try (apply precedes_app_absent; [assumption|];
              intros Hin; apply in_app_or in Hin as [Hin|Hin];
              [revert Hin; apply silent_not_In; [reflexivity|exact Hsil]
              |revert Hin; absent]).
    all: try (apply precedes_app_absent; [assumption|];
              apply silent_not_In; [reflexivity|exact Hsil]).
    + intros _. rewrite <- (Hpairs eq_refl), <- app_assoc. reflexivity.
    + rewrite <- Hfifo, <- app_assoc. reflexivity.
  - (* signal *)
    injection H as <- <-. split; simpl; trace_app; try carry.
    apply precedes_app_after; [assumption|]. apply (Hex eq_refl).
  - (* join *)
    destruct (writer dev) eqn:Hwr; try discriminate.
    injection H as <- <-. split; simpl; trace_app; try carry.
    + intros _. split; [in_trace|exact Hwr].
    + apply precedes_app_after; [assumption|]. apply signal_sent_In. rewrite Hsig. reflexivity.
    + apply precedes_app_after; [assumption|]. apply (Hwd eq_refl).
  - (* synchronize *)
    injection H as <- <-. split; simpl; trace_app; try carry.
    apply precedes_app_after; [assumption|]. apply (Hj eq_refl).
Qed.

Lemma device_inv_writer d dev bs out dev' out' :
  device_inv bs dev -> writer_step d dev out = Some (dev', out') -> device_inv bs dev'.
Proof.
  intros [Hex Hpairs Hsig Hflag Hfifo Hwd Hj P0 P1 P2 P3 P4] H.
  unfold Pipeline.writer_step in H.
  destruct (writer dev) eqn:Hwr; try discriminate H.
  - (* entry *)
    injection H as <- <-. split; simpl; trace_app; try carry.
  - (* in get_next_element *)
    unfold get_next_element in H.
    destruct (data (overlaps_and_cigars_to_write dev)) as [|x rest] eqn:Hdata.
    + destruct (no_more_elements (overlaps_and_cigars_to_write dev)) eqn:Hno;
        [|discriminate].
      injection H as <- <-. split; simpl; trace_app; rewrite ?Hdata, ?Hno; try carry.
      intros _. repeat split; [|in_trace]. rewrite <- Hsig, <- Hflag. reflexivity.
    + injection H as <- <-. split; simpl; trace_app; rewrite ?Hwr; try carry.
      rewrite <- Hfifo, <- app_assoc. reflexivity.
Qed.

Lemma device_inv_main d dev bs :
  device_inv bs dev -> worker dev = WorkerReturned ->
  device_inv bs (emit dev [Call MainThread (cudaSetDevice (Z.of_nat d));
                           JoinedWorker;
                           Call MainThread cudaStreamDestroy]).
Proof.
  intros [Hex Hpairs Hsig Hflag Hfifo Hwd Hj P0 P1 P2 P3 P4] Hw.
  rewrite Hw in *. simpl in *. rewrite app_nil_r in Hpairs.
  split; simpl; rewrite ?Hw; simpl; trace_app; try carry.
  apply precedes_app_after; [assumption|]. apply (Hj eq_refl).
Qed.

(** The invariant holds of every device after every execution. *)
Lemma device_inv_reachable ls batches :
  Forall (device_inv (batches_of_indices (sys_run ls (initial batches))))
         (devices (sys_run ls (initial batches))).
Proof.
  apply devices_invariant.
  - apply device_inv_new.
  - apply device_inv_mono.
  - apply device_inv_worker.
  - apply device_inv_writer.
  - apply device_inv_main.
Qed.

(** *** Exceptions: the process stops where a worker throws *)

Lemma aborted_stuck ls s : aborted s = true -> sys_run ls s = s.
Proof.
  intros Ha. induction ls as [|l ls IH]; simpl; [reflexivity|].
  unfold Pipeline.step. rewrite Ha. exact IH.
Qed.

Definition abort_recorded (s : system) : Prop :=
  aborted s = false -> Forall (fun dev => is_terminated (worker dev) = false) (devices s).

Lemma worker_step_from_terminated d o sched dev bs :
  is_terminated (worker dev) = true -> worker_step d o sched dev bs = None.
Proof.
  unfold Pipeline.worker_step. destruct (worker dev); try discriminate. reflexivity.
Qed.

Lemma abort_recorded_step l s s' :
  abort_recorded s -> sys_step l s = Some s' -> abort_recorded s'.
Proof.
  intros Hs H. unfold Pipeline.step in H.
  destruct (aborted s) eqn:Ha; [discriminate|]. specialize (Hs Ha).
  destruct l as [|d o sched|d].
  - unfold Pipeline.main_step in H. destruct (main s) as [d|d|]; [| |discriminate].
    + destruct (Z.of_nat d <? num_devices P); injection H as <-; intros _; simpl; auto.
      apply Forall_app. split; [exact Hs|]. constructor; [reflexivity|constructor].
    + destruct (Z.of_nat d <? num_devices P); [|injection H as <-; intros _; exact Hs].
      destruct (devices s !! d) as [dev|] eqn:Hd; [|discriminate].
      destruct (worker dev) eqn:Hw; try discriminate.
      injection H as <-. intros _. simpl. apply Forall_insert; [exact Hs|].
      simpl. rewrite Hw. reflexivity.
  - destruct (devices s !! d) as [dev|] eqn:Hd; [|discriminate].
    destruct (worker_step d o sched dev (batches_of_indices s)) as [[dev' bs']|] eqn:Hw;
      [|discriminate].
    injection H as <-. intros Hab. simpl in *. apply Forall_insert; [exact Hs|exact Hab].
  - destruct (devices s !! d) as [dev|] eqn:Hd; [|discriminate].
    destruct (writer_step d dev (output s)) as [[dev' out']|] eqn:Hw; [|discriminate].
    injection H as <-. intros _. simpl. apply Forall_insert; [exact Hs|].
    pose proof (Forall_lookup_1 _ _ _ _ Hs Hd) as Hdev.
    unfold Pipeline.writer_step in Hw. destruct (writer dev); try discriminate.
    + injection Hw as <- _. exact Hdev.
    + destruct (get_next_element _); try discriminate; injection Hw as <- _; exact Hdev.
Qed.

Lemma abort_recorded_reachable ls batches : abort_recorded (sys_run ls (initial batches)).
Proof.
  apply sys_run_invariant; [apply abort_recorded_step|]. intros _. constructor.
Qed.

(** *** After the signal the writer runs out of work *)

Lemma sys_run_cons l ls s :
  sys_run (l :: ls) s
  = sys_run ls (match sys_step l s with Some s' => s' | None => s end).
Proof. reflexivity. Qed.

Lemma writer_step_sys d s dev dev' out' :
  devices s !! d = Some dev -> aborted s = false ->
  writer_step d dev (output s) = Some (dev', out') ->
  sys_step (LWriter d) s
  = Some {| batches_of_indices := batches_of_indices s;
            main := main s;
            devices := <[d := dev']> (devices s);
            output := out';
            aborted := aborted s |}.
Proof. intros Hd Ha Hw. unfold Pipeline.step. rewrite Ha, Hd, Hw. reflexivity. Qed.

Lemma writer_drains (d : nat) (k : nat) :
  forall s dev,
    devices s !! d = Some dev -> aborted s = false ->
    writer dev = WriterWaiting ->
    no_more_elements (overlaps_and_cigars_to_write dev) = true ->
    length (data (overlaps_and_cigars_to_write dev)) = k ->
    exists dev',
      devices (sys_run (replicate (S k) (LWriter d)) s) !! d = Some dev' /\
      writer dev' = WriterReturned.
Proof.
  induction k as [|k IH]; intros s dev Hd Ha Hw Hno Hlen.
  - change (replicate 1 (LWriter d)) with [LWriter d]. rewrite sys_run_cons.
    assert (Hstep : writer_step d dev (output s)
                    = Some (emit (set_writer dev WriterReturned) [WriterSawEnd], output s)).
    { unfold Pipeline.writer_step, get_next_element. rewrite Hw.
      destruct (data (overlaps_and_cigars_to_write dev)); [|discriminate].
      rewrite Hno. reflexivity. }
    rewrite (writer_step_sys _ _ _ _ _ Hd Ha Hstep).
    eexists. split; [simpl; apply list_lookup_insert_eq; eapply lookup_lt_Some, Hd|reflexivity].
  - change (replicate (S (S k)) (LWriter d)) with (LWriter d :: replicate (S k) (LWriter d)).
    rewrite sys_run_cons.
    destruct (data (overlaps_and_cigars_to_write dev)) as [|x rest] eqn:Hdata; [discriminate|].
    assert (Hstep : writer_step d dev (output s)
                    = Some (emit (set_queue dev (mkQueue rest
                                    (no_more_elements (overlaps_and_cigars_to_write dev))))
                                 [Wrote x (written_text C P x)],
                            output s ++ [written_text C P x])).
    { unfold Pipeline.writer_step, get_next_element. rewrite Hw, Hdata. reflexivity. }
    rewrite (writer_step_sys _ _ _ _ _ Hd Ha Hstep).
    eapply IH.
    + simpl. apply list_lookup_insert_eq. eapply lookup_lt_Some, Hd.
    + exact Ha.
    + simpl. exact Hw.
    + simpl. exact Hno.
    + simpl. simpl in Hlen. lia.
Qed.


(** *** What the writer writes, and that it was started *)

Definition writer_inv (bs : list BatchOfIndices) (dev : device) : Prop :=
  Forall wrote_as_printed (trace dev) /\
  (writer dev = WriterNotStarted -> worker dev = WorkerEntry).

Lemma silent_wrote_as_printed evs :
  forallb silent evs = true -> Forall wrote_as_printed evs.
Proof.
  intros H. apply Forall_forall. intros ev Hin. rewrite list_elem_of_In in Hin.
  rewrite forallb_forall in H. specialize (H _ Hin). destruct ev; try discriminate; exact I.
Qed.

Lemma writer_inv_reachable ls batches :
  Forall (writer_inv (batches_of_indices (sys_run ls (initial batches))))
         (devices (sys_run ls (initial batches))).
Proof.
  apply devices_invariant.
  - intros bs d. split; [repeat constructor|reflexivity].
  - intros bs bs' dev H _. exact H.
  - intros d o sched dev bs dev' bs' [Hw Hs] H. unfold Pipeline.worker_step in H.
    destruct (worker dev) as [| |[|p todo]| | | | | |] eqn:Hpc; simpl in H; try discriminate H.
    + injection H as <- <-. split; simpl; [|discriminate].
      apply Forall_app. split; [exact Hw|repeat constructor].
    + destruct bs as [|b bs0]; simpl in H;
        [|destruct (device_batches b)]; injection H as <- <-; split; simpl;
        try (apply Forall_app; split; [exact Hw|repeat constructor]);
        intros Hn; specialize (Hs Hn); discriminate.
    + injection H as <- <-. split; simpl; [exact Hw|].
      intros Hn; specialize (Hs Hn); discriminate.
    + destruct (process_pair C P o sched p) as [[evs [x|s]]|] eqn:Hpp; [| |discriminate];
        pose proof (process_pair_silent _ _ _ _ _ Hpp) as Hsil;
        injection H as <- <-; split; simpl;
        try (intros Hn; specialize (Hs Hn); discriminate).
      * apply Forall_app. split; [exact Hw|]. apply Forall_app.
        split; [apply silent_wrote_as_printed, Hsil|repeat constructor].
      * apply Forall_app. split; [exact Hw|apply silent_wrote_as_printed, Hsil].
    + injection H as <- <-. split; simpl;
        [apply Forall_app; split; [exact Hw|repeat constructor]|].
      intros Hn; specialize (Hs Hn); discriminate.
    + destruct (writer dev) eqn:Hwr; try discriminate. injection H as <- <-.
      split; simpl; [apply Forall_app; split; [exact Hw|repeat constructor]|].
      rewrite Hwr. discriminate.
    + injection H as <- <-. split; simpl;
        [apply Forall_app; split; [exact Hw|repeat constructor]|].
      intros Hn; specialize (Hs Hn); discriminate.
  - intros d dev bs out dev' out' [Hw Hs] H. unfold Pipeline.writer_step in H.
    destruct (writer dev) eqn:Hwr; try discriminate H.
    + injection H as <- <-. split; simpl; [|discriminate].
      apply Forall_app. split; [exact Hw|repeat constructor].
    + destruct (get_next_element _) as [|x q'|]; try discriminate H;
        injection H as <- <-; split; simpl; rewrite ?Hwr; try discriminate;
        apply Forall_app; (split; [exact Hw|repeat constructor]).
  - intros d dev bs [Hw Hs] Hr. split; simpl; [|exact Hs].
    apply Forall_app. split; [exact Hw|repeat constructor].
Qed.

(** The writer of a device whose worker has signalled returns after at
    most two steps more than there are queued elements. *)
Lemma writer_returns d s dev :
  device_inv (batches_of_indices s) dev -> writer_inv (batches_of_indices s) dev ->
  devices s !! d = Some dev -> aborted s = false ->
  has_signalled (worker dev) = true ->
  exists k dev',
    devices (sys_run (replicate k (LWriter d)) s) !! d = Some dev' /\
    writer dev' = WriterReturned.
Proof.
  intros Hinv [_ Hstarted] Hd Ha Hsig.
  assert (Hno : no_more_elements (overlaps_and_cigars_to_write dev) = true).
  { rewrite (di_flag _ _ Hinv), (di_signal _ _ Hinv). exact Hsig. }
  destruct (writer dev) eqn:Hw.
  - specialize (Hstarted eq_refl). rewrite Hstarted in Hsig. discriminate.
  - assert (Hstep : writer_step d dev (output s)
                    = Some (emit (set_writer dev WriterWaiting)
                                 [Call WriterThread (cudaSetDevice (Z.of_nat d))], output s)).
    { unfold Pipeline.writer_step. rewrite Hw. reflexivity. }
    destruct (writer_drains d (length (data (overlaps_and_cigars_to_write dev)))
                {| batches_of_indices := batches_of_indices s;
                   main := main s;
                   devices := <[d := emit (set_writer dev WriterWaiting)
                                   [Call WriterThread (cudaSetDevice (Z.of_nat d))]]> (devices s);
                   output := output s;
                   aborted := aborted s |}
                (emit (set_writer dev WriterWaiting)
                      [Call WriterThread (cudaSetDevice (Z.of_nat d))]))
      as (dev' & Hd' & Hw'); simpl; auto.
    { apply list_lookup_insert_eq. eapply lookup_lt_Some, Hd. }
    exists (S (S (length (data (overlaps_and_cigars_to_write dev))))), dev'.
    split; [|exact Hw'].
    change (replicate (S (S ?k)) ?l) with (l :: replicate (S k) l).
    rewrite sys_run_cons, (writer_step_sys _ _ _ _ _ Hd Ha Hstep). exact Hd'.
  - destruct (writer_drains d _ s dev Hd Ha Hw Hno eq_refl) as (dev' & Hd' & Hw').
    eauto.
  - exists 0%nat, dev. auto.
Qed.
End PipelineFacts.

(** ** Properties of the pairing of process_one_device_batch *)

Section PairingFacts.
Import Pipeline.

(** The guard of the inner loop. *)
Definition paired (all_to_all : bool) (q t : IndexDescriptor) : bool :=
  negb all_to_all || (first_read t >=? first_read q).

Fixpoint count_if {A} (f : A -> bool) (l : list A) : nat :=
  match l with
  | [] => 0
  | x :: rest => if f x then S (count_if f rest) else count_if f rest
  end.

(** Number of pairs over all queries. *)
Fixpoint total_pairs (a2a : bool) (qs ts : list IndexDescriptor) : nat :=
  match qs with
  | [] => 0
  | q :: rest => count_if (paired a2a q) ts + total_pairs a2a rest ts
  end.

Lemma inner_loop_length a2a q ts :
  length (flat_map (fun t => if paired a2a q t then [(q, t)] else []) ts)
  = count_if (paired a2a q) ts.
Proof.
  induction ts as [|t ts IH]; simpl; [reflexivity|].
  destruct (paired a2a q t); simpl; rewrite IH; reflexivity.
Qed.

Lemma pairs_length a2a qs ts :
  length (process_one_device_batch_pairs a2a (mkIndexBatch qs ts)) = total_pairs a2a qs ts.
Proof.
  unfold process_one_device_batch_pairs. simpl.
  induction qs as [|q qs IH]; simpl; [reflexivity|].
  rewrite length_app, IH. f_equal. apply (inner_loop_length a2a q ts).
Qed.

Lemma count_if_all {A} (f : A -> bool) l : (forall x, f x = true) -> count_if f l = length l.
Proof. intros H. induction l as [|x l IH]; simpl; [reflexivity|]. rewrite H, IH. reflexivity. Qed.

Lemma total_pairs_full qs ts : total_pairs false qs ts = (length qs * length ts)%nat.
Proof.
  induction qs as [|q qs IH]; simpl; [reflexivity|].
  rewrite IH, count_if_all by reflexivity. reflexivity.
Qed.

Lemma total_pairs_cons_r a2a qs t ts :
  total_pairs a2a qs (t :: ts)
  = (count_if (fun q => paired a2a q t) qs + total_pairs a2a qs ts)%nat.
Proof.
  induction qs as [|q qs IH]; simpl; [reflexivity|].
  rewrite IH. destruct (paired a2a q t); lia.
Qed.

(** With distinct first reads every other descriptor is on exactly one
    side of [a]. *)
Lemma count_split a l :
  ~ In (first_read a) (map first_read l) ->
  (count_if (paired true a) l + count_if (fun q => paired true q a) l = length l)%nat.
Proof.
  induction l as [|x l IH]; intros Hn; simpl; [reflexivity|].
  simpl in Hn. assert (Hx : first_read x <> first_read a) by tauto.
  assert (Hl : ~ In (first_read a) (map first_read l)) by tauto.
  specialize (IH Hl). unfold paired in *. simpl in *.
  destruct (Z.geb_spec (first_read x) (first_read a)),
           (Z.geb_spec (first_read a) (first_read x)); lia.
Qed.

Lemma paired_refl a : paired true a a = true.
Proof. unfold paired. simpl. destruct (Z.geb_spec (first_read a) (first_read a)); [reflexivity|lia]. Qed.

Lemma total_pairs_triangle l :
  NoDup (map first_read l) ->
  (2 * total_pairs true l l = length l * (length l + 1))%nat.
Proof.
  induction l as [|a l IH]; intros Hnd; [reflexivity|].
  simpl map in Hnd. apply NoDup_cons in Hnd as [Ha Hnd].
  rewrite list_elem_of_In in Ha.
  specialize (IH Hnd). pose proof (count_split a l Ha) as Hs.
  cbn [total_pairs count_if]. rewrite paired_refl, total_pairs_cons_r.
  cbn [length]. nia.
Qed.
End PairingFacts.

(** ** Properties of the producer/consumer queue *)

Section QueueFacts.
Import ThreadsafeProducerConsumer.
Context {A : Type}.

Lemma push_all_data (xs : list A) (q : queue A) :
  data (push_all xs q) = data q ++ xs /\
  no_more_elements (push_all xs q) = no_more_elements q.
Proof.
  unfold push_all. revert q. induction xs as [|x xs IH]; intros q; simpl.
  - rewrite app_nil_r. auto.
  - destruct (IH (add_new_element x q)) as [Hd Hn]. rewrite Hd, Hn. simpl.
    rewrite <- app_assoc. auto.
Qed.

Lemma consume_all (xs : list A) (flag : bool) (k : nat) :
  (length xs < k)%nat ->
  consume k (mkQueue xs flag)
  = map Received xs ++ [if flag then ReceivedEmpty else StillBlocked].
Proof.
  revert k. induction xs as [|x xs IH]; intros k Hk; (destruct k as [|k]; [simpl in Hk; lia|]).
  - simpl. destruct flag; reflexivity.
  - simpl. unfold get_next_element. simpl. f_equal. apply IH. simpl in Hk. lia.
Qed.
End QueueFacts.

(** ** The claims *)

Section Claims.
Import Alignment SizingSpec ThreadsafeProducerConsumer Pipeline Examples.

(** C1. process_one_device_batch matches and overlaps the pair (q, t) of a
    device batch exactly when all_to_all is false or the first read of t is
    not before the first read of q.  Hence a device batch whose queries and
    targets are the same n descriptors with pairwise distinct first reads
    gives n * (n + 1) / 2 pairs in all-to-all mode, and n queries with m
    targets give n * m pairs when all_to_all is false. *)
Theorem C1_pairing_rule :
  (forall (a2a : bool) (device_batch : IndexBatch) (q t : IndexDescriptor),
      In (q, t) (process_one_device_batch_pairs a2a device_batch) <->
      In q (query_indices device_batch) /\ In t (target_indices device_batch) /\
      (a2a = false \/ first_read t >= first_read q)) /\
  (forall descriptors : list IndexDescriptor,
      NoDup (map first_read descriptors) ->
      Z.of_nat (length (process_one_device_batch_pairs true
                          (mkIndexBatch descriptors descriptors)))
      = Z.of_nat (length descriptors) * (Z.of_nat (length descriptors) + 1) / 2) /\
  (forall qs ts : list IndexDescriptor,
      length (process_one_device_batch_pairs false (mkIndexBatch qs ts))
      = (length qs * length ts)%nat).
Proof.
  split; [|split].
  - intros a2a db q t. unfold process_one_device_batch_pairs.
    rewrite in_flat_map. split.
    + intros (q' & Hq & H). rewrite in_flat_map in H. destruct H as (t' & Ht & H).
      destruct (negb a2a || (first_read t' >=? first_read q')) eqn:E; [|contradiction].
      destruct H as [H|[]]. injection H as -> ->.
      repeat split; auto.
      destruct a2a; [right|left; reflexivity]. simpl in E.
      destruct (Z.geb_spec (first_read t) (first_read q)); [lia|discriminate].
    + intros (Hq & Ht & Hc). exists q. split; [exact Hq|].
      rewrite in_flat_map. exists t. split; [exact Ht|].
      assert (E : negb a2a || (first_read t >=? first_read q) = true).
      { destruct Hc as [->|Hc]; [reflexivity|]. apply orb_true_iff. right.
        destruct (Z.geb_spec (first_read t) (first_read q)); [reflexivity|lia]. }
      rewrite E. left. reflexivity.
  - intros l Hnd. rewrite pairs_length.
    pose proof (total_pairs_triangle l Hnd) as H.
    assert (H' : 2 * Z.of_nat (total_pairs true l l)
                 = Z.of_nat (length l) * (Z.of_nat (length l) + 1)) by lia.
    rewrite <- H'. rewrite Z.mul_comm, Z.div_mul by lia. reflexivity.
  - intros qs ts. rewrite pairs_length. apply total_pairs_full.
Qed.

(** Three descriptors with first reads 0, 10 and 20 give six pairs. *)
Lemma C1_pairing_rule_witness :
  NoDup (map first_read [first_index; second_index; third_index]) /\
  Z.of_nat (length (process_one_device_batch_pairs true
                      (mkIndexBatch [first_index; second_index; third_index]
                                    [first_index; second_index; third_index])))
  = 3 * (3 + 1) / 2.
Proof.
  assert (H : NoDup (map first_read [first_index; second_index; third_index])).
  { simpl. repeat constructor; rewrite ?list_elem_of_In; simpl; intuition discriminate. }
  split; [exact H|].
  exact (proj1 (proj2 C1_pairing_rule) [first_index; second_index; third_index] H).
Defined.

(** C2, as the code has it.  For a positive number of engines, batch_size
    is at least 1 exactly when the number of engines does not exceed
    min (number of overlaps, max_alignments), max_alignments being the
    value computed in single precision and narrowed to int32.
    align_overlaps makes no resource-exhaustion check: the only error it
    raises is the non-success status add_alignment returned for one of the
    overlaps. *)
Theorem C2_batch_size_at_least_one
        (o : oracle) (ovs : list Overlap) (num_alignment_engines : Z) :
  0 < num_alignment_engines ->
  (1 <= batch_size_of o ovs num_alignment_engines <->
   num_alignment_engines
   <= Z.min (get_size ovs)
            (Int32.to_int32
               (max_alignments o (fst (max_sizes ovs)) (snd (max_sizes ovs))))) /\
  (forall (C : Collaborators) (qp tp : FastaParser) (cigar0 : list string)
          (sched : list nat) (status : StatusType),
      outcome_of (align_overlaps C o ovs qp tp num_alignment_engines cigar0 sched)
      = Threw status ->
      status <> success /\
      exists ov, In ov ovs /\
        add_alignment C (al_query (alignment_of qp tp ov)) (al_target (alignment_of qp tp ov))
                      (al_reverse (alignment_of qp tp ov)) = status).
Proof.
  intros He. split.
  - rewrite batch_size_unfold. apply quot_ge_1_iff, He.
  - intros C qp tp cigar0 sched status H. unfold align_overlaps in H.
    destruct (max_sizes ovs) as [mq mt].
    unfold outcome_of in H.
    destruct (forallb terminated _); [|discriminate].
    destruct (first_thrown _) as [s|] eqn:Hf; [|discriminate].
    injection H as ->.
    apply first_thrown_lookup in Hf as (k & e & Hk & Hp).
    eapply thrown_by_submission_run; eauto.
Qed.

(** 8000 bytes free, two overlaps, one engine. *)
Lemma C2_batch_size_at_least_one_witness :
  0 < 1 /\
  (1 <= batch_size_of plenty [ov 3 4; ov 2 2] 1 <->
   1 <= Z.min (get_size [ov 3 4; ov 2 2])
              (Int32.to_int32
                 (max_alignments plenty (fst (max_sizes [ov 3 4; ov 2 2]))
                                 (snd (max_sizes [ov 3 4; ov 2 2]))))).
Proof.
  split; [lia|].
  exact (proj1 (C2_batch_size_at_least_one plenty [ov 3 4; ov 2 2] 1 ltac:(lia))).
Defined.

(** C2 fails as stated.  With 8 GB free, one overlap of 100 x 100 bases and
    two engines the memory condition holds and batch_size is 0.  With 100
    bytes free the condition fails, and align_overlaps does not report
    anything: under every schedule its engine is still running. *)
Lemma C2_counterexample :
  (memory_suffices 3 100 8000000000 100 100 /\
   memory_suffices 16106127 (2 ^ 29) 8000000000 100 100 /\
   batch_size_of (mkOracle 8000000000 0) [ov 100 100] 2 = 0) /\
  (~ memory_suffices 3 100 100 100 100 /\
   ~ memory_suffices 16106127 (2 ^ 29) 100 100 100 /\
   forall sched,
     outcome_of (align_overlaps accepting (mkOracle 100 0) [ov 100 100]
                                queries targets 1 [EmptyString] sched)
     = Running).
Proof.
  split; [|split; [|split]].
  - unfold memory_suffices. split; [lia|]. split; [lia|]. vm_compute. reflexivity.
  - unfold memory_suffices. lia.
  - unfold memory_suffices. lia.
  - intros sched. unfold align_overlaps.
    assert (E : batch_size_of (mkOracle 100 0) [ov 100 100] 1 = 0) by (vm_compute; reflexivity).
    rewrite E. destruct (max_sizes [ov 100 100]) as [mq mt].
    apply spinning_outcome; [reflexivity|discriminate|lia].
Qed.

(** C6, as the code has it.  On overlaps whose positions are well formed
    the two maxima are those of the lengths, 0 for the empty list, whatever
    the free memory; and for a positive number of engines batch_size is
    min (total_overlaps, M) / num_engines with floor division, where M is
    the integer part of the single-precision value of
    (float (free) * 85 / 100) / (0.03f * max_query_len * max_target_len),
    whenever that value is finite, not negative and M fits int32. *)
Theorem C6_sizing (o : oracle) (ovs : list Overlap) :
  Forall well_formed ovs ->
  max_sizes ovs = (spec_max query_len ovs, spec_max target_len ovs) /\
  (ovs = [] -> max_sizes ovs = (0, 0)) /\
  forall num_alignment_engines M : Z,
    0 < num_alignment_engines ->
    Float32.to_size_t
      (max_alignments_float (free_memory o) (spec_max query_len ovs) (spec_max target_len ovs))
    = Some M ->
    M <= Int32.max_signed ->
    batch_size_of o ovs num_alignment_engines
    = Z.min (get_size ovs) M / num_alignment_engines.
Proof.
  intros Hwf. pose proof (max_sizes_spec ovs Hwf) as Hmax.
  split; [exact Hmax|]. split; [intros ->; reflexivity|].
  intros num_alignment_engines M He HM Hfit.
  rewrite batch_size_unfold, Hmax. simpl fst. simpl snd.
  unfold max_alignments. rewrite HM.
  pose proof (to_size_t_nonneg _ _ HM) as H0.
  rewrite to_int32_id
    by (unfold Int32.in_range, Int32.min_signed, Int32.max_signed in *; lia).
  apply Z.quot_div_nonneg; [|exact He].
  unfold get_size. lia.
Qed.

(** 8000 bytes free and overlaps of 3 x 4 and 2 x 2 bases: room for 18888
    alignments, batch_size min (2, 18888) / 1; and the empty list, whose
    maxima are 0. *)
Lemma C6_sizing_witness :
  Forall well_formed [ov 3 4; ov 2 2] /\
  max_sizes [ov 3 4; ov 2 2] = (3, 4) /\
  batch_size_of plenty [ov 3 4; ov 2 2] 1 = Z.min 2 18888 / 1 /\
  Forall well_formed [] /\
  max_sizes [] = (0, 0).
Proof.
  assert (Hwf : Forall well_formed [ov 3 4; ov 2 2]).
  { repeat constructor; vm_compute; discriminate. }
  assert (Hnil : Forall well_formed []) by constructor.
  destruct (C6_sizing plenty [ov 3 4; ov 2 2] Hwf) as (Hmax & _ & Hbs).
  destruct (C6_sizing plenty [] Hnil) as (_ & Hempty & _).
  split; [exact Hwf|]. split; [exact Hmax|].
  split; [|split; [exact Hnil|exact (Hempty eq_refl)]].
  exact (Hbs 1 18888 ltac:(lia) ltac:(vm_compute; reflexivity) ltac:(vm_compute; discriminate)).
Defined.

(** C6 fails as stated.  With 189 bytes free and one overlap of 45 x 119
    bases, 0.85 * free equals k * 45 * 119 for k = 3/100 (and exceeds it
    for k = 0.03f), so the formula gives min (1, 1) / 1 = 1; the code,
    computing in single precision, gets 0 alignments and batch_size 0. *)
Lemma C6_counterexample :
  batch_size_of (mkOracle 189 0) [ov 45 119] 1 = 0 /\
  spec_batch_size 3 100 189 [ov 45 119] 1 = 1 /\
  spec_batch_size 16106127 (2 ^ 29) 189 [ov 45 119] 1 = 1.
Proof. repeat split; vm_compute; reflexivity. Qed.

(** C9, as the code has it.
    (1) On a non-empty overlap list with batch_size 0, under every schedule
        the cursor stays at 0, every claim is the empty range (0, 0), no
        engine ever terminates although each can always take a step: the
        call never returns.
    (2) For a positive number of engines batch_size is 0 exactly when
        min (number_of_overlaps, int32 (max_alignments)) lies strictly
        between -num_engines and num_engines.
    (3) For batch_size >= 1 and at most 2^30 overlaps (so that
        idx_start + batch_size stays within int32) no schedule performs
        more than 2 * number_of_overlaps + 2 * num_engines steps, and
        every schedule can be extended to one after which all engines have
        terminated. *)
Theorem C9_claiming_loop :
  (forall (C : Collaborators) (ovs : list Overlap) (qp tp : FastaParser)
          (max_query_size max_target_size num_alignment_engines : Z)
          (cigar0 : list string) (sched : list nat),
      ovs <> [] -> 0 < num_alignment_engines ->
      let st := Alignment.run C ovs qp tp max_query_size max_target_size 0 sched
                              (init num_alignment_engines cigar0) in
      overlap_idx st = 0 /\
      Forall (fun c => snd c = (0, 0)) (claimed st) /\
      Forall (fun e => terminated e = false) (engines st) /\
      outcome_of st = Running /\
      (forall k e, engines st !! k = Some e ->
                   Alignment.step C ovs qp tp max_query_size max_target_size 0 k st <> None)) /\
  (forall (o : oracle) (ovs : list Overlap) (num_alignment_engines : Z),
      0 < num_alignment_engines ->
      (batch_size_of o ovs num_alignment_engines = 0 <->
       - num_alignment_engines
       < Z.min (get_size ovs)
               (Int32.to_int32
                  (max_alignments o (fst (max_sizes ovs)) (snd (max_sizes ovs))))
       < num_alignment_engines)) /\
  (forall (C : Collaborators) (ovs : list Overlap) (qp tp : FastaParser)
          (max_query_size max_target_size batch_size num_alignment_engines : Z)
          (cigar0 : list string) (sched : list nat),
      1 <= batch_size <= Int32.max_signed -> get_size ovs <= 2 ^ 30 ->
      0 <= num_alignment_engines ->
      Z.of_nat (steps_taken C ovs qp tp max_query_size max_target_size batch_size sched
                            (init num_alignment_engines cigar0))
      <= 2 * get_size ovs + 2 * num_alignment_engines /\
      exists sched',
        forallb terminated
                (engines (Alignment.run C ovs qp tp max_query_size max_target_size batch_size
                                        (sched ++ sched')
                                        (init num_alignment_engines cigar0)))
        = true).
Proof.
  split; [|split].
  - intros C ovs qp tp mq mt e cigar0 sched Hne He st.
    pose proof (spinning_run C ovs qp tp mq mt 0 e cigar0 sched eq_refl Hne) as Hsp.
    fold st in Hsp.
    pose proof (spinning_not_terminated _ Hsp) as Hnt.
    destruct Hsp as (Hidx & Hcl & _).
    repeat split; auto.
    + apply spinning_outcome; auto.
    + intros k x Hk. eapply step_enabled; [exact Hk|].
      eapply Forall_lookup_1 in Hnt; [exact Hnt|exact Hk].
  - intros o ovs e He. rewrite batch_size_unfold. apply quot_eq_0_iff, He.
  - intros C ovs qp tp mq mt bs e cigar0 sched Hbs Hn He.
    assert (Hs : sound_sizes ovs bs) by (split; assumption).
    split.
    + rewrite <- (measure_init ovs e cigar0 He).
      apply steps_bounded; [exact Hs|]. apply cursor_ok_init, n_nonneg.
    + pose proof (cursor_ok_run C ovs qp tp mq mt bs e cigar0 sched Hs) as Hc.
      destruct (completes_from C ovs qp tp mq mt bs
                  (Z.to_nat (measure ovs (Alignment.run C ovs qp tp mq mt bs sched
                                                        (init e cigar0))))
                  Hs _ Hc ltac:(lia)) as [sched' H].
      exists sched'. rewrite run_app. exact H.
Qed.

(** Two overlaps and two engines under the schedule 0, 1, 0, 1. *)
Lemma C9_claiming_loop_witness :
  [ov 3 4; ov 2 2] <> [] /\ 0 < 2 /\ 1 <= 1 <= Int32.max_signed /\
  get_size [ov 3 4; ov 2 2] <= 2 ^ 30 /\
  outcome_of (Alignment.run accepting [ov 3 4; ov 2 2] queries targets 3 4 0 [0; 1; 0; 1]%nat
                            (init 2 [EmptyString; EmptyString])) = Running /\
  (batch_size_of plenty [ov 3 4; ov 2 2] 3 = 0 <->
   - 3 < Z.min (get_size [ov 3 4; ov 2 2])
               (Int32.to_int32
                  (max_alignments plenty (fst (max_sizes [ov 3 4; ov 2 2]))
                                  (snd (max_sizes [ov 3 4; ov 2 2])))) < 3) /\
  Z.of_nat (steps_taken accepting [ov 3 4; ov 2 2] queries targets 3 4 1 [0; 1; 0; 1]%nat
                        (init 2 [EmptyString; EmptyString]))
  <= 2 * get_size [ov 3 4; ov 2 2] + 2 * 2.
Proof.
  assert (H1 : [ov 3 4; ov 2 2] <> []) by discriminate.
  assert (H2 : 0 < 2) by lia.
  assert (H3 : 1 <= 1 <= Int32.max_signed) by (vm_compute; split; discriminate).
  assert (H4 : get_size [ov 3 4; ov 2 2] <= 2 ^ 30) by (vm_compute; discriminate).
  pose proof C9_claiming_loop as (Hspin & Hzero & Hterm).
  split; [exact H1|]. split; [exact H2|]. split; [exact H3|]. split; [exact H4|].
  split; [|split].
  - pose proof (Hspin accepting [ov 3 4; ov 2 2] queries targets 3 4 2
                      [EmptyString; EmptyString] [0; 1; 0; 1]%nat H1 H2) as H.
    cbv zeta in H. apply H.
  - apply (Hzero plenty [ov 3 4; ov 2 2] 3). lia.
  - apply (Hterm accepting [ov 3 4; ov 2 2] queries targets 3 4 1 2
                 [EmptyString; EmptyString] [0; 1; 0; 1]%nat H3 H4). lia.
Defined.

(** C9 fails as stated in its parenthesis.  With 8 GB free and three
    overlaps of one base each, max_alignments is 226666692608, which
    narrows to the int32 value -966574080; four engines exceed
    min (3, max_alignments) under either reading, and batch_size is
    -241643520, not 0. *)
Lemma C9_counterexample :
  max_sizes [ov 1 1; ov 1 1; ov 1 1] = (1, 1) /\
  max_alignments (mkOracle 8000000000 0) 1 1 = 226666692608 /\
  Int32.to_int32 226666692608 = -966574080 /\
  4 > Z.min (get_size [ov 1 1; ov 1 1; ov 1 1]) 226666692608 /\
  4 > Z.min (get_size [ov 1 1; ov 1 1; ov 1 1]) (-966574080) /\
  batch_size_of (mkOracle 8000000000 0) [ov 1 1; ov 1 1; ov 1 1] 4 = -241643520 /\
  batch_size_of (mkOracle 8000000000 0) [ov 1 1; ov 1 1; ov 1 1] 4 <> 0.
Proof. repeat split; vm_compute; try reflexivity; discriminate. Qed.

(** C5.  With batch_size >= 1 (and at most 2^30 overlaps, so that
    idx_start + batch_size stays within int32), under every interleaving
    of the engines: the ranges claimed under the lock are non-empty, at
    most batch_size long and laid end to end from 0 to the cursor, so each
    index below the cursor lies in exactly one claimed range and no other
    index in any; every index below the cursor has its cigar stored, or is
    still held by an engine, or an engine threw; when all engines have
    returned the cursor is number_of_overlaps and the cigar vector is,
    index by index, the cigar of the alignment of the overlap; and if no
    submission fails every schedule extends to one that returns it. *)
Theorem C5_claims_partition
        (C : Collaborators) (ovs : list Overlap) (qp tp : FastaParser)
        (max_query_size max_target_size batch_size num_alignment_engines : Z)
        (cigar0 : list string) (sched : list nat) :
  1 <= batch_size <= Int32.max_signed ->
  get_size ovs <= 2 ^ 30 ->
  length cigar0 = length ovs ->
  0 < num_alignment_engines ->
  let exec := fun s => Alignment.run C ovs qp tp max_query_size max_target_size batch_size s
                                     (init num_alignment_engines cigar0) in
  let st := exec sched in
  0 <= overlap_idx st <= get_size ovs /\
  tiling batch_size 0 (map snd (claimed st)) (overlap_idx st) /\
  (forall i : Z,
      length (covering i (map snd (claimed st)))
      = if (0 <=? i) && (i <? overlap_idx st) then 1%nat else 0%nat) /\
  (forall i : nat,
      Z.of_nat i < overlap_idx st ->
      written C ovs qp tp (cigar st) i \/ pending (engines st) i) /\
  (forall c, outcome_of st = Returned c ->
             overlap_idx st = get_size ovs /\ c = aligned_cigars C ovs qp tp) /\
  ((forall ov, In ov ovs ->
               add_alignment C (al_query (alignment_of qp tp ov))
                             (al_target (alignment_of qp tp ov))
                             (al_reverse (alignment_of qp tp ov)) = success) ->
   exists sched',
     outcome_of (exec (sched ++ sched')) = Returned (aligned_cigars C ovs qp tp)).
Proof.
  intros Hbs Hn Hlen He exec st.
  assert (Hs : sound_sizes ovs batch_size) by (split; assumption).
  pose proof (inv_run C ovs qp tp max_query_size max_target_size batch_size
                      num_alignment_engines cigar0 sched Hs Hlen) as Hinv.
  fold (exec sched) in Hinv. fold st in Hinv.
  assert (Hne : forall s, engines (exec s) <> []).
  { intros s E. apply (f_equal length) in E. unfold exec in E.
    rewrite engines_length_run in E. simpl in E. rewrite length_replicate in E.
    simpl in E. lia. }
  pose proof Hinv as [[Hr Hc] Htil Hcl Hret Hhold Hwr].
  split; [exact Hr|]. split; [exact Htil|]. split; [|split; [exact Hwr|split]].
  - intros i. eapply tiling_covering, Htil.
  - intros c Hout. eapply returned_outcome; [exact Hinv|apply (Hne sched)|exact Hout].
  - intros Hok.
    pose proof (cursor_ok_run C ovs qp tp max_query_size max_target_size batch_size
                              num_alignment_engines cigar0 sched Hs) as Hcur.
    destruct (completes_from C ovs qp tp max_query_size max_target_size batch_size
                (Z.to_nat (measure ovs st)) Hs st Hcur ltac:(lia)) as [sched' Hdone].
    exists sched'. unfold exec. rewrite run_app. fold (exec sched). fold st.
    pose proof (inv_run C ovs qp tp max_query_size max_target_size batch_size
                        num_alignment_engines cigar0 (sched ++ sched') Hs Hlen) as Hinv'.
    pose proof (thrown_by_submission_run C ovs qp tp max_query_size max_target_size batch_size
                  num_alignment_engines cigar0 (sched ++ sched')) as Hthrown.
    rewrite run_app in Hinv', Hthrown. fold (exec sched) in Hinv', Hthrown.
    fold st in Hinv', Hthrown.
    specialize (Hne (sched ++ sched')). unfold exec in Hne. rewrite run_app in Hne.
    fold (exec sched) in Hne. fold st in Hne.
    remember (Alignment.run C ovs qp tp max_query_size max_target_size batch_size sched' st)
      as st' eqn:Est'.
    destruct (outcome_of st') as [c|s|] eqn:Hout.
    + assert (Hc' : overlap_idx st' = get_size ovs /\ c = aligned_cigars C ovs qp tp)
        by (eapply returned_outcome; [exact Hinv'|exact Hne|exact Hout]).
      destruct Hc' as [_ ->]. reflexivity.
    + exfalso. unfold outcome_of in Hout. rewrite Hdone in Hout.
      destruct (first_thrown (engines st')) as [s'|] eqn:Hf; [|discriminate].
      apply first_thrown_lookup in Hf as (k & e & Hk & Hp).
      destruct (Hthrown k e s' Hk Hp) as (Hns & ov' & Hin & Hadd).
      rewrite (Hok ov' Hin) in Hadd. congruence.
    + exfalso. unfold outcome_of in Hout. rewrite Hdone in Hout.
      destruct (first_thrown (engines st')); discriminate.
Qed.

(** Two overlaps, two engines, batch_size 1, engines taking turns. *)
Lemma C5_claims_partition_witness :
  1 <= 1 <= Int32.max_signed /\
  get_size [ov 3 4; ov 2 2] <= 2 ^ 30 /\
  length [EmptyString; EmptyString] = length [ov 3 4; ov 2 2] /\
  0 < 2 /\
  tiling 1 0
         (map snd (claimed (Alignment.run accepting [ov 3 4; ov 2 2] queries targets 3 4 1
                                          [0; 1; 0; 1; 0; 1; 0; 1]%nat
                                          (init 2 [EmptyString; EmptyString]))))
         (overlap_idx (Alignment.run accepting [ov 3 4; ov 2 2] queries targets 3 4 1
                                     [0; 1; 0; 1; 0; 1; 0; 1]%nat
                                     (init 2 [EmptyString; EmptyString]))).
Proof.
  assert (H1 : 1 <= 1 <= Int32.max_signed) by (vm_compute; split; discriminate).
  assert (H2 : get_size [ov 3 4; ov 2 2] <= 2 ^ 30) by (vm_compute; discriminate).
  assert (H3 : length [EmptyString; EmptyString] = length [ov 3 4; ov 2 2]) by reflexivity.
  assert (H4 : 0 < 2) by lia.
  split; [exact H1|]. split; [exact H2|]. split; [exact H3|]. split; [exact H4|].
  pose proof (C5_claims_partition accepting [ov 3 4; ov 2 2] queries targets 3 4 1 2
                [EmptyString; EmptyString] [0; 1; 0; 1; 0; 1; 0; 1]%nat H1 H2 H3 H4) as H.
  cbv zeta in H. apply H.
Defined.

(** C7.  In every execution and for every device: once the worker has
    signalled "no more elements", the global batch supply is empty, the
    worker has seen it exhausted, and one element has been pushed for every
    pair of every batch it took; when the writer has returned, the signal
    had been sent, the queue is empty and the writer has received, in
    order, every element pushed, each written as the writer prints it; the
    worker joins the writer only after the signal and after the writer saw
    the end, synchronizes its stream only after that join, and main
    destroys the stream only after that join. *)
Theorem C7_shutdown_order
        (C : Collaborators) (P : ApplicationParameters) (ls : list label)
        (batches : list BatchOfIndices) (d : nat) (dev : device) :
  devices (Pipeline.run C P ls (initial batches)) !! d = Some dev ->
  (signal_sent (trace dev) = true ->
   batches_of_indices (Pipeline.run C P ls (initial batches)) = [] /\
   In BatchesExhausted (trace dev) /\
   pairs_of (trace dev)
   = flat_map (process_one_batch_pairs (all_to_all P)) (taken_of (trace dev))) /\
  precedes BatchesExhausted Signalled (trace dev) /\
  (writer dev = WriterReturned ->
   signal_sent (trace dev) = true /\
   data (overlaps_and_cigars_to_write dev) = [] /\
   wrote_of (trace dev) = pushed_of (trace dev)) /\
  Forall (wrote_as_printed C P) (trace dev) /\
  precedes Signalled JoinedWriter (trace dev) /\
  precedes WriterSawEnd JoinedWriter (trace dev) /\
  precedes JoinedWriter (Call WorkerThread cudaStreamSynchronize) (trace dev) /\
  precedes JoinedWriter (Call MainThread cudaStreamDestroy) (trace dev).
Proof.
  intros Hd.
  pose proof (Forall_lookup_1 _ _ _ _ (device_inv_reachable C P ls batches) Hd) as Hinv.
  pose proof (Forall_lookup_1 _ _ _ _ (writer_inv_reachable C P ls batches) Hd) as [Hwr _].
  destruct Hinv as [Hex Hpairs Hsig Hflag Hfifo Hwd Hj P0 P1 P2 P3 P4].
  repeat split; auto.
  - apply Hex. rewrite Hsig in H. destruct (worker dev); try discriminate; reflexivity.
  - apply Hex. rewrite Hsig in H. destruct (worker dev); try discriminate; reflexivity.
  - rewrite Hsig in H. rewrite <- Hpairs by (destruct (worker dev); try discriminate; reflexivity).
    destruct (worker dev); try discriminate; simpl; rewrite app_nil_r; reflexivity.
  - rewrite Hsig. apply (Hwd H).
  - apply (Hwd H).
  - destruct (Hwd H) as (Hdata & _ & _). rewrite Hdata, app_nil_r in Hfifo. exact Hfifo.
Qed.

(** Device 1 of the complete two-device run. *)
Lemma C7_shutdown_order_witness :
  exists dev,
    devices (Pipeline.run accepting parameters full_execution (initial [one_pair_batch])) !! 1%nat
    = Some dev /\
    signal_sent (trace dev) = true /\
    writer dev = WriterReturned /\
    wrote_of (trace dev) = pushed_of (trace dev) /\
    precedes JoinedWriter (Call WorkerThread cudaStreamSynchronize) (trace dev) /\
    precedes JoinedWriter (Call MainThread cudaStreamDestroy) (trace dev).
Proof.
  destruct (devices (Pipeline.run accepting parameters full_execution
                                  (initial [one_pair_batch])) !! 1%nat) as [dev|] eqn:Hd;
    [|vm_compute in Hd; discriminate].
  exists dev.
  pose proof (C7_shutdown_order accepting parameters full_execution [one_pair_batch] 1 dev Hd)
    as (_ & _ & Hw & _ & _ & _ & H2 & H3).
  assert (Hret : writer dev = WriterReturned).
  { vm_compute in Hd. injection Hd as <-. reflexivity. }
  destruct (Hw Hret) as (Hs & _ & Hall).
  repeat split; assumption.
Defined.

(** C3, as the code has it.  In every execution and for every device:
    a worker whose batch processing threw never sent the signal, and the
    process has stopped there (nothing moves any more); a worker that has
    seen the batch supply exhausted sends the signal with its next step;
    and once the signal has been sent the writer returns after finitely
    many of its own steps, unless the process was stopped. *)
Theorem C3_signal_on_normal_exit
        (C : Collaborators) (P : ApplicationParameters) (ls : list label)
        (batches : list BatchOfIndices) (d : nat) (dev : device) :
  let s := Pipeline.run C P ls (initial batches) in
  devices s !! d = Some dev ->
  (forall status,
      worker dev = WorkerTerminated status ->
      signal_sent (trace dev) = false /\ aborted s = true /\
      forall ls', Pipeline.run C P ls' s = s) /\
  (worker dev = WorkerSignal -> aborted s = false ->
   forall o sched,
   exists dev',
     devices (Pipeline.run C P [LWorker d o sched] s) !! d = Some dev' /\
     signal_sent (trace dev') = true) /\
  (has_signalled (worker dev) = true ->
   signal_sent (trace dev) = true /\
   (aborted s = false ->
    exists k dev',
      devices (Pipeline.run C P (replicate k (LWriter d)) s) !! d = Some dev' /\
      writer dev' = WriterReturned)).
Proof.
  intros s Hd.
  pose proof (Forall_lookup_1 _ _ _ _ (device_inv_reachable C P ls batches) Hd) as Hinv.
  pose proof (Forall_lookup_1 _ _ _ _ (writer_inv_reachable C P ls batches) Hd) as Hwinv.
  pose proof (abort_recorded_reachable C P ls batches) as Hab.
  fold s in Hinv, Hwinv, Hab.
  split; [|split].
  - intros status Hw.
    assert (Ha : aborted s = true).
    { destruct (aborted s) eqn:Ha; [reflexivity|]. specialize (Hab Ha).
      pose proof (Forall_lookup_1 _ _ _ _ Hab Hd) as Hn. simpl in Hn.
      rewrite Hw in Hn. discriminate. }
    split; [|split; [exact Ha|]].
    + rewrite (di_signal _ _ _ Hinv), Hw. reflexivity.
    + intros ls'. apply aborted_stuck, Ha.
  - intros Hw Ha o sched. simpl. unfold Pipeline.step. rewrite Ha, Hd.
    unfold Pipeline.worker_step. rewrite Hw. simpl.
    eexists. split; [apply list_lookup_insert_eq; eapply lookup_lt_Some, Hd|].
    simpl. rewrite signal_sent_app. simpl. apply orb_true_r.
  - intros Hs. split; [rewrite (di_signal _ _ _ Hinv); exact Hs|].
    intros Ha. eapply writer_returns; eauto.
Qed.

(** Device 1 of the complete two-device run: the signal was sent. *)
Lemma C3_signal_on_normal_exit_witness :
  exists dev,
    devices (Pipeline.run accepting parameters full_execution (initial [one_pair_batch])) !! 1%nat
    = Some dev /\
    has_signalled (worker dev) = true /\
    signal_sent (trace dev) = true.
Proof.
  destruct (devices (Pipeline.run accepting parameters full_execution
                                  (initial [one_pair_batch])) !! 1%nat) as [dev|] eqn:Hd;
    [|vm_compute in Hd; discriminate].
  exists dev.
  pose proof (C3_signal_on_normal_exit accepting parameters full_execution [one_pair_batch]
                1 dev Hd) as (_ & _ & H).
  assert (Hs : has_signalled (worker dev) = true).
  { vm_compute in Hd. injection Hd as <-. reflexivity. }
  split; [reflexivity|]. split; [exact Hs|]. apply (H Hs).
Defined.

(** C3 fails as stated.  When the aligner rejects a submission while
    device 1 processes its pair, the worker of device 1 ends with the
    exception, no signal has been sent on its queue, its writer has not
    returned, and nothing moves any more, however the execution is
    continued. *)
Lemma C3_counterexample :
  exists dev status,
    devices (Pipeline.run rejecting parameters failing_execution (initial [one_pair_batch]))
            !! 1%nat = Some dev /\
    worker dev = WorkerTerminated status /\
    signal_sent (trace dev) = false /\
    writer dev = WriterWaiting /\
    forall ls',
      Pipeline.run rejecting parameters (failing_execution ++ ls') (initial [one_pair_batch])
      = Pipeline.run rejecting parameters failing_execution (initial [one_pair_batch]).
Proof.
  eexists. exists (failure 3).
  split; [vm_compute; reflexivity|].
  split; [reflexivity|]. split; [reflexivity|]. split; [reflexivity|].
  intros ls'. unfold Pipeline.run. rewrite fold_left_app.
  apply aborted_stuck. vm_compute. reflexivity.
Qed.

(** C4, on the code.  The worker and the writer of a device call
    cudaSetDevice first, but an alignment engine thread never calls it:
    once started, its calls begin with cudaGetDevice, cudaStreamCreate and
    create_aligner on the device the fresh thread happens to run on, and
    it is pinned to no device.  On device 1 of the two-device run the
    engine creates its stream and its aligner on device 0. *)
Theorem C4_engine_thread_not_pinned :
  (forall (C : Collaborators) (ovs : list Overlap) (qp tp : FastaParser)
          (max_query_size max_target_size batch_size num_alignment_engines : Z)
          (cigar0 : list string) (sched : list nat) (d : Z),
      Forall (fun e => pc e = EngineEntry \/
                       (existsb is_set_device (calls e) = false /\
                        pinned_before_device_calls d (calls e) = false))
             (engines (Alignment.run C ovs qp tp max_query_size max_target_size batch_size
                                     sched (init num_alignment_engines cigar0)))) /\
  exists dev,
    devices (Pipeline.run accepting parameters full_execution (initial [one_pair_batch]))
            !! 1%nat = Some dev /\
    pinned_before_device_calls 1 (calls_of WorkerThread (trace dev)) = true /\
    pinned_before_device_calls 1 (calls_of WriterThread (trace dev)) = true /\
    engine_threads_of (trace dev)
    = [[cudaGetDevice; cudaStreamCreate; create_aligner 3 4 2 0;
        aligner_work 0 2; cudaStreamDestroy]] /\
    Forall (fun calls => pinned_before_device_calls 1 calls = false)
           (engine_threads_of (trace dev)).
Proof.
  split.
  - intros C ovs qp tp mq mt bs e cigar0 sched d.
    eapply Forall_impl; [apply engine_calls_run|].
    intros x Hx. eapply engine_not_pinned, Hx.
  - eexists. split; [vm_compute; reflexivity|].
    split; [reflexivity|]. split; [reflexivity|]. split; [reflexivity|].
    repeat constructor.
Qed.

(** C8.  For every element it receives, writer_thread_function hands
    print_paf the query parser both as query parser and as target parser:
    the text written for the element is print_paf of the post-processed
    overlaps and the cigars with the query parser on both sides, and this
    holds of every element written in any execution. *)
Theorem C8_query_parser_on_both_sides (C : Collaborators) (P : ApplicationParameters) :
  (forall (d : nat) (dev : device) (out : list (list string))
          (x : OverlapsAndCigars) (rest : list OverlapsAndCigars),
      writer dev = WriterWaiting ->
      data (overlaps_and_cigars_to_write dev) = x :: rest ->
      exists dev',
        Pipeline.writer_step C P d dev out
        = Some (dev',
                out ++ [print_paf C (post_process_overlaps C (overlaps x)) (cigars x)
                                  (query_parser P) (query_parser P) (kmer_size P)]) /\
        data (overlaps_and_cigars_to_write dev') = rest) /\
  (forall (ls : list label) (batches : list BatchOfIndices) (d : nat) (dev : device)
          (x : OverlapsAndCigars) (text : list string),
      devices (Pipeline.run C P ls (initial batches)) !! d = Some dev ->
      In (Wrote x text) (trace dev) ->
      text = print_paf C (post_process_overlaps C (overlaps x)) (cigars x)
                       (query_parser P) (query_parser P) (kmer_size P)).
Proof.
  split.
  - intros d dev out x rest Hw Hdata. unfold Pipeline.writer_step, get_next_element.
    rewrite Hw, Hdata. eexists. split; reflexivity.
  - intros ls batches d dev x text Hd Hin.
    pose proof (Forall_lookup_1 _ _ _ _ (writer_inv_reachable C P ls batches) Hd) as [Hwr _].
    rewrite Forall_forall in Hwr. apply (Hwr (Wrote x text)).
    apply list_elem_of_In. exact Hin.
Qed.

(** With different query and target read sets, the record written for an
    overlap names the query read on both sides. *)
Lemma C8_query_parser_on_both_sides_witness :
  exists dev x,
    devices (Pipeline.run accepting parameters full_execution (initial [one_pair_batch]))
            !! 1%nat = Some dev /\
    In (Wrote x ["query_read query_read"%string; "query_read query_read"%string]) (trace dev) /\
    print_paf accepting (post_process_overlaps accepting (overlaps x)) (cigars x)
              (query_parser parameters) (query_parser parameters) (kmer_size parameters)
    = ["query_read query_read"%string; "query_read query_read"%string] /\
    print_paf accepting (post_process_overlaps accepting (overlaps x)) (cigars x)
              (query_parser parameters) (target_parser parameters) (kmer_size parameters)
    = ["query_read target_read"%string; "query_read target_read"%string].
Proof.
  destruct (devices (Pipeline.run accepting parameters full_execution
                                  (initial [one_pair_batch])) !! 1%nat) as [dev|] eqn:Hd;
    [|vm_compute in Hd; discriminate].
  exists dev, (mkOverlapsAndCigars [ov 3 4; ov 2 2] ["ACG/TTGT"%string; "AC/TT"%string]).
  assert (Hin : In (Wrote (mkOverlapsAndCigars [ov 3 4; ov 2 2]
                                               ["ACG/TTGT"%string; "AC/TT"%string])
                          ["query_read query_read"%string; "query_read query_read"%string])
                   (trace dev)).
  { vm_compute in Hd. injection Hd as <-. simpl. tauto. }
  split; [reflexivity|]. split; [exact Hin|]. split; [|reflexivity].
  symmetry.
  exact (proj2 (C8_query_parser_on_both_sides accepting parameters)
               full_execution [one_pair_batch] 1%nat dev _ _ Hd Hin).
Defined.

(** C10.  On the queue of the specification: after N elements have been
    pushed and the signal posted, the consumer's successive calls of
    get_next_element return the N elements in the order pushed, then
    empty; without the signal the same calls return the N elements and
    the next call stays blocked, as does a call on the fresh queue. *)
Theorem C10_queue_fifo {A : Type} (xs : list A) :
  consume (S (length xs)) (signal_pushed_last_element (push_all xs empty))
  = map Received xs ++ [ReceivedEmpty] /\
  consume (S (length xs)) (push_all xs empty) = map Received xs ++ [StillBlocked] /\
  get_next_element (@empty A) = Blocked /\
  get_next_element (signal_pushed_last_element (@empty A)) = NoMoreElements.
Proof.
  destruct (push_all_data xs empty) as [Hd Hn]. simpl in Hd, Hn.
  split; [|split; [|split; reflexivity]].
  - unfold signal_pushed_last_element. rewrite Hd.
    apply (consume_all xs true). lia.
  - destruct (push_all xs empty) as [dat flag]. simpl in Hd, Hn. subst.
    apply (consume_all xs false). lia.
Qed.
End Claims.

(** ** Further properties of the alignment sub-stage *)

Section MoreSizingFacts.
Import Alignment.

Lemma fold_max_upper (f : Overlap -> Z) (ovs : list Overlap) (a : Z) (o : Overlap) :
  In o ovs -> f o <= fold_left (fun m o' => Z.max m (f o')) ovs a.
Proof.
  revert a. induction ovs as [|x ovs IH]; intros a Hin; [contradiction|].
  simpl. destruct Hin as [->|Hin]; [|apply IH, Hin].
  pose proof (fold_max_ge f ovs (Z.max a (f o))). lia.
Qed.

Lemma fold_max_attained (f : Overlap -> Z) (ovs : list Overlap) (a : Z) :
  fold_left (fun m o' => Z.max m (f o')) ovs a = a \/
  exists o, In o ovs /\ f o = fold_left (fun m o' => Z.max m (f o')) ovs a.
Proof.
  revert a. induction ovs as [|x ovs IH]; intros a; simpl; [left; reflexivity|].
  destruct (IH (Z.max a (f x))) as [E|(o & Ho & E)].
  - rewrite E. destruct (Z.max_spec a (f x)) as [[_ ->]|[_ ->]]; [|left; reflexivity].
    right. exists x. split; [left; reflexivity|]. reflexivity.
  - right. exists o. split; [right; exact Ho|exact E].
Qed.

Lemma max_sizes_as_folds (ovs : list Overlap) :
  max_sizes ovs
  = (fold_left (fun m o => Z.max m (query_overlap_size o)) ovs 0,
     fold_left (fun m o => Z.max m (target_overlap_size o)) ovs 0).
Proof. unfold max_sizes. apply (max_sizes_fold query_overlap_size target_overlap_size). Qed.

(** A zero memory estimate makes the quotient infinite or not a number. *)
Lemma division_by_zero_estimate (x y : Float32.float) :
  Float32.to_size_t
    (Float32.div x (Float32.mul (Float32.mul Float32.lit_0_03 (Float32.of_Z 0)) y)) = None /\
  Float32.to_size_t
    (Float32.div x (Float32.mul (Float32.mul Float32.lit_0_03 y) (Float32.of_Z 0))) = None.
Proof.
  change (Float32.of_Z 0) with (S754_zero false).
  split; destruct x as [sx|sx| |sx mx ex]; destruct y as [sy|sy| |sy my ey];
    try reflexivity.
  all: unfold Float32.mul, Float32.div, Float32.lit_0_03; cbn [SFmul];
    match goal with
    | |- context [binary_round_aux ?p ?e ?s ?m ?x ?l] =>
        destruct (binary_round_aux p e s m x l) as [sz|sz| |sz mz ez]
    end; reflexivity.
Qed.

(** A computed batch_size of at least 1 is within the sizes for which the
    claiming code does not wrap, and all engines together stay within the
    bound it was derived from. *)
Lemma computed_batch_size_sound (o : oracle) (ovs : list Overlap) (e : Z) :
  1 <= e -> 1 <= batch_size_of o ovs e -> get_size ovs <= 2 ^ 30 ->
  sound_sizes ovs (batch_size_of o ovs e) /\
  e * batch_size_of o ovs e
  <= Z.min (get_size ovs)
           (Int32.to_int32 (max_alignments o (fst (max_sizes ovs)) (snd (max_sizes ovs)))).
Proof.
  intros He Hb Hn. rewrite batch_size_unfold in *.
  set (m := Z.min (get_size ovs)
                  (Int32.to_int32 (max_alignments o (fst (max_sizes ovs))
                                                  (snd (max_sizes ovs))))) in *.
  assert (He' : 0 < e) by (clear - He; lia).
  pose proof (proj1 (quot_ge_1_iff m e He') Hb) as Hm.
  assert (Hm0 : 0 <= m) by (clear - Hm He; lia).
  assert (Hq : e * Z.quot m e <= m).
  { rewrite Z.quot_div_nonneg by assumption. apply Z.mul_div_le. exact He'. }
  assert (Hmn : m <= get_size ovs) by apply Z.le_min_l.
  split; [|exact Hq].
  split; [|exact Hn]. split; [exact Hb|].
  assert (Hle : Z.quot m e <= m) by (clear - Hq Hb He; nia).
  assert (Hle' : Z.quot m e <= 2 ^ 30)
    by (eapply Z.le_trans; [exact Hle|]; eapply Z.le_trans; [exact Hmn|exact Hn]).
  eapply Z.le_trans; [exact Hle'|]. vm_compute. discriminate.
Qed.
End MoreSizingFacts.

Section MoreEngineFacts.
Import Alignment Observations.

Context (C : Collaborators).
Context (ovs : list Overlap).
Context (qp tp : FastaParser).
Context (max_query_size max_target_size batch_size : Z).

Abbreviation step := (Alignment.step C ovs qp tp max_query_size max_target_size batch_size).
Abbreviation run := (Alignment.run C ovs qp tp max_query_size max_target_size batch_size).
Abbreviation n := (get_size ovs).
Abbreviation sound_sizes := (Alignment.sound_sizes ovs batch_size).
Abbreviation inv := (inv C ovs qp tp batch_size).
Abbreviation alignment_of := (Alignment.alignment_of qp tp).

Ltac engine_cases H :=
  let e := fresh "e" in
  let He := fresh "He" in
  let Hpc := fresh "Hpc" in
  unfold Alignment.step in H;
  destruct (engines _ !! _) as [e|] eqn:He; [|discriminate H];
  unfold Alignment.engine_step in H;
  destruct (pc e) as [| |held_start held_end| |thrown] eqn:Hpc;
  [ | destruct (Alignment.claim_range _ _ _) as [[? ?]|] eqn:Hclaim
    | destruct (Alignment.add_alignments _ _ _ _ _) as [[|?] ?] eqn:Hadd
    | discriminate H | discriminate H ];
  simpl in H; injection H as <-; simpl in *.

(** *** Termination under any invariant with a decreasing measure *)


(** *** An empty overlap list *)







(** *** The ranges do not depend on the interleaving *)

Lemma exact_ranges_step k st st' :
  sound_sizes -> cursor_ok ovs batch_size st ->
  Forall (exact_range n batch_size) (map snd (claimed st)) ->
  step k st = Some st' ->
  Forall (exact_range n batch_size) (map snd (claimed st')).
Proof.
  intros Hs [Hr Hc] Hall H. engine_cases H; try exact Hall.
  pose proof (claim_range_some ovs batch_size _ _ _ Hclaim) as (_ & -> & Ht).
  destruct Hs as [Hb Hn].
  assert (E : Int32.to_int32 (overlap_idx st + batch_size) = overlap_idx st + batch_size).
  { apply to_int32_id. unfold Int32.in_range, Int32.min_signed, Int32.max_signed in *.
    apply claim_range_some in Hclaim as (Hne & _ & _). lia. }
  rewrite map_app. apply Forall_app. split; [exact Hall|].
  constructor; [|constructor]. unfold exact_range. simpl. rewrite Ht, E. reflexivity.
Qed.

Lemma exact_ranges_run e cigar0 sched :
  sound_sizes ->
  Forall (exact_range n batch_size) (map snd (claimed (run sched (init e cigar0)))).
Proof.
  intros Hs.
  assert (H : cursor_ok ovs batch_size (run sched (init e cigar0)) /\
              Forall (exact_range n batch_size)
                     (map snd (claimed (run sched (init e cigar0))))).
  { apply (run_invariant C ovs qp tp max_query_size max_target_size batch_size
             (fun st => cursor_ok ovs batch_size st /\
                        Forall (exact_range n batch_size) (map snd (claimed st)))).
    - intros k st st' [Hc Hall] Hk. split.
      + eapply cursor_ok_step; eauto.
      + eapply exact_ranges_step; eauto.
    - split; [apply cursor_ok_init, n_nonneg|constructor]. }
  apply H.
Qed.

(** Ranges laid end to end from [a] to [c], each as long as the critical
    section makes it: there are ceil ((c - a) / batch_size) of them. *)
Lemma exact_tiling_count a rs c :
  1 <= batch_size -> c <= n ->
  tiling batch_size a rs c -> Forall (exact_range n batch_size) rs ->
  Z.of_nat (length rs) = (c - a + batch_size - 1) / batch_size.
Proof.
  intros Hb Hc Ht.
  induction Ht as [a|a b rs c Hab Hsz Hrest IH]; intros Hall.
  - replace (a - a + batch_size - 1) with (batch_size - 1) by lia.
    rewrite Z.div_small by lia. reflexivity.
  - apply Forall_cons_1 in Hall as [Hx Hall]. unfold exact_range in Hx. simpl in Hx.
    specialize (IH Hc Hall). cbn [length]. rewrite Nat2Z.inj_succ, IH.
    pose proof (tiling_le _ _ _ _ Hrest) as Hle.
    destruct (Z.min_spec (a + batch_size) n) as [[Hlt E]|[Hge E]]; rewrite E in Hx.
    + subst b.
      replace (c - a + batch_size - 1) with (c - (a + batch_size) + batch_size - 1 + 1 * batch_size)
        by lia.
      rewrite Z.div_add by lia. lia.
    + assert (Hcb : c = b) by lia. subst c.
      replace (b - b + batch_size - 1) with (batch_size - 1) by lia.
      rewrite (Z.div_small (batch_size - 1)) by lia.
      assert (E1 : (b - a + batch_size - 1) / batch_size = 1)
        by (symmetry; apply (Z.div_unique _ _ 1 (b - a - 1)); lia).
      rewrite E1. lia.
Qed.

(** *** Entries beyond the cursor are not touched *)

Lemma cigar_length_step k st st' :
  step k st = Some st' -> length (cigar st') = length (cigar st).
Proof. intros H. engine_cases H; try reflexivity. apply store_cigars_length. Qed.

Lemma cigar_length_run e cigar0 sched :
  length (cigar (run sched (init e cigar0))) = length cigar0.
Proof.
  apply (run_invariant C ovs qp tp max_query_size max_target_size batch_size
           (fun st => length (cigar st) = length cigar0)); [|reflexivity].
  intros k st st' Hst Hk. rewrite <- Hst. eapply cigar_length_step, Hk.
Qed.

Definition beyond_untouched (cigar0 : list string) (st : state) : Prop :=
  forall i : nat, overlap_idx st <= Z.of_nat i -> cigar st !! i = cigar0 !! i.

Lemma beyond_untouched_step cigar0 k st st' :
  sound_sizes -> inv st -> beyond_untouched cigar0 st -> step k st = Some st' ->
  beyond_untouched cigar0 st'.
Proof.
  intros Hs Hinv Hb H.
  pose proof (inv_cursor _ _ _ _ _ _ Hinv) as [Hr Hc].
  pose proof (inv_holding _ _ _ _ _ _ Hinv) as Hhold.
  engine_cases H; try exact Hb.
  - destruct (claim_advances ovs batch_size _ _ _ Hs Hr Hc Hclaim) as (-> & Ht & _).
    intros i Hi. simpl in Hi. apply Hb. lia.
  - apply add_alignments_success in Hadd. simpl in Hadd. subst l.
    destruct (Hhold _ _ _ _ He Hpc) as (H0 & Hlt & Hle).
    intros i Hi. simpl in *. rewrite store_cigars_other; [apply Hb, Hi|exact H0|].
    right. rewrite length_map, slice_length by lia. lia.
Qed.

(** *** Alignments in flight *)

Lemma total_held_bound es :
  Forall (fun e => 0 <= held e <= batch_size) es ->
  0 <= total_held es <= Z.of_nat (length es) * batch_size.
Proof.
  induction 1 as [|e es He _ IH]; simpl total_held; cbn [length]; [lia|].
  rewrite Nat2Z.inj_succ. nia.
Qed.

Lemma held_bounded_step k st st' :
  sound_sizes -> cursor_ok ovs batch_size st ->
  Forall (fun e => 0 <= held e <= batch_size) (engines st) ->
  step k st = Some st' ->
  Forall (fun e => 0 <= held e <= batch_size) (engines st').
Proof.
  intros Hs [Hr Hc] Hall H. pose proof Hs as [[Hb _] _].
  engine_cases H; apply Forall_insert; try exact Hall; unfold held; simpl; try lia.
  destruct (claim_advances ovs batch_size _ _ _ Hs Hr Hc Hclaim) as (-> & Ht & Hsz & _). lia.
Qed.

Lemma held_bounded_run e cigar0 sched :
  sound_sizes ->
  Forall (fun x => 0 <= held x <= batch_size) (engines (run sched (init e cigar0))).
Proof.
  intros Hs. pose proof Hs as [[Hb _] _].
  assert (H : cursor_ok ovs batch_size (run sched (init e cigar0)) /\
              Forall (fun x => 0 <= held x <= batch_size)
                     (engines (run sched (init e cigar0)))).
  { apply (run_invariant C ovs qp tp max_query_size max_target_size batch_size
             (fun st => cursor_ok ovs batch_size st /\
                        Forall (fun x => 0 <= held x <= batch_size) (engines st))).
    - intros k st st' [Hc Hall] Hk. split.
      + eapply cursor_ok_step; eauto.
      + eapply held_bounded_step; eauto.
    - split; [apply cursor_ok_init, n_nonneg|].
      apply Forall_forall. intros x Hx. apply elem_of_replicate in Hx as [-> _].
      unfold held. simpl. lia. }
  apply H.
Qed.

(** *** Streams *)

Lemma count_calls_app f l1 l2 :
  count_calls f (l1 ++ l2) = (count_calls f l1 + count_calls f l2)%nat.
Proof. unfold count_calls. rewrite List.filter_app, length_app. reflexivity. Qed.

Lemma stream_lifecycle_step k st st' :
  Forall stream_lifecycle (engines st) -> step k st = Some st' ->
  Forall stream_lifecycle (engines st').
Proof.
  intros Hall H.
  assert (Hk : forall e, engines st !! k = Some e -> stream_lifecycle e)
    by (intros e He; eapply Forall_lookup_1; eauto).
  engine_cases H; apply Forall_insert; try exact Hall; specialize (Hk _ eq_refl);
    unfold stream_lifecycle in *; rewrite Hpc in Hk; simpl.
  - split; reflexivity.
  - exact Hk.
  - destruct Hk as [Hc Hd]. rewrite !count_calls_app, Hc, Hd.
    repeat split. apply last_snoc.
  - destruct Hk as [Hc Hd]. rewrite !count_calls_app, Hc, Hd. split; reflexivity.
  - exact Hk.
Qed.

(** *** No failed submission is passed over *)

Definition submitted (i : nat) : Prop :=
  exists o, ovs !! i = Some o /\
    add_alignment C (al_query (alignment_of o)) (al_target (alignment_of o))
                  (al_reverse (alignment_of o)) = success.

Definition accounted (st : state) : Prop :=
  forall i : nat, Z.of_nat i < overlap_idx st -> submitted i \/ pending (engines st) i.

Lemma add_alignments_all_accepted todo batch als :
  Alignment.add_alignments C qp tp todo batch = (success, als) ->
  forall o, In o todo ->
    add_alignment C (al_query (alignment_of o)) (al_target (alignment_of o))
                  (al_reverse (alignment_of o)) = success.
Proof.
  revert batch. induction todo as [|x todo IH]; intros batch H o Hin; [contradiction|].
  simpl in H. destruct (add_alignment C _ _ _) eqn:E; [|discriminate].
  destruct Hin as [->|Hin]; [exact E|eapply IH; eauto].
Qed.

Lemma accounted_step k st st' :
  sound_sizes -> inv st -> accounted st -> step k st = Some st' -> accounted st'.
Proof.
  intros Hs Hinv Hacc H.
  pose proof (inv_cursor _ _ _ _ _ _ Hinv) as [Hr Hc].
  pose proof (inv_holding _ _ _ _ _ _ Hinv) as Hhold.
  engine_cases H.
  - intros i Hi. destruct (Hacc i Hi) as [Hw|Hp]; [left; exact Hw|right].
    eapply pending_insert_idle; eauto.
  - destruct (claim_advances ovs batch_size _ _ _ Hs Hr Hc Hclaim) as (-> & Ht & _).
    intros i Hi. destruct (Z.lt_ge_cases (Z.of_nat i) (overlap_idx st)) as [Hlt|Hge].
    + destruct (Hacc i Hlt) as [Hw|Hp]; [left; exact Hw|right].
      eapply pending_insert_idle; eauto.
    + right. eapply pending_insert_holding; eauto; simpl; lia.
  - intros i Hi. destruct (Hacc i Hi) as [Hw|Hp]; [left; exact Hw|right].
    eapply pending_insert_idle; eauto.
  - destruct (Hhold _ _ _ _ He Hpc) as (H0 & Hlt & Hle).
    pose proof (add_alignments_all_accepted _ _ _ Hadd) as Hok.
    intros i Hi. destruct (Hacc i Hi) as [Hw|Hp]; [left; exact Hw|].
    destruct (pending_release _ _ _
                (log_call (set_pc e EngineClaim) (aligner_work held_start held_end))
                _ _ _ He Hpc Hp) as [Hin|Hp']; [left|right; exact Hp'].
    assert (Hi' : (i < length ovs)%nat) by (unfold get_size in *; lia).
    destruct (lookup_lt_is_Some_2 ovs i Hi') as [o Ho].
    exists o. split; [exact Ho|]. apply Hok.
    apply list_elem_of_In. apply list_elem_of_lookup.
    exists (i - Z.to_nat held_start)%nat.
    rewrite slice_lookup by lia. rewrite <- Ho. f_equal. lia.
  - intros i Hi. right. eapply pending_insert_threw; eauto.
Qed.

Lemma accounted_run e cigar0 sched :
  sound_sizes -> length cigar0 = length ovs ->
  inv (run sched (init e cigar0)) /\ accounted (run sched (init e cigar0)).
Proof.
  intros Hs Hlen.
  apply (run_invariant C ovs qp tp max_query_size max_target_size batch_size
           (fun st => inv st /\ accounted st)).
  - intros k st st' [Hi Ha] Hk. split.
    + eapply inv_step; eauto.
    + eapply accounted_step; eauto.
  - split; [apply inv_init, Hlen|]. intros i Hi. simpl in Hi. lia.
Qed.

Lemma beyond_untouched_run e cigar0 sched :
  sound_sizes -> length cigar0 = length ovs ->
  beyond_untouched cigar0 (run sched (init e cigar0)).
Proof.
  intros Hs Hlen.
  assert (H : inv (run sched (init e cigar0)) /\
              beyond_untouched cigar0 (run sched (init e cigar0))).
  { apply (run_invariant C ovs qp tp max_query_size max_target_size batch_size
             (fun st => inv st /\ beyond_untouched cigar0 st)).
    - intros k st st' [Hi Hb] Hk. split.
      + eapply inv_step; eauto.
      + eapply beyond_untouched_step; eauto.
    - split; [apply inv_init, Hlen|]. intros i _. reflexivity. }
  apply H.
Qed.

Lemma total_held_run e cigar0 sched :
  sound_sizes -> 0 <= e ->
  0 <= total_held (engines (run sched (init e cigar0))) <= e * batch_size.
Proof.
  intros Hs He.
  pose proof (total_held_bound _ (held_bounded_run e cigar0 sched Hs)) as H.
  rewrite (engines_length_run C ovs qp tp max_query_size max_target_size batch_size) in H.
  simpl in H. rewrite length_replicate, Z2Nat.id in H by exact He. exact H.
Qed.

Lemma stream_lifecycle_run e cigar0 sched :
  Forall stream_lifecycle (engines (run sched (init e cigar0))).
Proof.
  apply (run_invariant C ovs qp tp max_query_size max_target_size batch_size
           (fun st => Forall stream_lifecycle (engines st))).
  - intros k st st'. apply stream_lifecycle_step.
  - apply Forall_forall. intros x Hx. apply elem_of_replicate in Hx as [-> _]. reflexivity.
Qed.

Lemma engines_nonempty e cigar0 sched :
  0 < e -> exists x, engines (run sched (init e cigar0)) !! 0%nat = Some x.
Proof.
  intros He. apply lookup_lt_is_Some_2.
  rewrite (engines_length_run C ovs qp tp max_query_size max_target_size batch_size).
  simpl. rewrite length_replicate. lia.
Qed.

Lemma returned_cursor e cigar0 sched c :
  sound_sizes -> length cigar0 = length ovs -> 0 < e ->
  outcome_of (run sched (init e cigar0)) = Returned c ->
  overlap_idx (run sched (init e cigar0)) = n /\
  forall k x, engines (run sched (init e cigar0)) !! k = Some x -> pc x = EngineReturned.
Proof.
  intros Hs Hlen He Hout.
  pose proof (inv_run C ovs qp tp max_query_size max_target_size batch_size
                      e cigar0 sched Hs Hlen) as Hinv.
  unfold outcome_of in Hout.
  destruct (forallb terminated (engines (run sched (init e cigar0)))) eqn:Ht; [|discriminate].
  destruct (first_thrown (engines (run sched (init e cigar0)))) eqn:Hf; [discriminate|].
  pose proof (all_returned _ Ht Hf) as Hall. split; [|exact Hall].
  destruct (engines_nonempty e cigar0 sched He) as [x Hx].
  eapply inv_returned; [exact Hinv|exact Hx|]. eapply Hall, Hx.
Qed.

Lemma returned_all_submitted e cigar0 sched c :
  sound_sizes -> length cigar0 = length ovs -> 0 < e ->
  outcome_of (run sched (init e cigar0)) = Returned c ->
  forall o, In o ovs ->
    add_alignment C (al_query (alignment_of o)) (al_target (alignment_of o))
                  (al_reverse (alignment_of o)) = success.
Proof.
  intros Hs Hlen He Hout o Hin.
  destruct (returned_cursor e cigar0 sched c Hs Hlen He Hout) as [Hn Hall].
  destruct (accounted_run e cigar0 sched Hs Hlen) as [_ Hacc].
  apply list_elem_of_In, list_elem_of_lookup in Hin as [i Hi].
  pose proof (lookup_lt_Some _ _ _ Hi) as Hlt.
  destruct (Hacc i) as [(o' & Ho' & Hok)|Hp].
  - rewrite Hn. unfold get_size. lia.
  - rewrite Hi in Ho'. injection Ho' as <-. exact Hok.
  - exfalso. destruct Hp as [(k & x & s & t & Hx & Hp & _)|(k & x & s & Hx & Hp)];
      rewrite (Hall _ _ Hx) in Hp; discriminate.
Qed.

Lemma terminates_after e cigar0 sched :
  sound_sizes ->
  exists sched',
    forallb terminated (engines (run (sched ++ sched') (init e cigar0))) = true.
Proof.
  intros Hs.
  pose proof (cursor_ok_run C ovs qp tp max_query_size max_target_size batch_size
                            e cigar0 sched Hs) as Hcur.
  destruct (completes_from C ovs qp tp max_query_size max_target_size batch_size
              (Z.to_nat (measure ovs (run sched (init e cigar0)))) Hs _ Hcur ltac:(lia))
    as [sched' Hdone].
  exists sched'. rewrite (run_app C ovs qp tp max_query_size max_target_size batch_size).
  exact Hdone.
Qed.
End MoreEngineFacts.

(** ** Further properties of the threads *)

Section MorePipelineFacts.
Import ThreadsafeProducerConsumer Pipeline Observations.

Context (C : Collaborators) (P : ApplicationParameters).

Abbreviation worker_step := (Pipeline.worker_step C P).
Abbreviation writer_step := (Pipeline.writer_step C P).
Abbreviation sys_step := (Pipeline.step C P).
Abbreviation sys_run := (Pipeline.run C P).
Abbreviation batch_pairs := (process_one_batch_pairs (all_to_all P)).

(** The cases of one step of the process: main spawns, main turns to
    joining, main joins, main returns, a worker moves, a writer moves. *)
Ltac sys_cases H :=
  unfold Pipeline.step in H;
  match type of H with
  | context [aborted ?s] => destruct (aborted s) eqn:Hab; [discriminate H|]
  end;
  match type of H with
  | match ?l with _ => _ end = _ => destruct l as [|d o sched|d]
  end;
  [ unfold Pipeline.main_step in H;
    match type of H with
    | context [main ?s] => destruct (main s) as [k|k|] eqn:Hmain
    end;
    [ match type of H with
      | context [if ?c then _ else _] => destruct c eqn:Hlt
      end; injection H as <-
    | match type of H with
      | context [if ?c then _ else _] => destruct c eqn:Hlt
      end;
      [ match type of H with
        | context [devices ?s !! ?i] =>
            destruct (devices s !! i) as [dev|] eqn:Hd; [|discriminate H]
        end;
        match type of H with
        | context [worker ?x] => destruct (worker x) eqn:Hw
        end; try discriminate H; injection H as <-
      | injection H as <- ]
    | discriminate H ]
  | match type of H with
    | context [devices ?s !! ?i] =>
        destruct (devices s !! i) as [dev|] eqn:Hd; [|discriminate H]
    end;
    match type of H with
    | context [Pipeline.worker_step C P ?a ?b ?c ?x ?bs] =>
        destruct (Pipeline.worker_step C P a b c x bs) as [[dev' bs']|] eqn:Hw;
        [|discriminate H]
    end;
    injection H as <-
  | match type of H with
    | context [devices ?s !! ?i] =>
        destruct (devices s !! i) as [dev|] eqn:Hd; [|discriminate H]
    end;
    match type of H with
    | context [Pipeline.writer_step C P ?a ?x ?out] =>
        destruct (Pipeline.writer_step C P a x out) as [[dev' out']|] eqn:Hw;
        [|discriminate H]
    end;
    injection H as <- ].

(** The number of devices main loops over. *)
Definition device_count : nat := Z.to_nat (num_devices P).

(** Where main stands and which devices exist. *)
Definition main_shape (s : system) : Prop :=
  match main s with
  | MainSpawning k => length (devices s) = k /\ (k <= device_count)%nat
  | MainJoining k =>
      length (devices s) = device_count /\ (k <= device_count)%nat /\
      forall d dev, (d < k)%nat -> devices s !! d = Some dev -> worker dev = WorkerReturned
  | MainReturned =>
      length (devices s) = device_count /\
      forall d dev, devices s !! d = Some dev -> worker dev = WorkerReturned
  end.

Lemma worker_step_from_returned d o sched dev bs :
  worker dev = WorkerReturned -> worker_step d o sched dev bs = None.
Proof. unfold Pipeline.worker_step. intros ->. reflexivity. Qed.

Lemma writer_step_worker d dev out dev' out' :
  writer_step d dev out = Some (dev', out') -> worker dev' = worker dev.
Proof.
  unfold Pipeline.writer_step. destruct (writer dev); try discriminate.
  - intros H. injection H as <- _. reflexivity.
  - destruct (get_next_element _); try discriminate; intros H; injection H as <- _; reflexivity.
Qed.

Lemma returned_kept (R : nat -> Prop) (devs : list device) d dev dev' :
  devs !! d = Some dev ->
  (worker dev = WorkerReturned -> worker dev' = WorkerReturned) ->
  (forall d0 dev0, R d0 -> devs !! d0 = Some dev0 -> worker dev0 = WorkerReturned) ->
  forall d0 dev0, R d0 -> <[d := dev']> devs !! d0 = Some dev0 -> worker dev0 = WorkerReturned.
Proof.
  intros Hd Hkeep Hret d0 dev0 HR Hlook.
  destruct (decide (d0 = d)) as [->|Hne].
  - rewrite list_lookup_insert_eq in Hlook by (eapply lookup_lt_Some, Hd).
    injection Hlook as <-. apply Hkeep, (Hret d); assumption.
  - rewrite list_lookup_insert_ne in Hlook by congruence. apply (Hret d0); assumption.
Qed.

Lemma main_shape_step l s s' : main_shape s -> sys_step l s = Some s' -> main_shape s'.
Proof.
  unfold main_shape. intros Hs H. sys_cases H; simpl; rewrite ?Hmain in Hs.
  - destruct Hs as [Hlen Hk]. rewrite length_app. simpl.
    unfold device_count in *. split; lia.
  - destruct Hs as [Hlen Hk]. unfold device_count in *.
    split; [lia|]. split; [lia|]. intros d dev Hd. lia.
  - destruct Hs as (Hlen & Hk & Hret). rewrite length_insert.
    unfold device_count in *. split; [exact Hlen|]. split; [lia|].
    intros d dev0 Hd0 Hlook.
    destruct (decide (d = k)) as [->|Hne].
    + rewrite list_lookup_insert_eq in Hlook by (eapply lookup_lt_Some, Hd).
      injection Hlook as <-. exact Hw.
    + rewrite list_lookup_insert_ne in Hlook by congruence.
      apply (Hret d); [lia|exact Hlook].
  - destruct Hs as (Hlen & Hk & Hret). split; [exact Hlen|].
    intros d dev Hlook. apply (Hret d); [|exact Hlook].
    pose proof (lookup_lt_Some _ _ _ Hlook). unfold device_count in *. lia.
  - assert (Hkeep : worker dev = WorkerReturned -> worker dev' = WorkerReturned).
    { intros Hr. rewrite (worker_step_from_returned _ _ _ _ _ Hr) in Hw. discriminate. }
    destruct (main s) as [k|k|]; rewrite ?length_insert.
    + exact Hs.
    + destruct Hs as (Hlen & Hk & Hret). split; [exact Hlen|]. split; [exact Hk|].
      apply (returned_kept (fun d0 => (d0 < k)%nat) _ _ _ _ Hd Hkeep Hret).
    + destruct Hs as (Hlen & Hret). split; [exact Hlen|].
      intros d0 dev0.
      apply (returned_kept (fun _ => True) _ _ _ _ Hd Hkeep (fun d1 dev1 _ => Hret d1 dev1)
               d0 dev0 I).
  - assert (Hkeep : worker dev = WorkerReturned -> worker dev' = WorkerReturned).
    { intros Hr. rewrite (writer_step_worker _ _ _ _ _ Hw). exact Hr. }
    destruct (main s) as [k|k|]; rewrite ?length_insert.
    + exact Hs.
    + destruct Hs as (Hlen & Hk & Hret). split; [exact Hlen|]. split; [exact Hk|].
      apply (returned_kept (fun d0 => (d0 < k)%nat) _ _ _ _ Hd Hkeep Hret).
    + destruct Hs as (Hlen & Hret). split; [exact Hlen|].
      intros d0 dev0.
      apply (returned_kept (fun _ => True) _ _ _ _ Hd Hkeep (fun d1 dev1 _ => Hret d1 dev1)
               d0 dev0 I).
Qed.

Lemma main_shape_reachable ls batches : main_shape (sys_run ls (initial batches)).
Proof.
  apply (sys_run_invariant C P); [apply main_shape_step|].
  unfold main_shape, device_count. simpl. split; [reflexivity|lia].
Qed.

(** Lifting of an invariant of the device with index [d] to every
    reachable state. *)
Lemma indexed_invariant (Q : nat -> device -> Prop) :
  (forall d, Q d (new_device d)) ->
  (forall d o sched dev bs dev' bs',
      Q d dev -> worker_step d o sched dev bs = Some (dev', bs') -> Q d dev') ->
  (forall d dev out dev' out',
      Q d dev -> writer_step d dev out = Some (dev', out') -> Q d dev') ->
  (forall d dev,
      Q d dev -> worker dev = WorkerReturned ->
      Q d (emit dev [Call MainThread (cudaSetDevice (Z.of_nat d));
                     JoinedWorker;
                     Call MainThread cudaStreamDestroy])) ->
  forall ls batches d dev,
    devices (sys_run ls (initial batches)) !! d = Some dev -> Q d dev.
Proof.
  intros Qnew Qworker Qwriter Qmain ls batches.
  assert (H : main_shape (sys_run ls (initial batches)) /\
              forall d dev, devices (sys_run ls (initial batches)) !! d = Some dev -> Q d dev).
  { apply (sys_run_invariant C P
             (fun s => main_shape s /\ forall d dev, devices s !! d = Some dev -> Q d dev)).
    - intros l s s' [Hshape Hs] H.
      split; [eapply main_shape_step; eauto|].
      unfold main_shape in Hshape.
      assert (Hins : forall d dev dev',
                 devices s !! d = Some dev -> Q d dev' ->
                 forall d0 dev0, <[d := dev']> (devices s) !! d0 = Some dev0 -> Q d0 dev0).
      { intros d dev dev' Hd HQ d0 dev0 Hlook.
        destruct (decide (d0 = d)) as [->|Hne].
        - rewrite list_lookup_insert_eq in Hlook by (eapply lookup_lt_Some, Hd).
          injection Hlook as <-. exact HQ.
        - rewrite list_lookup_insert_ne in Hlook by congruence. apply Hs, Hlook. }
      sys_cases H; simpl; rewrite ?Hmain in Hshape; try exact Hs.
      + destruct Hshape as [Hlen _]. intros d dev Hlook.
        apply lookup_app_Some in Hlook as [Hlook|[Hge Hlook]]; [apply Hs, Hlook|].
        rewrite Hlen in *. destruct (d - k)%nat as [|j] eqn:E; [|discriminate].
        simpl in Hlook. injection Hlook as <-.
        replace d with k by lia. apply Qnew.
      + apply (Hins _ _ _ Hd). apply Qmain; [apply Hs, Hd|exact Hw].
      + apply (Hins _ _ _ Hd). eapply Qworker; [apply Hs, Hd|exact Hw].
      + apply (Hins _ _ _ Hd). eapply Qwriter; [apply Hs, Hd|exact Hw].
    - split; [|intros d dev Hlook; discriminate].
      unfold main_shape, device_count. simpl. split; [reflexivity|lia]. }
  apply H.
Qed.

(** *** Every step extends the trace of its device *)

Lemma worker_step_trace d o sched dev bs dev' bs' :
  worker_step d o sched dev bs = Some (dev', bs') ->
  exists evs, trace dev' = trace dev ++ evs.
Proof.
  unfold Pipeline.worker_step. intros H.
  destruct (worker dev) as [| |[|p todo]| | | | | |]; simpl in H; try discriminate H.
  - injection H as <- _. eexists. reflexivity.
  - destruct bs as [|b bs0]; simpl in H; [|destruct (device_batches b)];
      injection H as <- _; eexists; reflexivity.
  - injection H as <- _. exists []. simpl. rewrite app_nil_r. reflexivity.
  - destruct (process_pair C P o sched p) as [[evs [x|s]]|]; [| |discriminate];
      injection H as <- _; eexists; reflexivity.
  - injection H as <- _. eexists. reflexivity.
  - destruct (writer dev); try discriminate. injection H as <- _. eexists. reflexivity.
  - injection H as <- _. eexists. reflexivity.
Qed.

Lemma writer_step_trace d dev out dev' out' :
  writer_step d dev out = Some (dev', out') ->
  exists evs, trace dev' = trace dev ++ evs.
Proof.
  unfold Pipeline.writer_step. intros H. destruct (writer dev); try discriminate H.
  - injection H as <- _. eexists. reflexivity.
  - destruct (get_next_element _); try discriminate H; injection H as <- _;
      eexists; reflexivity.
Qed.

(** *** Which device each thread selects *)

Definition selects_only (d : nat) (ev : event) : Prop :=
  match ev with
  | Call _ (cudaSetDevice d') => d' = Z.of_nat d
  | _ => True
  end.

Definition starts_on (d : nat) (who : thread) (tr : list event) : Prop :=
  hd_error (calls_of who tr) = Some (cudaSetDevice (Z.of_nat d)).

Definition pinned_inv (d : nat) (dev : device) : Prop :=
  Forall (selects_only d) (trace dev) /\
  starts_on d MainThread (trace dev) /\
  match worker dev with
  | WorkerEntry => calls_of WorkerThread (trace dev) = []
  | _ => starts_on d WorkerThread (trace dev)
  end /\
  match writer dev with
  | WriterNotStarted | WriterEntry => calls_of WriterThread (trace dev) = []
  | _ => starts_on d WriterThread (trace dev)
  end /\
  (worker dev = WorkerEntry -> writer dev = WriterNotStarted).

Lemma calls_of_app who t1 t2 : calls_of who (t1 ++ t2) = calls_of who t1 ++ calls_of who t2.
Proof. apply flat_map_app. Qed.

Lemma starts_on_app d who tr evs : starts_on d who tr -> starts_on d who (tr ++ evs).
Proof.
  unfold starts_on. rewrite calls_of_app. destruct (calls_of who tr); [discriminate|].
  intros H. exact H.
Qed.

Lemma silent_selects_only d evs : forallb silent evs = true -> Forall (selects_only d) evs.
Proof.
  intros H. apply Forall_forall. intros ev Hin. rewrite list_elem_of_In in Hin.
  rewrite forallb_forall in H. specialize (H _ Hin).
  destruct ev as [[] []| | | | | | | | | | |]; try discriminate; exact I.
Qed.

Lemma silent_calls_of who evs :
  who <> WorkerThread -> forallb silent evs = true -> calls_of who evs = [].
Proof.
  intros Hwho. apply flat_map_silent. intros ev H.
  destruct ev as [[] []| | | | | | | | | | |]; try discriminate; destruct who; congruence.
Qed.

Ltac pinned_goal :=
  repeat match goal with
         | |- _ /\ _ => split
         | |- Forall _ (_ ++ _) => apply Forall_app; split
         | |- Forall _ (_ :: _) => constructor
         | |- Forall _ [] => constructor
         end;
  simpl; auto;
  try discriminate;
  try (apply starts_on_app; assumption);
  try (rewrite calls_of_app; simpl; rewrite ?app_nil_r; assumption).

Lemma pinned_inv_worker d o sched dev bs dev' bs' :
  pinned_inv d dev -> worker_step d o sched dev bs = Some (dev', bs') -> pinned_inv d dev'.
Proof.
  intros (Hall & Hm & Hwk & Hwr & Hns) H. unfold Pipeline.worker_step in H.
  destruct (worker dev) as [| |[|p todo]| | | | | |] eqn:Hpc; simpl in H; try discriminate H.
  - injection H as <- <-. rewrite (Hns eq_refl) in Hwr.
    unfold pinned_inv. simpl. pinned_goal.
    unfold starts_on. rewrite calls_of_app, Hwk. reflexivity.
  - destruct bs as [|b bs0]; simpl in H; [|destruct (device_batches b)];
      injection H as <- <-; unfold pinned_inv; simpl; pinned_goal;
      destruct (writer dev); pinned_goal.
  - injection H as <- <-. unfold pinned_inv. simpl. pinned_goal.
  - destruct (process_pair C P o sched p) as [[evs [x|s]]|] eqn:Hpp; [| |discriminate];
      pose proof (process_pair_silent C P _ _ _ _ _ Hpp) as Hsil;
      injection H as <- <-; unfold pinned_inv; simpl; pinned_goal;
      try (apply silent_selects_only, Hsil).
    + destruct (writer dev); pinned_goal;
        rewrite !calls_of_app, (silent_calls_of WriterThread _ ltac:(discriminate) Hsil);
        simpl; rewrite ?app_nil_r; assumption.
    + destruct (writer dev); pinned_goal;
        rewrite !calls_of_app, (silent_calls_of WriterThread _ ltac:(discriminate) Hsil);
        simpl; rewrite ?app_nil_r; assumption.
  - injection H as <- <-. unfold pinned_inv. simpl. pinned_goal.
    destruct (writer dev); pinned_goal.
  - destruct (writer dev) eqn:Hw; try discriminate. injection H as <- <-.
    unfold pinned_inv. simpl. rewrite Hw. pinned_goal.
  - injection H as <- <-. unfold pinned_inv. simpl. pinned_goal.
    destruct (writer dev); pinned_goal.
Qed.

Lemma pinned_inv_writer d dev out dev' out' :
  pinned_inv d dev -> writer_step d dev out = Some (dev', out') -> pinned_inv d dev'.
Proof.
  intros (Hall & Hm & Hwk & Hwr & Hns) H. unfold Pipeline.writer_step in H.
  destruct (writer dev) eqn:Hw; try discriminate H.
  - injection H as <- <-. unfold pinned_inv. simpl. pinned_goal.
    + destruct (worker dev); pinned_goal.
    + unfold starts_on. rewrite calls_of_app, Hwr. reflexivity.
    + intros Hen. specialize (Hns Hen). discriminate.
  - destruct (get_next_element _) as [|x q'|]; try discriminate H;
      injection H as <- <-; unfold pinned_inv; simpl; rewrite ?Hw; pinned_goal;
      try (intros Hen; specialize (Hns Hen); discriminate);
      destruct (worker dev); pinned_goal.
Qed.

Lemma pinned_inv_reachable ls batches d dev :
  devices (sys_run ls (initial batches)) !! d = Some dev -> pinned_inv d dev.
Proof.
  apply indexed_invariant.
  - intros d0. unfold pinned_inv. simpl. repeat split; repeat constructor.
  - apply pinned_inv_worker.
  - apply pinned_inv_writer.
  - intros d0 dev0 (Hall & Hm & Hwk & Hwr & Hns) Hret. unfold pinned_inv. simpl.
    rewrite Hret in *. pinned_goal. destruct (writer dev0); pinned_goal.
Qed.

Lemma starts_on_pinned d who tr :
  starts_on d who tr -> pinned_before_device_calls (Z.of_nat d) (calls_of who tr) = true.
Proof.
  unfold starts_on. destruct (calls_of who tr) as [|c rest]; [discriminate|].
  simpl. intros H. injection H as ->. apply Z.eqb_refl.
Qed.

(** *** Without alignment engines *)

Lemma process_pair_no_engines o sched p :
  alignment_engines P <= 0 ->
  process_pair C P o sched p
  = Some ([Call WorkerThread matcher_and_overlapper],
          inl (mkOverlapsAndCigars (get_overlaps C (fst p) (snd p)) [])).
Proof.
  intros H. unfold process_pair.
  destruct (alignment_engines P >? 0) eqn:E; [|reflexivity].
  apply Z.gtb_lt in E. lia.
Qed.

(** Events that do not come from align_overlaps. *)
Definition no_alignment (ev : event) : Prop :=
  match ev with
  | EngineThread _ _ => False
  | Call _ cudaMemGetInfo => False
  | Pushed _ x => cigars x = []
  | _ => True
  end.

Definition unaligned (s : system) : Prop :=
  aborted s = false /\
  Forall (fun dev => is_terminated (worker dev) = false /\
                     Forall no_alignment (trace dev)) (devices s).

Lemma unaligned_step l s s' :
  alignment_engines P <= 0 -> unaligned s -> sys_step l s = Some s' -> unaligned s'.
Proof.
  intros He [Ha Hs] H. unfold unaligned.
  sys_cases H; simpl; try (split; [assumption|]); try exact Hs.
  - apply Forall_app. split; [exact Hs|]. repeat constructor.
  - apply Forall_insert; [exact Hs|].
    destruct (Forall_lookup_1 _ _ _ _ Hs Hd) as [Ht Hall]. simpl.
    split; [exact Ht|]. apply Forall_app. split; [exact Hall|repeat constructor].
  - destruct (Forall_lookup_1 _ _ _ _ Hs Hd) as [Ht Hall].
    assert (Hdev' : is_terminated (worker dev') = false /\ Forall no_alignment (trace dev')).
    { unfold Pipeline.worker_step in Hw.
      destruct (worker dev) as [| |[|p todo]| | | | | |] eqn:Hpc; simpl in Hw;
        try discriminate Hw.
      - injection Hw as <- <-. simpl. split; [reflexivity|].
        apply Forall_app. split; [exact Hall|repeat constructor].
      - destruct (batches_of_indices s) as [|b bs0]; simpl in Hw;
          [|destruct (device_batches b)]; injection Hw as <- <-; simpl;
          (split; [reflexivity|]); apply Forall_app; (split; [exact Hall|repeat constructor]).
      - injection Hw as <- <-. simpl. split; [reflexivity|exact Hall].
      - rewrite (process_pair_no_engines _ _ _ He) in Hw. injection Hw as <- <-. simpl.
        split; [reflexivity|]. apply Forall_app. split; [exact Hall|repeat constructor].
      - injection Hw as <- <-. simpl. split; [reflexivity|].
        apply Forall_app. split; [exact Hall|repeat constructor].
      - destruct (writer dev); try discriminate. injection Hw as <- <-. simpl.
        split; [reflexivity|]. apply Forall_app. split; [exact Hall|repeat constructor].
      - injection Hw as <- <-. simpl. split; [reflexivity|].
        apply Forall_app. split; [exact Hall|repeat constructor]. }
    split; [apply Hdev'|]. apply Forall_insert; [exact Hs|exact Hdev'].
  - apply Forall_insert; [exact Hs|].
    destruct (Forall_lookup_1 _ _ _ _ Hs Hd) as [Ht Hall].
    rewrite (writer_step_worker _ _ _ _ _ Hw). split; [exact Ht|].
    unfold Pipeline.writer_step in Hw. destruct (writer dev); try discriminate Hw.
    + injection Hw as <- _. simpl. apply Forall_app. split; [exact Hall|repeat constructor].
    + destruct (get_next_element _); try discriminate Hw; injection Hw as <- _; simpl;
        apply Forall_app; (split; [exact Hall|repeat constructor]).
Qed.

Lemma unaligned_reachable ls batches :
  alignment_engines P <= 0 -> unaligned (sys_run ls (initial batches)).
Proof.
  intros He. apply (sys_run_invariant C P); [intros l s s'; apply unaligned_step, He|].
  split; [reflexivity|constructor].
Qed.

Lemma no_alignment_engine_threads tr : Forall no_alignment tr -> engine_threads_of tr = [].
Proof.
  induction 1 as [|ev tr Hev _ IH]; [reflexivity|].
  simpl. rewrite IH. destruct ev; try reflexivity. contradiction.
Qed.

(** *** After the signal *)

(** Events that are no work of the worker's batch loop. *)
Definition idle (ev : event) : Prop :=
  match ev with
  | Pushed _ _ | TookBatch _ | BatchesExhausted | Signalled | EngineThread _ _
  | Call WorkerThread matcher_and_overlapper | Call WorkerThread cudaMemGetInfo => False
  | _ => True
  end.

Definition signal_inv (dev : device) : Prop :=
  match after_signal (trace dev) with
  | None => has_signalled (worker dev) = false
  | Some post => has_signalled (worker dev) = true /\ Forall idle post
  end.

Lemma after_signal_app tr evs :
  after_signal (tr ++ evs)
  = match after_signal tr with
    | Some post => Some (post ++ evs)
    | None => after_signal evs
    end.
Proof.
  induction tr as [|ev tr IH]; [reflexivity|].
  destruct ev; simpl; try exact IH. reflexivity.
Qed.

Lemma after_signal_silent evs : forallb silent evs = true -> after_signal evs = None.
Proof.
  induction evs as [|ev evs IH]; [reflexivity|]. simpl. intros H.
  apply andb_true_iff in H as [Hev H]. destruct ev; try discriminate; simpl; apply IH, H.
Qed.

Ltac signal_goal Hinv :=
  unfold signal_inv in *; simpl; rewrite ?after_signal_app;
  match type of Hinv with
  | match after_signal ?tr with _ => _ end =>
      destruct (after_signal tr) as [post|]; simpl;
      [ destruct Hinv as [Hsig Hidle]; simpl in Hsig; try discriminate Hsig;
        try (split; [reflexivity|]; apply Forall_app; split; [exact Hidle|repeat constructor])
      | try discriminate Hinv; try reflexivity; try (split; [reflexivity|constructor]) ]
  end.

Lemma signal_inv_worker d o sched dev bs dev' bs' :
  signal_inv dev -> worker_step d o sched dev bs = Some (dev', bs') -> signal_inv dev'.
Proof.
  intros Hinv H. unfold signal_inv in Hinv. unfold Pipeline.worker_step in H.
  destruct (worker dev) as [| |[|p todo]| | | | | |] eqn:Hpc; simpl in H, Hinv;
    try discriminate H.
  - injection H as <- <-. signal_goal Hinv.
  - destruct bs as [|b bs0]; simpl in H; [|destruct (device_batches b)];
      injection H as <- <-; signal_goal Hinv.
  - injection H as <- <-. unfold signal_inv in *. simpl.
    destruct (after_signal (trace dev)); [destruct Hinv; discriminate|reflexivity].
  - destruct (process_pair C P o sched p) as [[evs [x|s]]|] eqn:Hpp; [| |discriminate];
      pose proof (process_pair_silent C P _ _ _ _ _ Hpp) as Hsil;
      injection H as <- <-; unfold signal_inv in *; simpl;
      rewrite ?after_signal_app, ?(after_signal_silent _ Hsil);
      (destruct (after_signal (trace dev)); [destruct Hinv; discriminate|reflexivity]).
  - injection H as <- <-. signal_goal Hinv.
  - destruct (writer dev); try discriminate. injection H as <- <-. signal_goal Hinv.
  - injection H as <- <-. signal_goal Hinv.
Qed.

Lemma signal_inv_writer d dev out dev' out' :
  signal_inv dev -> writer_step d dev out = Some (dev', out') -> signal_inv dev'.
Proof.
  intros Hinv H. unfold Pipeline.writer_step in H.
  destruct (writer dev); try discriminate H.
  - injection H as <- <-. unfold signal_inv in *. simpl. rewrite after_signal_app.
    destruct (after_signal (trace dev)); simpl; [|exact Hinv].
    destruct Hinv as [Hsig Hidle]. split; [exact Hsig|].
    apply Forall_app. split; [exact Hidle|repeat constructor].
  - destruct (get_next_element _); try discriminate H; injection H as <- <-;
      unfold signal_inv in *; simpl; rewrite after_signal_app;
      (destruct (after_signal (trace dev)); simpl; [|exact Hinv]);
      destruct Hinv as [Hsig Hidle]; (split; [exact Hsig|]);
      apply Forall_app; (split; [exact Hidle|repeat constructor]).
Qed.

Lemma signal_inv_reachable ls batches d dev :
  devices (sys_run ls (initial batches)) !! d = Some dev -> signal_inv dev.
Proof.
  apply (indexed_invariant (fun _ => signal_inv)).
  - intros d0. reflexivity.
  - apply signal_inv_worker.
  - apply signal_inv_writer.
  - intros d0 dev0 Hinv Hret. unfold signal_inv in *. simpl. rewrite after_signal_app.
    destruct (after_signal (trace dev0)); simpl; [|exact Hinv].
    destruct Hinv as [Hsig Hidle]. split; [exact Hsig|].
    apply Forall_app. split; [exact Hidle|repeat constructor].
Qed.

Lemma idle_nothing post :
  Forall idle post ->
  pushed_of post = [] /\ taken_of post = [] /\ engine_threads_of post = [] /\
  ~ In Signalled post.
Proof.
  induction 1 as [|ev post Hev _ (IH1 & IH2 & IH3 & IH4)]; [repeat split; auto|].
  destruct ev; try contradiction; simpl; repeat split; auto;
    intros [Hc|Hc]; try discriminate; auto.
Qed.

(** *** What is pushed for a pair *)

Lemma align_overlaps_returned (o : Alignment.oracle) (ovs : list Overlap) (qp tp : FastaParser)
      (e : Z) (cigar0 : list string) (sched : list nat) (c : list string) :
  Alignment.outcome_of (Alignment.align_overlaps C o ovs qp tp e cigar0 sched)
  = Alignment.Returned c ->
  length c = length cigar0 /\
  (0 < e -> 1 <= Alignment.batch_size_of o ovs e -> get_size ovs <= 2 ^ 30 ->
   length cigar0 = length ovs -> c = Alignment.aligned_cigars C ovs qp tp).
Proof.
  intros Hout. split.
  - unfold Alignment.align_overlaps in Hout. destruct (Alignment.max_sizes ovs) as [mq mt].
    unfold Alignment.outcome_of in Hout.
    destruct (forallb _ _); [|discriminate].
    destruct (Alignment.first_thrown _); [discriminate|].
    injection Hout as <-. apply cigar_length_run.
  - intros He Hb Hn Hlen.
    destruct (computed_batch_size_sound o ovs e ltac:(lia) Hb Hn) as [Hs _].
    unfold Alignment.align_overlaps in Hout. destruct (Alignment.max_sizes ovs) as [mq mt].
    pose proof (inv_run C ovs qp tp mq mt _ e cigar0 sched Hs Hlen) as Hinv.
    destruct (engines_nonempty C ovs qp tp mq mt (Alignment.batch_size_of o ovs e)
                e cigar0 sched He) as [x Hx].
    eapply (returned_outcome C ovs qp tp _ _ c Hinv); [|exact Hout].
    intros E. rewrite E in Hx. discriminate.
Qed.

Definition pushed_ok (ev : event) : Prop :=
  match ev with
  | Pushed p x =>
      overlaps x = get_overlaps C (fst p) (snd p) /\
      (alignment_engines P <= 0 -> cigars x = []) /\
      (0 < alignment_engines P -> length (cigars x) = length (overlaps x))
  | _ => True
  end.

Lemma process_pair_pushed o sched p evs x :
  process_pair C P o sched p = Some (evs, inl x) ->
  overlaps x = get_overlaps C (fst p) (snd p) /\
  (alignment_engines P <= 0 -> cigars x = [] /\ evs = [Call WorkerThread matcher_and_overlapper]) /\
  (0 < alignment_engines P ->
   length (cigars x) = length (overlaps x) /\
   (1 <= Alignment.batch_size_of o (overlaps x) (alignment_engines P) ->
    get_size (overlaps x) <= 2 ^ 30 ->
    cigars x = Alignment.aligned_cigars C (overlaps x) (query_parser P) (target_parser P))).
Proof.
  unfold process_pair. destruct (alignment_engines P >? 0) eqn:E.
  - apply Z.gtb_lt in E.
    destruct (Alignment.outcome_of _) as [c|s|] eqn:Hout; try discriminate.
    intros H. injection H as _ <-. simpl.
    destruct (align_overlaps_returned _ _ _ _ _ _ _ _ Hout) as [Hlen Hal].
    rewrite length_replicate in Hlen.
    split; [reflexivity|]. split; [lia|]. intros _. split; [exact Hlen|].
    intros Hb Hn. apply Hal; auto. apply length_replicate.
  - intros H. injection H as <- <-. simpl.
    split; [reflexivity|]. split; [auto|].
    intros He. exfalso. rewrite Z.gtb_ltb, Z.ltb_ge in E. lia.
Qed.

Lemma silent_pushed_ok evs : forallb silent evs = true -> Forall pushed_ok evs.
Proof.
  intros H. apply Forall_forall. intros ev Hin. rewrite list_elem_of_In in Hin.
  rewrite forallb_forall in H. specialize (H _ Hin). destruct ev; try discriminate; exact I.
Qed.

(** Every element pushed is the one process_one_device_batch builds for
    its pair, and the pair is one of a batch the worker took. *)
Definition pushed_inv (dev : device) : Prop :=
  Forall pushed_ok (trace dev) /\
  incl (pairs_of (trace dev) ++ todo_of (worker dev))
       (flat_map batch_pairs (taken_of (trace dev))).

Lemma pushed_inv_worker d o sched dev bs dev' bs' :
  pushed_inv dev -> worker_step d o sched dev bs = Some (dev', bs') -> pushed_inv dev'.
Proof.
  intros [Hall Hincl] H. unfold Pipeline.worker_step in H.
  destruct (worker dev) as [| |[|p todo]| | | | | |] eqn:Hpc; simpl in H, Hincl;
    rewrite ?app_nil_r in Hincl; try discriminate H.
  - injection H as <- <-. split; simpl.
    + apply Forall_app. split; [exact Hall|repeat constructor].
    + rewrite pairs_of_app, taken_of_app. simpl. rewrite !app_nil_r. exact Hincl.
  - destruct bs as [|b bs0]; simpl in H; [|destruct (device_batches b) eqn:Hdb];
      injection H as <- <-; split; simpl;
      try (apply Forall_app; split; [exact Hall|repeat constructor]);
      rewrite pairs_of_app, taken_of_app; simpl; rewrite ?app_nil_r; try exact Hincl.
    + rewrite flat_map_app. apply incl_appl. exact Hincl.
    + rewrite flat_map_app. simpl. rewrite app_nil_r.
      apply incl_app; [apply incl_appl; exact Hincl|].
      apply incl_appr, incl_refl.
  - injection H as <- <-. split; simpl; [exact Hall|rewrite app_nil_r; exact Hincl].
  - destruct (process_pair C P o sched p) as [[evs [x|s]]|] eqn:Hpp; [| |discriminate];
      pose proof (process_pair_silent C P _ _ _ _ _ Hpp) as Hsil;
      injection H as <- <-; split; simpl;
      rewrite ?pairs_of_app, ?taken_of_app, ?(pairs_of_silent _ Hsil),
              ?(taken_of_silent _ Hsil); simpl; rewrite ?app_nil_r.
    + apply Forall_app. split; [exact Hall|]. apply Forall_app.
      split; [apply silent_pushed_ok, Hsil|]. constructor; [|constructor].
      destruct (process_pair_pushed _ _ _ _ _ Hpp) as (H1 & H2 & H3).
      split; [exact H1|]. split; [intros He; apply (H2 He)|intros He; apply (H3 He)].
    + rewrite <- app_assoc. exact Hincl.
    + apply Forall_app. split; [exact Hall|apply silent_pushed_ok, Hsil].
    + intros q Hq. apply Hincl. apply in_or_app. left. exact Hq.
  - injection H as <- <-. split; simpl.
    + apply Forall_app. split; [exact Hall|repeat constructor].
    + rewrite pairs_of_app, taken_of_app. simpl. rewrite !app_nil_r. exact Hincl.
  - destruct (writer dev); try discriminate. injection H as <- <-. split; simpl.
    + apply Forall_app. split; [exact Hall|repeat constructor].
    + rewrite pairs_of_app, taken_of_app. simpl. rewrite !app_nil_r. exact Hincl.
  - injection H as <- <-. split; simpl.
    + apply Forall_app. split; [exact Hall|repeat constructor].
    + rewrite pairs_of_app, taken_of_app. simpl. rewrite !app_nil_r. exact Hincl.
Qed.

Lemma pushed_inv_writer d dev out dev' out' :
  pushed_inv dev -> writer_step d dev out = Some (dev', out') -> pushed_inv dev'.
Proof.
  intros [Hall Hincl] H. unfold Pipeline.writer_step in H.
  destruct (writer dev); try discriminate H.
  - injection H as <- <-. split; simpl.
    + apply Forall_app. split; [exact Hall|repeat constructor].
    + rewrite pairs_of_app, taken_of_app. simpl. rewrite !app_nil_r. exact Hincl.
  - destruct (get_next_element _); try discriminate H; injection H as <- <-; split; simpl;
      try (apply Forall_app; split; [exact Hall|repeat constructor]);
      rewrite pairs_of_app, taken_of_app; simpl; rewrite !app_nil_r; exact Hincl.
Qed.

Lemma pushed_inv_reachable ls batches d dev :
  devices (sys_run ls (initial batches)) !! d = Some dev -> pushed_inv dev.
Proof.
  apply (indexed_invariant (fun _ => pushed_inv)).
  - intros d0. split; [repeat constructor|]. simpl. intros p [].
  - apply pushed_inv_worker.
  - apply pushed_inv_writer.
  - intros d0 dev0 [Hall Hincl] Hret. split; simpl.
    + apply Forall_app. split; [exact Hall|repeat constructor].
    + rewrite pairs_of_app, taken_of_app. simpl. rewrite !app_nil_r. exact Hincl.
Qed.

Lemma pushed_of_In x tr : In x (pushed_of tr) -> exists p, In (Pushed p x) tr.
Proof.
  induction tr as [|ev tr IH]; [intros []|]. simpl. intros H.
  apply in_app_or in H as [H|H].
  - destruct ev; try contradiction. destruct H as [->|[]]. eexists. left. reflexivity.
  - destruct (IH H) as [p Hp]. exists p. right. exact Hp.
Qed.

Lemma pairs_of_In p x tr : In (Pushed p x) tr -> In p (pairs_of tr).
Proof.
  induction tr as [|ev tr IH]; [intros []|]. simpl. intros [->|H].
  - left. reflexivity.
  - apply in_or_app. right. apply IH, H.
Qed.

Lemma taken_of_In b tr : In b (taken_of tr) -> In (TookBatch b) tr.
Proof.
  induction tr as [|ev tr IH]; [intros []|]. simpl. intros H.
  apply in_app_or in H as [H|H].
  - destruct ev; try contradiction. destruct H as [->|[]]. left. reflexivity.
  - right. apply IH, H.
Qed.

(** *** Where the output comes from *)

Definition output_from_writers (s : system) : Prop :=
  Forall (fun text => exists d dev x,
              devices s !! d = Some dev /\ In x (wrote_of (trace dev)) /\
              text = written_text C P x)
         (output s).

Lemma wrote_kept (devs : list device) d dev dev' evs :
  devs !! d = Some dev -> trace dev' = trace dev ++ evs ->
  forall text,
    (exists d0 dev0 x, devs !! d0 = Some dev0 /\ In x (wrote_of (trace dev0)) /\
                       text = written_text C P x) ->
    exists d0 dev0 x, <[d := dev']> devs !! d0 = Some dev0 /\ In x (wrote_of (trace dev0)) /\
                      text = written_text C P x.
Proof.
  intros Hd Htr text (d0 & dev0 & x & Hlook & Hin & Htext).
  destruct (decide (d0 = d)) as [->|Hne].
  - exists d, dev', x. split; [apply list_lookup_insert_eq; eapply lookup_lt_Some, Hd|].
    split; [|exact Htext]. rewrite Htr, wrote_of_app. apply in_or_app. left.
    rewrite Hd in Hlook. injection Hlook as ->. exact Hin.
  - exists d0, dev0, x. split; [|auto]. rewrite list_lookup_insert_ne by congruence. exact Hlook.
Qed.

Lemma output_from_writers_step l s s' :
  output_from_writers s -> sys_step l s = Some s' -> output_from_writers s'.
Proof.
  unfold output_from_writers. intros Hs H. sys_cases H; simpl; try exact Hs.
  - eapply Forall_impl; [exact Hs|]. intros text (d0 & dev0 & x & Hlook & Hin & Htext).
    exists d0, dev0, x. split; [|auto]. apply lookup_app_l_Some. exact Hlook.
  - eapply Forall_impl; [exact Hs|]. eapply wrote_kept; [exact Hd|reflexivity].
  - destruct (worker_step_trace _ _ _ _ _ _ _ Hw) as [evs Htr].
    eapply Forall_impl; [exact Hs|]. apply (wrote_kept _ _ _ _ _ Hd Htr).
  - destruct (writer_step_trace _ _ _ _ _ Hw) as [evs Htr].
    assert (Hold : Forall (fun text => exists d0 dev0 x,
                              <[d := dev']> (devices s) !! d0 = Some dev0 /\
                              In x (wrote_of (trace dev0)) /\ text = written_text C P x)
                          (output s)).
    { eapply Forall_impl; [exact Hs|]. apply (wrote_kept _ _ _ _ _ Hd Htr). }
    unfold Pipeline.writer_step in Hw. destruct (writer dev); try discriminate Hw.
    + injection Hw as _ <-. exact Hold.
    + destruct (get_next_element _) as [|x q'|] eqn:Hq; try discriminate Hw.
      * injection Hw as <- <-. apply Forall_app. split; [exact Hold|].
        constructor; [|constructor].
        exists d, (emit (set_queue dev q') [Wrote x (written_text C P x)]), x.
        split; [apply list_lookup_insert_eq; eapply lookup_lt_Some, Hd|].
        split; [|reflexivity]. simpl. rewrite wrote_of_app. apply in_or_app. right.
        left. reflexivity.
      * injection Hw as _ <-. exact Hold.
Qed.

Lemma output_from_writers_reachable ls batches :
  output_from_writers (sys_run ls (initial batches)).
Proof.
  apply (sys_run_invariant C P); [apply output_from_writers_step|]. constructor.
Qed.

(** *** Accounting over all devices *)

Lemma flat_map_insert_perm {A} (f : device -> list A) (devs : list device) d dev dev' extra :
  devs !! d = Some dev -> f dev' = f dev ++ extra ->
  flat_map f (<[d := dev']> devs) ≡ₚ flat_map f devs ++ extra.
Proof.
  revert d. induction devs as [|x devs IH]; intros [|d] Hd Hf; simpl in *; try discriminate.
  - injection Hd as ->. rewrite Hf, <- !app_assoc.
    apply Permutation_app_head, Permutation_app_comm.
  - rewrite (IH _ Hd Hf), app_assoc. reflexivity.
Qed.

Lemma worker_step_taken d o sched dev bs dev' bs' :
  worker_step d o sched dev bs = Some (dev', bs') ->
  wrote_of (trace dev') = wrote_of (trace dev) /\
  exists tk, bs = tk ++ bs' /\ taken_of (trace dev') = taken_of (trace dev) ++ tk.
Proof.
  unfold Pipeline.worker_step. intros H.
  destruct (worker dev) as [| |[|p todo]| | | | | |]; simpl in H; try discriminate H.
  - injection H as <- <-. simpl. rewrite wrote_of_app, taken_of_app. simpl.
    rewrite !app_nil_r. split; [reflexivity|]. exists []. rewrite ?app_nil_r. auto.
  - destruct bs as [|b bs0]; simpl in H; [|destruct (device_batches b)];
      injection H as <- <-; simpl; rewrite wrote_of_app, taken_of_app; simpl;
      rewrite ?app_nil_r; (split; [reflexivity|]).
    + exists []. rewrite ?app_nil_r. auto.
    + exists [b]. auto.
    + exists [b]. auto.
  - injection H as <- <-. simpl. split; [reflexivity|]. exists []. rewrite ?app_nil_r. auto.
  - destruct (process_pair C P o sched p) as [[evs [x|s]]|] eqn:Hpp; [| |discriminate];
      pose proof (process_pair_silent C P _ _ _ _ _ Hpp) as Hsil;
      injection H as <- <-; simpl;
      rewrite ?wrote_of_app, ?taken_of_app, ?(wrote_of_silent _ Hsil),
              ?(taken_of_silent _ Hsil); simpl; rewrite ?app_nil_r;
      (split; [reflexivity|]); exists []; rewrite ?app_nil_r; auto.
  - injection H as <- <-. simpl. rewrite wrote_of_app, taken_of_app. simpl.
    rewrite !app_nil_r. split; [reflexivity|]. exists []. rewrite ?app_nil_r. auto.
  - destruct (writer dev); try discriminate. injection H as <- <-. simpl.
    rewrite wrote_of_app, taken_of_app. simpl.
    rewrite !app_nil_r. split; [reflexivity|]. exists []. rewrite ?app_nil_r. auto.
  - injection H as <- <-. simpl. rewrite wrote_of_app, taken_of_app. simpl.
    rewrite !app_nil_r. split; [reflexivity|]. exists []. rewrite ?app_nil_r. auto.
Qed.

Lemma writer_step_wrote d dev out dev' out' :
  writer_step d dev out = Some (dev', out') ->
  taken_of (trace dev') = taken_of (trace dev) /\
  exists w, wrote_of (trace dev') = wrote_of (trace dev) ++ w /\
            out' = out ++ map (written_text C P) w.
Proof.
  unfold Pipeline.writer_step. intros H. destruct (writer dev); try discriminate H.
  - injection H as <- <-. simpl. rewrite wrote_of_app, taken_of_app. simpl.
    rewrite !app_nil_r. split; [reflexivity|]. exists []. rewrite ?app_nil_r. auto.
  - destruct (get_next_element _) as [|x q'|]; try discriminate H;
      injection H as <- <-; simpl; rewrite wrote_of_app, taken_of_app; simpl;
      rewrite ?app_nil_r; (split; [reflexivity|]).
    + exists [x]. auto.
    + exists []. rewrite ?app_nil_r. auto.
Qed.

(** Batches are neither lost nor duplicated, and the output holds one
    text for each element a writer received. *)
Definition accounts (batches : list BatchOfIndices) (s : system) : Prop :=
  batches_of_indices s ++ all_taken (devices s) ≡ₚ batches /\
  output s ≡ₚ map (written_text C P) (all_wrote (devices s)) /\
  (aborted s = true ->
   exists d dev, devices s !! d = Some dev /\ is_terminated (worker dev) = true).

Lemma accounts_step batches l s s' :
  accounts batches s -> sys_step l s = Some s' -> accounts batches s'.
Proof.
  unfold accounts, all_taken, all_wrote. intros (Hb & Ho & Ha) H.
  sys_cases H; simpl;
    (split; [|split; [|try (intros Hc; first [discriminate Hc
                                             |rewrite Hab in Hc; discriminate Hc])]]);
    try assumption.
  - rewrite flat_map_app. simpl. rewrite !app_nil_r. exact Hb.
  - rewrite flat_map_app. simpl. rewrite !app_nil_r. exact Ho.
  - rewrite (flat_map_insert_perm (fun dev => taken_of (trace dev)) _ _ _ _ [] Hd), app_nil_r;
      [exact Hb|].
    simpl. rewrite taken_of_app. reflexivity.
  - rewrite (flat_map_insert_perm (fun dev => wrote_of (trace dev)) _ _ _ _ [] Hd), app_nil_r;
      [exact Ho|].
    simpl. rewrite wrote_of_app. reflexivity.
  - destruct (worker_step_taken _ _ _ _ _ _ _ Hw) as (Hwrote & tk & Hbs & Htk).
    rewrite (flat_map_insert_perm (fun dev => taken_of (trace dev)) _ _ _ _ tk Hd Htk).
    rewrite <- Hb, Hbs, (Permutation_app_comm tk bs'), <- !app_assoc.
    apply Permutation_app_head, Permutation_app_comm.
  - destruct (worker_step_taken _ _ _ _ _ _ _ Hw) as (Hwrote & tk & Hbs & Htk).
    rewrite (flat_map_insert_perm (fun dev => wrote_of (trace dev)) _ _ _ _ [] Hd), app_nil_r;
      [exact Ho|].
    rewrite app_nil_r. exact Hwrote.
  - intros Ht. exists d, dev'. split; [|exact Ht].
    apply list_lookup_insert_eq. eapply lookup_lt_Some, Hd.
  - destruct (writer_step_wrote _ _ _ _ _ Hw) as (Htaken & w & Hwrote & Hout).
    rewrite (flat_map_insert_perm (fun dev => taken_of (trace dev)) _ _ _ _ [] Hd), app_nil_r;
      [exact Hb|].
    rewrite app_nil_r. exact Htaken.
  - destruct (writer_step_wrote _ _ _ _ _ Hw) as (Htaken & w & Hwrote & Hout).
    rewrite (flat_map_insert_perm (fun dev => wrote_of (trace dev)) _ _ _ _ w Hd Hwrote).
    rewrite Hout, map_app, Ho. reflexivity.
Qed.

Lemma accounts_reachable ls batches : accounts batches (sys_run ls (initial batches)).
Proof.
  apply (sys_run_invariant C P); [apply accounts_step|].
  unfold accounts. simpl. rewrite app_nil_r. split; [reflexivity|].
  split; [reflexivity|discriminate].
Qed.

Lemma flat_map_length_ext {A B D} (f : A -> list B) (g : A -> list D) (l : list A) :
  Forall (fun a => length (f a) = length (g a)) l ->
  length (flat_map f l) = length (flat_map g l).
Proof.
  induction 1 as [|a l Ha _ IH]; [reflexivity|].
  simpl. rewrite !length_app, Ha, IH. reflexivity.
Qed.

Lemma flat_map_ext_Forall {A B} (f g : A -> list B) (l : list A) :
  Forall (fun a => f a = g a) l -> flat_map f l = flat_map g l.
Proof. induction 1 as [|a l Ha _ IH]; [reflexivity|]. simpl. rewrite Ha, IH. reflexivity. Qed.

Lemma flat_map_flat_map {A B D} (f : B -> list D) (g : A -> list B) (l : list A) :
  flat_map f (flat_map g l) = flat_map (fun a => flat_map f (g a)) l.
Proof.
  induction l as [|a l IH]; [reflexivity|]. simpl. rewrite flat_map_app, IH. reflexivity.
Qed.

Lemma pushed_pairs_length tr : length (pushed_of tr) = length (pairs_of tr).
Proof.
  induction tr as [|ev tr IH]; [reflexivity|].
  simpl. rewrite !length_app, IH. destruct ev; reflexivity.
Qed.

(** *** When main returns *)

Lemma all_done ls batches :
  main (sys_run ls (initial batches)) = MainReturned ->
  0 < num_devices P ->
  batches_of_indices (sys_run ls (initial batches)) = [] /\
  aborted (sys_run ls (initial batches)) = false /\
  Forall (fun dev =>
            worker dev = WorkerReturned /\ writer dev = WriterReturned /\
            data (overlaps_and_cigars_to_write dev) = [] /\
            wrote_of (trace dev) = pushed_of (trace dev) /\
            pairs_of (trace dev) = flat_map batch_pairs (taken_of (trace dev)))
         (devices (sys_run ls (initial batches))).
Proof.
  intros Hmain Hn.
  pose proof (main_shape_reachable ls batches) as Hshape.
  pose proof (device_inv_reachable C P ls batches) as Hinv.
  pose proof (accounts_reachable ls batches) as (_ & _ & Hab).
  unfold main_shape in Hshape. rewrite Hmain in Hshape. destruct Hshape as [Hlen Hret].
  set (s := sys_run ls (initial batches)) in *.
  assert (Hall : Forall (fun dev =>
            worker dev = WorkerReturned /\ writer dev = WriterReturned /\
            data (overlaps_and_cigars_to_write dev) = [] /\
            wrote_of (trace dev) = pushed_of (trace dev) /\
            pairs_of (trace dev) = flat_map batch_pairs (taken_of (trace dev)))
         (devices s)).
  { apply Forall_lookup. intros d dev Hd.
    pose proof (Hret d dev Hd) as Hw.
    pose proof (Forall_lookup_1 _ _ _ _ Hinv Hd) as Hdev.
    destruct (di_joined P _ _ Hdev) as [_ Hwr]; [rewrite Hw; reflexivity|].
    destruct (di_writer_done P _ _ Hdev Hwr) as (Hdata & _ & _).
    pose proof (di_fifo P _ _ Hdev) as Hfifo. rewrite Hdata, app_nil_r in Hfifo.
    pose proof (di_pairs P _ _ Hdev) as Hpairs. rewrite Hw in Hpairs.
    specialize (Hpairs eq_refl). simpl in Hpairs. rewrite app_nil_r in Hpairs.
    auto. }
  split; [|split; [|exact Hall]].
  - assert (Hex : exists dev, devices s !! 0%nat = Some dev).
    { apply lookup_lt_is_Some_2. rewrite Hlen. unfold device_count. lia. }
    destruct Hex as [dev Hd].
    pose proof (Forall_lookup_1 _ _ _ _ Hinv Hd) as Hdev.
    apply (di_exhausted P _ _ Hdev). rewrite (Hret _ _ Hd). reflexivity.
  - destruct (aborted s) eqn:Ha; [|reflexivity].
    destruct (Hab eq_refl) as (d & dev & Hd & Ht).
    rewrite (Hret _ _ Hd) in Ht. discriminate.
Qed.

Lemma all_taken_In (devs : list device) d dev b :
  devs !! d = Some dev -> In b (taken_of (trace dev)) -> In b (all_taken devs).
Proof.
  intros Hd Hb. unfold all_taken. apply in_flat_map. exists dev. split; [|exact Hb].
  apply list_elem_of_In. eapply list_elem_of_lookup_2, Hd.
Qed.

(** *** No devices *)

Lemma no_devices_step l s s' :
  num_devices P <= 0 -> devices s = [] -> sys_step l s = Some s' ->
  devices s' = [] /\ batches_of_indices s' = batches_of_indices s /\
  output s' = output s /\ aborted s' = aborted s.
Proof.
  intros Hn Hdevs H. sys_cases H; simpl; auto;
    try (rewrite Hdevs in Hd; discriminate Hd).
  apply Z.ltb_lt in Hlt. lia.
Qed.

Lemma no_devices_reachable ls batches :
  num_devices P <= 0 ->
  devices (sys_run ls (initial batches)) = [] /\
  batches_of_indices (sys_run ls (initial batches)) = batches /\
  output (sys_run ls (initial batches)) = [] /\
  aborted (sys_run ls (initial batches)) = false.
Proof.
  intros Hn.
  apply (sys_run_invariant C P
           (fun s => devices s = [] /\ batches_of_indices s = batches /\
                     output s = [] /\ aborted s = false)); [|auto].
  intros l s s' (H1 & H2 & H3 & H4) H.
  destruct (no_devices_step _ _ _ Hn H1 H) as (K1 & K2 & K3 & K4).
  rewrite K2, K3, K4. auto.
Qed.

(** *** Every step brings the process nearer to its end *)













(** *** Some thread can always move *)








(** *** When nothing goes wrong *)





End MorePipelineFacts.

Section MorePairingFacts.
Import Pipeline.

Lemma device_batch_pairs_In (a2a : bool) (db : IndexBatch) (q t : IndexDescriptor) :
  In (q, t) (process_one_device_batch_pairs a2a db) <->
  In q (query_indices db) /\ In t (target_indices db) /\
  (a2a = false \/ first_read q <= first_read t).
Proof.
  unfold process_one_device_batch_pairs. rewrite in_flat_map. split.
  - intros (q' & Hq & H). rewrite in_flat_map in H. destruct H as (t' & Ht & H).
    destruct (negb a2a || (first_read t' >=? first_read q')) eqn:E; [|contradiction].
    destruct H as [H|[]]. injection H as -> ->.
    split; [exact Hq|]. split; [exact Ht|].
    destruct a2a; [right|left; reflexivity]. simpl in E.
    apply Z.geb_le in E. exact E.
  - intros (Hq & Ht & Hc). exists q. split; [exact Hq|].
    rewrite in_flat_map. exists t. split; [exact Ht|].
    assert (E : negb a2a || (first_read t >=? first_read q) = true).
    { destruct Hc as [->|Hc]; [reflexivity|]. apply orb_true_iff. right.
      apply Z.geb_le. exact Hc. }
    rewrite E. left. reflexivity.
Qed.

Lemma batch_pairs_In (a2a : bool) (batch : BatchOfIndices) (q t : IndexDescriptor) :
  In (q, t) (process_one_batch_pairs a2a batch) <->
  (exists db, In db (device_batches batch) /\
              In q (query_indices db) /\ In t (target_indices db)) /\
  (a2a = false \/ first_read q <= first_read t).
Proof.
  unfold process_one_batch_pairs. rewrite in_flat_map. split.
  - intros (db & Hdb & H). apply device_batch_pairs_In in H as (Hq & Ht & Hc).
    split; [exists db; auto|exact Hc].
  - intros [(db & Hdb & Hq & Ht) Hc]. exists db. split; [exact Hdb|].
    apply device_batch_pairs_In. auto.
Qed.
End MorePairingFacts.

(** ** What align_overlaps and run_alignment_batch guarantee beyond the
       claims *)

Section AlignmentProperties.
Import Alignment Observations Examples.

(** X1.  The first loop of align_overlaps: the two sizes it computes are
    never negative, bound the (32-bit) query and target extent of every
    overlap of the list, and each is 0 or the extent of some overlap of
    the list. *)
Theorem X1_max_sizes_are_maxima (ovs : list Overlap) :
  0 <= fst (max_sizes ovs) /\ 0 <= snd (max_sizes ovs) /\
  (forall o, In o ovs ->
     query_overlap_size o <= fst (max_sizes ovs) /\
     target_overlap_size o <= snd (max_sizes ovs)) /\
  (fst (max_sizes ovs) = 0 \/
   exists o, In o ovs /\ query_overlap_size o = fst (max_sizes ovs)) /\
  (snd (max_sizes ovs) = 0 \/
   exists o, In o ovs /\ target_overlap_size o = snd (max_sizes ovs)).
Proof.
  rewrite max_sizes_as_folds. cbn [fst snd].
  split; [apply fold_max_ge|]. split; [apply fold_max_ge|].
  split; [|split; apply fold_max_attained].
  intros o Ho. split; apply fold_max_upper, Ho.
Qed.

(** X2.  When no overlap has a positive query extent, or none a positive
    target extent (in particular for an empty list), the memory estimate
    is 0, the quotient computed in float is infinite or not a number, and
    its conversion to size_t is not defined: max_alignments, and with it
    batch_size, is whatever value that conversion yields. *)
Theorem X2_zero_estimate_is_undefined (o : oracle) (ovs : list Overlap) (e : Z) :
  Forall (fun ov => query_overlap_size ov <= 0) ovs \/
  Forall (fun ov => target_overlap_size ov <= 0) ovs ->
  max_alignments o (fst (max_sizes ovs)) (snd (max_sizes ovs))
  = SizeT.to_size_t (undefined_value o) /\
  batch_size_of o ovs e
  = Z.quot (Z.min (get_size ovs) (Int32.to_int32 (SizeT.to_size_t (undefined_value o)))) e.
Proof.
  intros H.
  assert (Hz : forall f, Forall (fun ov => f ov <= 0) ovs ->
                         fold_left (fun m ov => Z.max m (f ov)) ovs 0 = 0).
  { intros f Hf. destruct (fold_max_attained f ovs 0) as [E|(x & Hx & E)]; [exact E|].
    pose proof (fold_max_ge f ovs 0) as Hge.
    rewrite Forall_forall in Hf. specialize (Hf x). rewrite list_elem_of_In in Hf.
    specialize (Hf Hx). lia. }
  assert (Hm : max_alignments o (fst (max_sizes ovs)) (snd (max_sizes ovs))
               = SizeT.to_size_t (undefined_value o)).
  { rewrite max_sizes_as_folds. cbn [fst snd].
    unfold max_alignments, max_alignments_float, memory_per_alignment.
    destruct H as [H|H]; rewrite (Hz _ H).
    - rewrite (proj1 (division_by_zero_estimate _ _)). reflexivity.
    - rewrite (proj2 (division_by_zero_estimate _ _)). reflexivity. }
  split; [exact Hm|]. rewrite batch_size_unfold, Hm. reflexivity.
Qed.

(** One overlap whose query extent is empty. *)
Lemma X2_zero_estimate_is_undefined_witness :
  (Forall (fun o => query_overlap_size o <= 0) [ov 0 5] \/
   Forall (fun o => target_overlap_size o <= 0) [ov 0 5]) /\
  max_alignments (mkOracle 8000 7) (fst (max_sizes [ov 0 5])) (snd (max_sizes [ov 0 5])) = 7.
Proof.
  assert (H : Forall (fun o => query_overlap_size o <= 0) [ov 0 5] \/
              Forall (fun o => target_overlap_size o <= 0) [ov 0 5]).
  { left. constructor; [vm_compute; discriminate|constructor]. }
  split; [exact H|].
  exact (proj1 (X2_zero_estimate_is_undefined (mkOracle 8000 7) [ov 0 5] 1 H)).
Defined.



(** X4.  The ranges the engines claim do not depend on how the engines
    interleave: with batch_size >= 1 every claimed range starting at s
    ends at min (s + batch_size, number_of_overlaps); so at any moment
    ceil (cursor / batch_size) ranges have been claimed, and when the call
    returns exactly ceil (number_of_overlaps / batch_size). *)
Theorem X4_ranges_fixed_by_sizes
        (C : Collaborators) (ovs : list Overlap) (qp tp : FastaParser)
        (max_query_size max_target_size batch_size num_alignment_engines : Z)
        (cigar0 : list string) (sched : list nat) :
  1 <= batch_size <= Int32.max_signed ->
  get_size ovs <= 2 ^ 30 ->
  length cigar0 = length ovs ->
  0 < num_alignment_engines ->
  let st := Alignment.run C ovs qp tp max_query_size max_target_size batch_size sched
                          (init num_alignment_engines cigar0) in
  Forall (exact_range (get_size ovs) batch_size) (map snd (claimed st)) /\
  Z.of_nat (length (claimed st)) = (overlap_idx st + batch_size - 1) / batch_size /\
  (forall c, outcome_of st = Returned c ->
     Z.of_nat (length (claimed st)) = (get_size ovs + batch_size - 1) / batch_size).
Proof.
  intros Hbs Hn Hlen He st.
  assert (Hs : sound_sizes ovs batch_size) by (split; assumption).
  pose proof (exact_ranges_run C ovs qp tp max_query_size max_target_size batch_size
                num_alignment_engines cigar0 sched Hs) as Hex.
  pose proof (inv_run C ovs qp tp max_query_size max_target_size batch_size
                num_alignment_engines cigar0 sched Hs Hlen) as Hinv.
  fold st in Hex, Hinv.
  pose proof (inv_cursor _ _ _ _ _ _ Hinv) as [Hr _].
  pose proof (inv_tiling _ _ _ _ _ _ Hinv) as Htil.
  assert (Hcount : Z.of_nat (length (claimed st))
                   = (overlap_idx st + batch_size - 1) / batch_size).
  { rewrite <- (length_map snd).
    rewrite (exact_tiling_count ovs batch_size 0 _ (overlap_idx st)
               ltac:(lia) ltac:(lia) Htil Hex).
    f_equal. lia. }
  split; [exact Hex|]. split; [exact Hcount|].
  intros c Hout. rewrite Hcount.
  destruct (returned_cursor C ovs qp tp max_query_size max_target_size batch_size
              num_alignment_engines cigar0 sched c Hs Hlen He Hout) as [Hcur _].
  fold st in Hcur. rewrite Hcur. reflexivity.
Qed.

(** Five overlaps in ranges of two, two engines taking turns: three
    ranges. *)
Lemma X4_ranges_fixed_by_sizes_witness :
  1 <= 2 <= Int32.max_signed /\
  get_size [ov 3 4; ov 2 2; ov 1 1; ov 2 3; ov 4 4] <= 2 ^ 30 /\
  length (replicate 5 EmptyString) = length [ov 3 4; ov 2 2; ov 1 1; ov 2 3; ov 4 4] /\
  0 < 2 /\
  Z.of_nat (length (claimed
    (Alignment.run accepting [ov 3 4; ov 2 2; ov 1 1; ov 2 3; ov 4 4] queries targets 4 4 2
                   [0; 1; 0; 1; 0; 1; 0; 1; 0; 1]%nat
                   (init 2 (replicate 5 EmptyString)))))
  = (overlap_idx
       (Alignment.run accepting [ov 3 4; ov 2 2; ov 1 1; ov 2 3; ov 4 4] queries targets 4 4 2
                      [0; 1; 0; 1; 0; 1; 0; 1; 0; 1]%nat
                      (init 2 (replicate 5 EmptyString))) + 2 - 1) / 2.
Proof.
  assert (H1 : 1 <= 2 <= Int32.max_signed) by (vm_compute; split; discriminate).
  assert (H2 : get_size [ov 3 4; ov 2 2; ov 1 1; ov 2 3; ov 4 4] <= 2 ^ 30)
    by (vm_compute; discriminate).
  assert (H3 : length (replicate 5 EmptyString)
               = length [ov 3 4; ov 2 2; ov 1 1; ov 2 3; ov 4 4]) by reflexivity.
  assert (H4 : 0 < 2) by lia.
  split; [exact H1|]. split; [exact H2|]. split; [exact H3|]. split; [exact H4|].
  pose proof (X4_ranges_fixed_by_sizes accepting [ov 3 4; ov 2 2; ov 1 1; ov 2 3; ov 4 4]
                queries targets 4 4 2 2 (replicate 5 EmptyString)
                [0; 1; 0; 1; 0; 1; 0; 1; 0; 1]%nat H1 H2 H3 H4) as H.
  cbv zeta in H. apply H.
Defined.

(** X5.  The engines write only where they have claimed: under every
    interleaving the cigar vector keeps its length, and every entry at or
    beyond the cursor still holds what the caller passed in, also when an
    engine has thrown. *)
Theorem X5_unclaimed_entries_untouched
        (C : Collaborators) (ovs : list Overlap) (qp tp : FastaParser)
        (max_query_size max_target_size batch_size num_alignment_engines : Z)
        (cigar0 : list string) (sched : list nat) :
  1 <= batch_size <= Int32.max_signed ->
  get_size ovs <= 2 ^ 30 ->
  length cigar0 = length ovs ->
  let st := Alignment.run C ovs qp tp max_query_size max_target_size batch_size sched
                          (init num_alignment_engines cigar0) in
  length (cigar st) = length cigar0 /\
  forall i : nat, overlap_idx st <= Z.of_nat i -> cigar st !! i = cigar0 !! i.
Proof.
  intros Hbs Hn Hlen st.
  assert (Hs : sound_sizes ovs batch_size) by (split; assumption).
  split; [apply cigar_length_run|].
  apply (beyond_untouched_run C ovs qp tp max_query_size max_target_size batch_size
           num_alignment_engines cigar0 sched Hs Hlen).
Qed.

(** Two overlaps, one engine that has claimed and aligned the first. *)
Lemma X5_unclaimed_entries_untouched_witness :
  1 <= 1 <= Int32.max_signed /\
  get_size [ov 3 4; ov 2 2] <= 2 ^ 30 /\
  length ["a"; "b"]%string = length [ov 3 4; ov 2 2] /\
  cigar (Alignment.run accepting [ov 3 4; ov 2 2] queries targets 3 4 1 [0; 0; 0]%nat
                       (init 1 ["a"; "b"]%string)) !! 1%nat
  = ["a"; "b"]%string !! 1%nat.
Proof.
  assert (H1 : 1 <= 1 <= Int32.max_signed) by (vm_compute; split; discriminate).
  assert (H2 : get_size [ov 3 4; ov 2 2] <= 2 ^ 30) by (vm_compute; discriminate).
  assert (H3 : length ["a"; "b"]%string = length [ov 3 4; ov 2 2]) by reflexivity.
  split; [exact H1|]. split; [exact H2|]. split; [exact H3|].
  pose proof (X5_unclaimed_entries_untouched accepting [ov 3 4; ov 2 2] queries targets
                3 4 1 1 ["a"; "b"]%string [0; 0; 0]%nat H1 H2 H3) as H.
  cbv zeta in H. apply (proj2 H). vm_compute. discriminate.
Defined.

(** X6.  The purpose of the sizing: whenever align_overlaps computes a
    batch_size of at least 1 for at least one engine, the alignments held
    by all engines together, at any moment of any interleaving, number at
    most min (number_of_overlaps, max_alignments), the bound derived from
    the free device memory. *)
Theorem X6_alignments_in_flight
        (C : Collaborators) (o : oracle) (ovs : list Overlap) (qp tp : FastaParser)
        (num_alignment_engines : Z) (cigar0 : list string) (sched : list nat) :
  1 <= num_alignment_engines ->
  1 <= batch_size_of o ovs num_alignment_engines ->
  get_size ovs <= 2 ^ 30 ->
  0 <= total_held (engines (align_overlaps C o ovs qp tp num_alignment_engines cigar0 sched))
    <= Z.min (get_size ovs)
             (Int32.to_int32
                (max_alignments o (fst (max_sizes ovs)) (snd (max_sizes ovs)))).
Proof.
  intros He Hb Hn.
  destruct (computed_batch_size_sound o ovs num_alignment_engines He Hb Hn) as [Hs Hq].
  unfold align_overlaps.
  destruct (max_sizes ovs) as [mq mt]. cbn [fst snd] in *.
  pose proof (total_held_run C ovs qp tp mq mt (batch_size_of o ovs num_alignment_engines)
                num_alignment_engines cigar0 sched Hs ltac:(lia)) as H.
  clear - H Hq. lia.
Qed.

(** 8000 bytes free, two overlaps, one engine holding both. *)
Lemma X6_alignments_in_flight_witness :
  1 <= 1 /\ 1 <= batch_size_of plenty [ov 3 4; ov 2 2] 1 /\
  get_size [ov 3 4; ov 2 2] <= 2 ^ 30 /\
  0 <= total_held (engines (align_overlaps accepting plenty [ov 3 4; ov 2 2] queries targets 1
                                           [EmptyString; EmptyString] [0; 0]%nat))
    <= Z.min (get_size [ov 3 4; ov 2 2])
             (Int32.to_int32
                (max_alignments plenty (fst (max_sizes [ov 3 4; ov 2 2]))
                                (snd (max_sizes [ov 3 4; ov 2 2])))).
Proof.
  assert (H1 : 1 <= 1) by lia.
  assert (H2 : 1 <= batch_size_of plenty [ov 3 4; ov 2 2] 1) by (vm_compute; discriminate).
  assert (H3 : get_size [ov 3 4; ov 2 2] <= 2 ^ 30) by (vm_compute; discriminate).
  split; [exact H1|]. split; [exact H2|]. split; [exact H3|].
  exact (X6_alignments_in_flight accepting plenty [ov 3 4; ov 2 2] queries targets 1
           [EmptyString; EmptyString] [0; 0]%nat H1 H2 H3).
Defined.

(** X7.  The CUDA stream of an engine thread, under every interleaving:
    an engine that has started has created exactly one stream; it destroys
    it exactly once, as its last call, when it returns; an engine that
    threw has not destroyed its stream, which is leaked. *)
Theorem X7_stream_of_an_engine
        (C : Collaborators) (ovs : list Overlap) (qp tp : FastaParser)
        (max_query_size max_target_size batch_size num_alignment_engines : Z)
        (cigar0 : list string) (sched : list nat) (k : nat) (e : engine) :
  engines (Alignment.run C ovs qp tp max_query_size max_target_size batch_size sched
                         (init num_alignment_engines cigar0)) !! k = Some e ->
  (pc e = EngineEntry -> calls e = []) /\
  (pc e <> EngineEntry -> count_calls is_stream_create (calls e) = 1%nat) /\
  (pc e = EngineReturned ->
   count_calls is_stream_destroy (calls e) = 1%nat /\
   last (calls e) = Some cudaStreamDestroy) /\
  (pc e <> EngineReturned -> count_calls is_stream_destroy (calls e) = 0%nat).
Proof.
  intros Hk.
  pose proof (Forall_lookup_1 _ _ _ _
                (stream_lifecycle_run C ovs qp tp max_query_size max_target_size batch_size
                   num_alignment_engines cigar0 sched) Hk) as H.
  unfold stream_lifecycle in H.
  destruct (pc e) eqn:Hpc; repeat split; intros; try congruence;
    try (rewrite H; reflexivity); try (apply H).
Qed.

(** The rejecting aligner: the engine threw after creating its stream. *)
Lemma X7_stream_of_an_engine_witness :
  engines (Alignment.run rejecting [ov 3 4] queries targets 3 4 1 [0; 0; 0]%nat
                         (init 1 [EmptyString])) !! 0%nat
  = Some (mkEngine (EngineThrew (failure 3)) 0
                   [cudaGetDevice; cudaStreamCreate; create_aligner 3 4 1 0]) /\
  count_calls is_stream_destroy [cudaGetDevice; cudaStreamCreate; create_aligner 3 4 1 0]
  = 0%nat.
Proof.
  assert (H : engines (Alignment.run rejecting [ov 3 4] queries targets 3 4 1 [0; 0; 0]%nat
                                     (init 1 [EmptyString])) !! 0%nat
              = Some (mkEngine (EngineThrew (failure 3)) 0
                               [cudaGetDevice; cudaStreamCreate; create_aligner 3 4 1 0]))
    by reflexivity.
  split; [exact H|].
  apply (X7_stream_of_an_engine rejecting [ov 3 4] queries targets 3 4 1 1 [EmptyString]
           [0; 0; 0]%nat 0%nat _ H).
  discriminate.
Defined.

(** X8.  No failed submission is passed over.  With batch_size >= 1 and at
    least one engine: if add_alignment does not return success for some
    overlap of the list, then under no interleaving does the call return
    normally, and every execution can be continued to one in which it
    throws; conversely a call that returned had every overlap accepted. *)
Theorem X8_rejected_submission_throws
        (C : Collaborators) (ovs : list Overlap) (qp tp : FastaParser)
        (max_query_size max_target_size batch_size num_alignment_engines : Z)
        (cigar0 : list string) (sched : list nat) (o : Overlap) :
  1 <= batch_size <= Int32.max_signed ->
  get_size ovs <= 2 ^ 30 ->
  length cigar0 = length ovs ->
  0 < num_alignment_engines ->
  In o ovs ->
  add_alignment C (al_query (alignment_of qp tp o)) (al_target (alignment_of qp tp o))
                (al_reverse (alignment_of qp tp o)) <> success ->
  let exec := fun s => Alignment.run C ovs qp tp max_query_size max_target_size batch_size s
                                     (init num_alignment_engines cigar0) in
  (forall c, outcome_of (exec sched) <> Returned c) /\
  exists sched' status,
    outcome_of (exec (sched ++ sched')) = Threw status /\ status <> success.
Proof.
  intros Hbs Hn Hlen He Hin Hrej exec.
  assert (Hs : sound_sizes ovs batch_size) by (split; assumption).
  assert (Hnever : forall s c, outcome_of (exec s) <> Returned c).
  { intros s c Hout. apply Hrej.
    apply (returned_all_submitted C ovs qp tp max_query_size max_target_size batch_size
             num_alignment_engines cigar0 s c Hs Hlen He Hout o Hin). }
  split; [apply Hnever|].
  destruct (terminates_after C ovs qp tp max_query_size max_target_size batch_size
              num_alignment_engines cigar0 sched Hs) as [sched' Hdone].
  exists sched'.
  pose proof (Hnever (sched ++ sched')) as Hn'.
  pose proof (thrown_by_submission_run C ovs qp tp max_query_size max_target_size batch_size
                num_alignment_engines cigar0 (sched ++ sched')) as Hthrown.
  unfold exec in *. unfold outcome_of in *. rewrite Hdone in *.
  destruct (first_thrown _) as [s|] eqn:Hf.
  - exists s. split; [reflexivity|].
    apply first_thrown_lookup in Hf as (k & x & Hx & Hp).
    apply (Hthrown k x s Hx Hp).
  - exfalso. eapply Hn'. reflexivity.
Qed.

(** The rejecting aligner, two overlaps, two engines, from the start. *)
Lemma X8_rejected_submission_throws_witness :
  1 <= 1 <= Int32.max_signed /\
  get_size [ov 3 4; ov 2 2] <= 2 ^ 30 /\
  length [EmptyString; EmptyString] = length [ov 3 4; ov 2 2] /\
  0 < 2 /\
  In (ov 2 2) [ov 3 4; ov 2 2] /\
  add_alignment rejecting (al_query (alignment_of queries targets (ov 2 2)))
                (al_target (alignment_of queries targets (ov 2 2)))
                (al_reverse (alignment_of queries targets (ov 2 2))) <> success /\
  forall c,
    outcome_of (Alignment.run rejecting [ov 3 4; ov 2 2] queries targets 3 4 1
                              [0; 1; 0; 1; 0; 1]%nat (init 2 [EmptyString; EmptyString]))
    <> Returned c.
Proof.
  assert (H1 : 1 <= 1 <= Int32.max_signed) by (vm_compute; split; discriminate).
  assert (H2 : get_size [ov 3 4; ov 2 2] <= 2 ^ 30) by (vm_compute; discriminate).
  assert (H3 : length [EmptyString; EmptyString] = length [ov 3 4; ov 2 2]) by reflexivity.
  assert (H4 : 0 < 2) by lia.
  assert (H5 : In (ov 2 2) [ov 3 4; ov 2 2]) by (right; left; reflexivity).
  assert (H6 : add_alignment rejecting (al_query (alignment_of queries targets (ov 2 2)))
                 (al_target (alignment_of queries targets (ov 2 2)))
                 (al_reverse (alignment_of queries targets (ov 2 2))) <> success)
    by discriminate.
  split; [exact H1|]. split; [exact H2|]. split; [exact H3|]. split; [exact H4|].
  split; [exact H5|]. split; [exact H6|].
  pose proof (X8_rejected_submission_throws rejecting [ov 3 4; ov 2 2] queries targets 3 4 1 2
                [EmptyString; EmptyString] [0; 1; 0; 1; 0; 1]%nat (ov 2 2)
                H1 H2 H3 H4 H5 H6) as H.
  cbv zeta in H. apply (proj1 H).
Defined.

End AlignmentProperties.

(** ** What the threads guarantee beyond the claims *)

Section PipelineProperties.
Import Alignment ThreadsafeProducerConsumer Pipeline Observations Examples.

(** X9.  What process_one_device_batch pushes for a pair: the overlaps are
    those found for the pair; without alignment engines the cigar vector
    is empty and align_overlaps is not called; with engines it has one
    entry per overlap, and when the computed batch_size is at least 1 (and
    there are at most 2^30 overlaps) the entries are, index by index, the
    cigars of the alignments of the overlaps. *)
Theorem X9_what_is_pushed
        (C : Collaborators) (P : ApplicationParameters) (o : oracle) (sched : list nat)
        (descriptors : IndexDescriptor * IndexDescriptor)
        (evs : list event) (x : OverlapsAndCigars) :
  process_pair C P o sched descriptors = Some (evs, inl x) ->
  overlaps x = get_overlaps C (fst descriptors) (snd descriptors) /\
  (alignment_engines P <= 0 ->
   cigars x = [] /\ evs = [Call WorkerThread matcher_and_overlapper]) /\
  (0 < alignment_engines P ->
   length (cigars x) = length (overlaps x) /\
   (1 <= batch_size_of o (overlaps x) (alignment_engines P) ->
    get_size (overlaps x) <= 2 ^ 30 ->
    cigars x = aligned_cigars C (overlaps x) (query_parser P) (target_parser P))).
Proof. apply process_pair_pushed. Qed.

(** One engine, 8000 bytes free, the two overlaps of the example. *)
Lemma X9_what_is_pushed_witness :
  exists evs x,
    process_pair accepting parameters plenty [0; 0; 0; 0; 0]%nat (first_index, second_index)
    = Some (evs, inl x) /\
    cigars x = aligned_cigars accepting (overlaps x) queries targets.
Proof.
  destruct (process_pair accepting parameters plenty [0; 0; 0; 0; 0]%nat
                         (first_index, second_index)) as [[evs [x|s]]|] eqn:Hpp;
    [|vm_compute in Hpp; discriminate|vm_compute in Hpp; discriminate].
  exists evs, x. split; [reflexivity|].
  pose proof (X9_what_is_pushed accepting parameters plenty [0; 0; 0; 0; 0]%nat
                (first_index, second_index) evs x Hpp) as (Hov & _ & Hal).
  destruct (Hal ltac:(reflexivity)) as [_ Hc].
  apply Hc; rewrite Hov; vm_compute; discriminate.
Defined.

(** X10.  In every execution, for every device d that exists: d is below
    num_devices; every cudaSetDevice recorded for the device, by main, by
    its worker or by its writer, selects d; main's calls for the device
    start with cudaSetDevice(d); the worker's first call, once it has
    started, and the writer's first call, once it is past its entry, is
    cudaSetDevice(d): each of the three threads is pinned to d before any
    device work. *)
Theorem X10_threads_select_their_device
        (C : Collaborators) (P : ApplicationParameters) (ls : list label)
        (batches : list BatchOfIndices) (d : nat) (dev : device) :
  devices (Pipeline.run C P ls (initial batches)) !! d = Some dev ->
  Z.of_nat d < num_devices P /\
  (forall who d', In (Call who (cudaSetDevice d')) (trace dev) -> d' = Z.of_nat d) /\
  hd_error (calls_of MainThread (trace dev)) = Some (cudaSetDevice (Z.of_nat d)) /\
  (worker dev <> WorkerEntry ->
   hd_error (calls_of WorkerThread (trace dev)) = Some (cudaSetDevice (Z.of_nat d))) /\
  (writer dev = WriterWaiting \/ writer dev = WriterReturned ->
   hd_error (calls_of WriterThread (trace dev)) = Some (cudaSetDevice (Z.of_nat d))) /\
  pinned_before_device_calls (Z.of_nat d) (calls_of MainThread (trace dev)) = true /\
  pinned_before_device_calls (Z.of_nat d) (calls_of WorkerThread (trace dev)) = true /\
  pinned_before_device_calls (Z.of_nat d) (calls_of WriterThread (trace dev)) = true.
Proof.
  intros Hd.
  destruct (pinned_inv_reachable C P ls batches d dev Hd) as (Hall & Hm & Hwk & Hwr & _).
  pose proof (main_shape_reachable C P ls batches) as Hshape.
  pose proof (lookup_lt_Some _ _ _ Hd) as Hlt.
  split.
  { unfold main_shape, device_count in Hshape.
    destruct (main _); [destruct Hshape as [? ?]|destruct Hshape as (? & ? & _)
                       |destruct Hshape as [? _]]; lia. }
  split.
  { intros who d' Hin. rewrite Forall_forall in Hall.
    apply (Hall (Call who (cudaSetDevice d'))). apply list_elem_of_In, Hin. }
  split; [exact Hm|].
  assert (Hworker : worker dev <> WorkerEntry ->
                    hd_error (calls_of WorkerThread (trace dev))
                    = Some (cudaSetDevice (Z.of_nat d))).
  { intros Hne. destruct (worker dev); try exact Hwk. contradiction. }
  assert (Hwriter : writer dev = WriterWaiting \/ writer dev = WriterReturned ->
                    hd_error (calls_of WriterThread (trace dev))
                    = Some (cudaSetDevice (Z.of_nat d))).
  { intros [Hw|Hw]; rewrite Hw in Hwr; exact Hwr. }
  split; [exact Hworker|]. split; [exact Hwriter|].
  split; [apply starts_on_pinned, Hm|]. split.
  - destruct (worker dev) eqn:Hw;
      try (apply starts_on_pinned; apply Hworker; discriminate).
    rewrite Hwk. reflexivity.
  - destruct (writer dev) eqn:Hw;
      try (rewrite Hwr; reflexivity); apply starts_on_pinned, Hwr.
Qed.

(** Device 1 of the complete two-device run. *)
Lemma X10_threads_select_their_device_witness :
  exists dev,
    devices (Pipeline.run accepting parameters full_execution (initial [one_pair_batch])) !! 1%nat
    = Some dev /\
    hd_error (calls_of WorkerThread (trace dev)) = Some (cudaSetDevice 1) /\
    hd_error (calls_of WriterThread (trace dev)) = Some (cudaSetDevice 1).
Proof.
  destruct (devices (Pipeline.run accepting parameters full_execution
                                  (initial [one_pair_batch])) !! 1%nat) as [dev|] eqn:Hd;
    [|vm_compute in Hd; discriminate].
  exists dev.
  pose proof (X10_threads_select_their_device accepting parameters full_execution
                [one_pair_batch] 1 dev Hd) as (_ & _ & _ & Hwk & Hwr & _).
  assert (Hstate : worker dev = WorkerReturned /\ writer dev = WriterReturned).
  { vm_compute in Hd. injection Hd as <-. split; reflexivity. }
  destruct Hstate as [Hw1 Hw2].
  split; [reflexivity|]. split.
  - apply Hwk. rewrite Hw1. discriminate.
  - apply Hwr. right. exact Hw2.
Defined.

(** X11.  With alignment_engines <= 0 no execution is ended by an
    exception: no worker is ever terminated by one, align_overlaps is
    never entered (no engine thread, no cudaMemGetInfo), and every element
    pushed carries an empty cigar vector. *)
Theorem X11_without_alignment_engines
        (C : Collaborators) (P : ApplicationParameters) (ls : list label)
        (batches : list BatchOfIndices) :
  alignment_engines P <= 0 ->
  aborted (Pipeline.run C P ls (initial batches)) = false /\
  forall d dev,
    devices (Pipeline.run C P ls (initial batches)) !! d = Some dev ->
    is_terminated (worker dev) = false /\
    engine_threads_of (trace dev) = [] /\
    (forall who, ~ In (Call who cudaMemGetInfo) (trace dev)) /\
    (forall p x, In (Pushed p x) (trace dev) -> cigars x = []).
Proof.
  intros He. destruct (unaligned_reachable C P ls batches He) as [Ha Hall].
  split; [exact Ha|]. intros d dev Hd.
  destruct (Forall_lookup_1 _ _ _ _ Hall Hd) as [Ht Hno].
  split; [exact Ht|]. split; [apply no_alignment_engine_threads, Hno|].
  rewrite Forall_forall in Hno. split.
  - intros who Hin. apply (Hno (Call who cudaMemGetInfo)). apply list_elem_of_In, Hin.
  - intros p x Hin. apply (Hno (Pushed p x)). apply list_elem_of_In, Hin.
Qed.

(** The complete run of the example with alignment switched off. *)
Lemma X11_without_alignment_engines_witness :
  alignment_engines
    {| all_to_all := false; alignment_engines := 0; num_devices := 2; kmer_size := 15;
       query_parser := queries; target_parser := targets |} <= 0 /\
  aborted (Pipeline.run rejecting
             {| all_to_all := false; alignment_engines := 0; num_devices := 2; kmer_size := 15;
                query_parser := queries; target_parser := targets |}
             full_execution (initial [one_pair_batch])) = false.
Proof.
  assert (H : alignment_engines
                {| all_to_all := false; alignment_engines := 0; num_devices := 2;
                   kmer_size := 15; query_parser := queries; target_parser := targets |} <= 0)
    by (simpl; lia).
  split; [exact H|].
  exact (proj1 (X11_without_alignment_engines rejecting _ full_execution [one_pair_batch] H)).
Defined.

(** X12.  The worker signals once and does nothing for the queue
    afterwards: in every execution, among the events of a device that
    follow the first signal of its worker there is no second signal, no
    batch taken, no element pushed and no alignment engine; the worker is
    then past its loop. *)
Theorem X12_nothing_after_the_signal
        (C : Collaborators) (P : ApplicationParameters) (ls : list label)
        (batches : list BatchOfIndices) (d : nat) (dev : device) (post : list event) :
  devices (Pipeline.run C P ls (initial batches)) !! d = Some dev ->
  after_signal (trace dev) = Some post ->
  has_signalled (worker dev) = true /\
  ~ In Signalled post /\
  pushed_of post = [] /\ taken_of post = [] /\ engine_threads_of post = [].
Proof.
  intros Hd Hpost.
  pose proof (signal_inv_reachable C P ls batches d dev Hd) as Hinv.
  unfold signal_inv in Hinv. rewrite Hpost in Hinv. destruct Hinv as [Hsig Hidle].
  destruct (idle_nothing _ Hidle) as (H1 & H2 & H3 & H4). auto.
Qed.

(** Device 1 of the complete two-device run. *)
Lemma X12_nothing_after_the_signal_witness :
  exists dev post,
    devices (Pipeline.run accepting parameters full_execution (initial [one_pair_batch])) !! 1%nat
    = Some dev /\
    after_signal (trace dev) = Some post /\
    pushed_of post = [].
Proof.
  destruct (devices (Pipeline.run accepting parameters full_execution
                                  (initial [one_pair_batch])) !! 1%nat) as [dev|] eqn:Hd;
    [|vm_compute in Hd; discriminate].
  destruct (after_signal (trace dev)) as [post|] eqn:Hpost;
    [|vm_compute in Hd; injection Hd as <-; vm_compute in Hpost; discriminate].
  exists dev, post. split; [reflexivity|]. split; [exact Hpost|].
  apply (X12_nothing_after_the_signal accepting parameters full_execution [one_pair_batch]
           1 dev post Hd Hpost).
Defined.

(** X13.  Where the output comes from.  In every execution every text in
    the shared output was written by the writer of some device for an
    element its worker pushed for a pair (q, t) of a batch that this worker
    took from the initial supply; the element holds the overlaps found for
    (q, t), with an empty cigar vector or one cigar per overlap, and the
    text is print_paf of its post-processed overlaps and its cigars with
    the query parser on both sides. *)
Theorem X13_output_provenance
        (C : Collaborators) (P : ApplicationParameters) (ls : list label)
        (batches : list BatchOfIndices) (text : list string) :
  In text (output (Pipeline.run C P ls (initial batches))) ->
  exists d dev b q t x,
    devices (Pipeline.run C P ls (initial batches)) !! d = Some dev /\
    In b batches /\ In (TookBatch b) (trace dev) /\
    In (q, t) (process_one_batch_pairs (all_to_all P) b) /\
    In (Pushed (q, t) x) (trace dev) /\
    In x (wrote_of (trace dev)) /\
    overlaps x = get_overlaps C q t /\
    (alignment_engines P <= 0 -> cigars x = []) /\
    (0 < alignment_engines P -> length (cigars x) = length (overlaps x)) /\
    text = print_paf C (post_process_overlaps C (overlaps x)) (cigars x)
                     (query_parser P) (query_parser P) (kmer_size P).
Proof.
  intros Hin.
  pose proof (output_from_writers_reachable C P ls batches) as Hout.
  unfold output_from_writers in Hout. rewrite Forall_forall in Hout.
  destruct (Hout text ltac:(apply list_elem_of_In, Hin)) as (d & dev & x & Hd & Hx & Htext).
  pose proof (Forall_lookup_1 _ _ _ _ (device_inv_reachable C P ls batches) Hd) as Hdev.
  destruct (pushed_inv_reachable C P ls batches d dev Hd) as [Hok Hincl].
  destruct (accounts_reachable C P ls batches) as (Hperm & _ & _).
  assert (Hpushed : In x (pushed_of (trace dev))).
  { rewrite <- (di_fifo P _ _ Hdev). apply in_or_app. left. exact Hx. }
  destruct (pushed_of_In _ _ Hpushed) as [[q t] Hp].
  assert (Hpair : In (q, t) (flat_map (process_one_batch_pairs (all_to_all P))
                                      (taken_of (trace dev)))).
  { apply Hincl. apply in_or_app. left. eapply pairs_of_In, Hp. }
  apply in_flat_map in Hpair as (b & Hb & Hqt).
  rewrite Forall_forall in Hok.
  destruct (Hok (Pushed (q, t) x) ltac:(apply list_elem_of_In, Hp)) as (H1 & H2 & H3).
  exists d, dev, b, q, t, x.
  split; [exact Hd|]. split.
  { eapply Permutation_in; [exact Hperm|]. apply in_or_app. right.
    eapply all_taken_In; eauto. }
  split; [apply taken_of_In, Hb|]. split; [exact Hqt|]. split; [exact Hp|].
  split; [exact Hx|]. split; [exact H1|]. split; [exact H2|]. split; [exact H3|exact Htext].
Qed.

(** The text written in the complete two-device run. *)
Lemma X13_output_provenance_witness :
  In ["query_read query_read"; "query_read query_read"]%string
     (output (Pipeline.run accepting parameters full_execution (initial [one_pair_batch]))) /\
  exists d dev b q t x,
    devices (Pipeline.run accepting parameters full_execution (initial [one_pair_batch])) !! d
    = Some dev /\
    In b [one_pair_batch] /\ In (TookBatch b) (trace dev) /\
    In (q, t) (process_one_batch_pairs (all_to_all parameters) b) /\
    In (Pushed (q, t) x) (trace dev).
Proof.
  assert (H : In ["query_read query_read"; "query_read query_read"]%string
                 (output (Pipeline.run accepting parameters full_execution
                                       (initial [one_pair_batch]))))
    by (vm_compute; left; reflexivity).
  split; [exact H|].
  destruct (X13_output_provenance accepting parameters full_execution [one_pair_batch] _ H)
    as (d & dev & b & q & t & x & H1 & H2 & H3 & H4 & H5 & _).
  exists d, dev, b, q, t, x.
  split; [exact H1|]. split; [exact H2|]. split; [exact H3|]. split; [exact H4|exact H5].
Defined.

(** X14.  When main returns (with at least one device): the batch supply
    is empty and the process was not ended by an exception; every worker
    and every writer has returned and every queue is empty; every batch of
    the initial supply was taken by exactly one worker; for every pair of
    every batch exactly one element was pushed; and the output holds
    exactly the texts of the pushed elements, one for every pair. *)
Theorem X14_when_main_returns
        (C : Collaborators) (P : ApplicationParameters) (ls : list label)
        (batches : list BatchOfIndices) :
  main (Pipeline.run C P ls (initial batches)) = MainReturned ->
  0 < num_devices P ->
  let s := Pipeline.run C P ls (initial batches) in
  batches_of_indices s = [] /\
  aborted s = false /\
  Z.of_nat (length (devices s)) = num_devices P /\
  (forall d dev, devices s !! d = Some dev ->
     worker dev = WorkerReturned /\ writer dev = WriterReturned /\
     data (overlaps_and_cigars_to_write dev) = []) /\
  all_taken (devices s) ≡ₚ batches /\
  all_pairs (devices s) ≡ₚ flat_map (process_one_batch_pairs (all_to_all P)) batches /\
  output s ≡ₚ map (written_text C P) (all_pushed (devices s)) /\
  length (output s)
  = length (flat_map (process_one_batch_pairs (all_to_all P)) batches).
Proof.
  intros Hmain Hn s.
  destruct (all_done C P ls batches Hmain Hn) as (Hbs & Hab & Hall).
  destruct (accounts_reachable C P ls batches) as (Hperm & Hout & _).
  pose proof (main_shape_reachable C P ls batches) as Hshape.
  unfold main_shape in Hshape. rewrite Hmain in Hshape. destruct Hshape as [Hlen _].
  fold s in Hbs, Hab, Hall, Hperm, Hout, Hlen.
  rewrite Hbs in Hperm. simpl in Hperm.
  assert (Hpairs : all_pairs (devices s)
                   ≡ₚ flat_map (process_one_batch_pairs (all_to_all P)) batches).
  { unfold all_pairs.
    rewrite (flat_map_ext_Forall
               (fun dev => pairs_of (trace dev))
               (fun dev => flat_map (process_one_batch_pairs (all_to_all P))
                                    (taken_of (trace dev))))
      by (eapply Forall_impl; [exact Hall|]; intros dev H; apply H).
    rewrite <- (flat_map_flat_map (process_one_batch_pairs (all_to_all P))
                                  (fun dev => taken_of (trace dev))).
    apply Permutation_flat_map. exact Hperm. }
  assert (Hwrote : all_wrote (devices s) = all_pushed (devices s)).
  { unfold all_wrote, all_pushed. apply flat_map_ext_Forall.
    eapply Forall_impl; [exact Hall|]. intros dev H. apply H. }
  rewrite Hwrote in Hout.
  split; [exact Hbs|]. split; [exact Hab|].
  split; [rewrite Hlen; unfold device_count; lia|].
  split.
  { intros d dev Hd. pose proof (Forall_lookup_1 _ _ _ _ Hall Hd) as H.
    split; [apply H|]. split; apply H. }
  split; [exact Hperm|]. split; [exact Hpairs|]. split; [exact Hout|].
  rewrite (Permutation_length Hout), length_map, <- (Permutation_length Hpairs).
  unfold all_pushed, all_pairs. apply flat_map_length_ext.
  apply Forall_forall. intros dev _. apply pushed_pairs_length.
Qed.

(** The complete two-device run: one batch with one pair, one text. *)
Lemma X14_when_main_returns_witness :
  main (Pipeline.run accepting parameters full_execution (initial [one_pair_batch]))
  = MainReturned /\
  0 < num_devices parameters /\
  length (output (Pipeline.run accepting parameters full_execution (initial [one_pair_batch])))
  = length (flat_map (process_one_batch_pairs (all_to_all parameters)) [one_pair_batch]).
Proof.
  assert (H1 : main (Pipeline.run accepting parameters full_execution
                                  (initial [one_pair_batch])) = MainReturned)
    by (vm_compute; reflexivity).
  assert (H2 : 0 < num_devices parameters) by (simpl; lia).
  split; [exact H1|]. split; [exact H2|].
  pose proof (X14_when_main_returns accepting parameters full_execution [one_pair_batch]
                H1 H2) as H.
  cbv zeta in H. apply H.
Defined.

(** X15.  With num_devices = 0 main creates no stream and no thread: in
    every execution there is no device, nothing is taken from the batch
    supply, nothing is written, and main returns after its two loop
    tests, leaving every batch unprocessed. *)
Theorem X15_no_devices
        (C : Collaborators) (P : ApplicationParameters) (ls : list label)
        (batches : list BatchOfIndices) :
  num_devices P = 0 ->
  devices (Pipeline.run C P ls (initial batches)) = [] /\
  batches_of_indices (Pipeline.run C P ls (initial batches)) = batches /\
  output (Pipeline.run C P ls (initial batches)) = [] /\
  aborted (Pipeline.run C P ls (initial batches)) = false /\
  main (Pipeline.run C P (LMain :: LMain :: ls) (initial batches)) = MainReturned.
Proof.
  intros Hzero. assert (Hn : num_devices P <= 0) by lia.
  destruct (no_devices_reachable C P ls batches Hn) as (H1 & H2 & H3 & H4).
  split; [exact H1|]. split; [exact H2|]. split; [exact H3|]. split; [exact H4|].
  assert (Hlt : (0 <? num_devices P) = false) by (apply Z.ltb_ge; lia).
  assert (Hrun : Pipeline.run C P [LMain; LMain] (initial batches)
                 = {| batches_of_indices := batches; main := MainReturned;
                      devices := []; output := []; aborted := false |}).
  { assert (Hstep1 : Pipeline.step C P LMain (initial batches)
                     = Some {| batches_of_indices := batches; main := MainJoining 0;
                               devices := []; output := []; aborted := false |}).
    { cbv beta iota delta [Pipeline.step Pipeline.main_step initial aborted main
                           batches_of_indices devices output].
      change (Z.of_nat 0) with 0. rewrite Hlt. reflexivity. }
    assert (Hstep2 : Pipeline.step C P LMain
                       {| batches_of_indices := batches; main := MainJoining 0;
                          devices := []; output := []; aborted := false |}
                     = Some {| batches_of_indices := batches; main := MainReturned;
                               devices := []; output := []; aborted := false |}).
    { cbv beta iota delta [Pipeline.step Pipeline.main_step initial aborted main
                           batches_of_indices devices output].
      change (Z.of_nat 0) with 0. rewrite Hlt. reflexivity. }
    unfold Pipeline.run. cbn [fold_left]. rewrite Hstep1, Hstep2. reflexivity. }
  change (LMain :: LMain :: ls) with ([LMain; LMain] ++ ls).
  unfold Pipeline.run in *. rewrite fold_left_app, Hrun.
  clear. induction ls as [|l ls IH]; [reflexivity|].
  simpl. destruct l; simpl; exact IH.
Qed.

(** The example with no device. *)
Lemma X15_no_devices_witness :
  num_devices
    {| all_to_all := false; alignment_engines := 1; num_devices := 0; kmer_size := 15;
       query_parser := queries; target_parser := targets |} = 0 /\
  batches_of_indices
    (Pipeline.run accepting
       {| all_to_all := false; alignment_engines := 1; num_devices := 0; kmer_size := 15;
          query_parser := queries; target_parser := targets |}
       full_execution (initial [one_pair_batch])) = [one_pair_batch].
Proof.
  assert (H : num_devices
                {| all_to_all := false; alignment_engines := 1; num_devices := 0;
                   kmer_size := 15; query_parser := queries; target_parser := targets |} = 0)
    by reflexivity.
  split; [exact H|].
  exact (proj1 (proj2 (X15_no_devices accepting _ full_execution [one_pair_batch] H))).
Defined.





(** X18.  Skipping by symmetry in all-to-all mode.  process_one_batch
    never processes a pair whose target starts before its query; a pair
    (q, t) that some device batch offers with q not after t is processed;
    so when the device batches offer both (q, t) and (t, q), one of the
    two is processed, and only one when the first reads differ.  A pair
    offered in one direction only, target first, is not processed at
    all. *)
Theorem X18_all_to_all_by_symmetry
        (batch : BatchOfIndices) (q t : IndexDescriptor) :
  (exists db, In db (device_batches batch) /\
              In q (query_indices db) /\ In t (target_indices db)) ->
  (In (q, t) (process_one_batch_pairs true batch) <-> first_read q <= first_read t) /\
  ((exists db, In db (device_batches batch) /\
               In t (query_indices db) /\ In q (target_indices db)) ->
   (In (q, t) (process_one_batch_pairs true batch) \/
    In (t, q) (process_one_batch_pairs true batch)) /\
   (first_read q <> first_read t ->
    ~ (In (q, t) (process_one_batch_pairs true batch) /\
       In (t, q) (process_one_batch_pairs true batch)))) /\
  ((~ exists db, In db (device_batches batch) /\
                 In t (query_indices db) /\ In q (target_indices db)) ->
   first_read t < first_read q ->
   ~ In (q, t) (process_one_batch_pairs true batch) /\
   ~ In (t, q) (process_one_batch_pairs true batch)).
Proof.
  intros Hqt. split; [|split].
  - rewrite batch_pairs_In. split.
    + intros [_ [H|H]]; [discriminate|exact H].
    + intros H. split; [exact Hqt|right; exact H].
  - intros Htq. split.
    + destruct (Z.le_gt_cases (first_read q) (first_read t)) as [H|H].
      * left. apply batch_pairs_In. split; [exact Hqt|right; exact H].
      * right. apply batch_pairs_In. split; [exact Htq|right; lia].
    + intros Hne [H1 H2].
      apply batch_pairs_In in H1 as [_ [H1|H1]]; [discriminate|].
      apply batch_pairs_In in H2 as [_ [H2|H2]]; [discriminate|]. lia.
  - intros Hno Hlt. split.
    + intros H. apply batch_pairs_In in H as [_ [H|H]]; [discriminate|lia].
    + intros H. apply batch_pairs_In in H as [H _]. apply Hno, H.
Qed.

(** One device batch with the same two descriptors on both sides. *)
Lemma X18_all_to_all_by_symmetry_witness :
  (exists db,
      In db (device_batches
               (mkBatchOfIndices (mkIndexBatch [first_index; second_index]
                                               [first_index; second_index])
                                 [mkIndexBatch [first_index; second_index]
                                               [first_index; second_index]])) /\
      In second_index (query_indices db) /\ In first_index (target_indices db)) /\
  ~ In (second_index, first_index)
       (process_one_batch_pairs true
          (mkBatchOfIndices (mkIndexBatch [first_index; second_index]
                                          [first_index; second_index])
                            [mkIndexBatch [first_index; second_index]
                                          [first_index; second_index]])).
Proof.
  assert (H : exists db,
             In db (device_batches
                      (mkBatchOfIndices (mkIndexBatch [first_index; second_index]
                                                      [first_index; second_index])
                                        [mkIndexBatch [first_index; second_index]
                                                      [first_index; second_index]])) /\
             In second_index (query_indices db) /\ In first_index (target_indices db)).
  { eexists. split; [left; reflexivity|]. simpl. auto. }
  split; [exact H|].
  intros Hin.
  apply (proj1 (X18_all_to_all_by_symmetry _ second_index first_index H)) in Hin.
  vm_compute in Hin. apply Hin. reflexivity.
Defined.

End PipelineProperties.
